(** * Citation linker (remark-link-citations): a shallow embedding

    The plugin [remarkLinkCitations] walks an mdast tree with
    unist-util-visit and replaces every text node that contains bracket
    citations such as [[1]] or [[23]] by a run of text and link nodes.

    The development is organised as follows.
    - [Js]       the JavaScript primitives the plugin relies on: string
                 slicing, [exec] on a global RegExp with its [lastIndex]
                 for the one pattern in use, and [splice] on arrays.
    - [Mdast]    the node taxonomy of the tree.
    - [Linker]   the visitor callback and the traversal that drives it,
                 with the in-place mutation of [parent.children] made
                 explicit by state passing.
    - [Renderer] [extractReferences], the renderer's own scan.
    Properties follow the definitions. *)

From Stdlib Require Import String Ascii List Arith NArith Bool Lia Sorted
  Permutation.
Import ListNotations.
Set Warnings "-register-all".
Open Scope string_scope.
Open Scope nat_scope.
Open Scope list_scope.

(** ** Outcomes

    A JavaScript call either produces a value or throws.  The only
    exception the modelled code can raise is a [TypeError] (reading a
    property of [undefined]).  [OutOfFuel] is the artefact of bounding
    loops and recursion by a counter; the adequacy lemmas below show it is
    never produced by the entry points. *)

Inductive outcome (A : Type) : Type :=
| Ok (a : A)
| TypeError
| OutOfFuel.

Arguments Ok {A} a.
Arguments TypeError {A}.
Arguments OutOfFuel {A}.

Definition bind {A B : Type} (m : outcome A) (k : A -> outcome B) : outcome B :=
  match m with
  | Ok a => k a
  | TypeError => TypeError
  | OutOfFuel => OutOfFuel
  end.

Notation "x <- m ;; k" := (bind m (fun x => k))
  (at level 61, m at next level, right associativity).
Notation "' pat <- m ;; k" := (bind m (fun x => match x with pat => k end))
  (at level 61, pat pattern, m at next level, right associativity).

(** ** JavaScript primitives *)

Module Js.

(** A string is a sequence of code units; the pattern only ever compares
    a unit with the brackets and with the range 0-9. *)

Definition is_digit (c : ascii) : bool :=
  (48 <=? nat_of_ascii c) && (nat_of_ascii c <=? 57).

(** [s.slice(start, end)] for non-negative arguments. *)
Definition slice (s : string) (start end_ : nat) : string :=
  substring start (end_ - start) s.

(** [s.slice(start)]. *)
Definition slice_from (s : string) (start : nat) : string :=
  substring start (String.length s - start) s.

(** [String(v)] as applied by [RegExp.prototype.exec] to its argument:
    a missing value ([undefined]) is coerced to the nine-letter word. *)
Definition ToString (v : option string) : string :=
  match v with
  | Some s => s
  | None => "undefined"
  end.

(** Property reads on a possibly-undefined receiver. *)
Definition prop_length (v : option string) : outcome nat :=
  match v with
  | Some s => Ok (String.length s)
  | None => TypeError
  end.

Definition call_slice (v : option string) (start end_ : nat) : outcome string :=
  match v with
  | Some s => Ok (slice s start end_)
  | None => TypeError
  end.

Definition call_slice_from (v : option string) (start : nat) : outcome string :=
  match v with
  | Some s => Ok (slice_from s start)
  | None => TypeError
  end.

(** [arr.splice(start, deleteCount, ...items)]; JavaScript clamps both
    [start] and [deleteCount] to the array, as [firstn]/[skipn] do. *)
Definition splice {A : Type} (arr : list A) (start deleteCount : nat)
           (items : list A) : list A :=
  firstn start arr ++ items ++ skipn (start + deleteCount) arr.

(** *** The pattern [/\[(\d+)\]/g]

    [digit_run] is the greedy [\d+]: the longest run of digits.  Giving
    back digits can never help, since the unit after a shorter run is a
    digit and not the closing bracket; [match_here_iff] below states this
    against the declarative reading of the pattern. *)

Fixpoint digit_run (s : string) : nat :=
  match s with
  | String c r => if is_digit c then S (digit_run r) else 0
  | EmptyString => 0
  end.

(** The pattern anchored at the first unit of [s]; the result is the
    number of digits captured by the group. *)
Definition match_here (s : string) : option nat :=
  match s with
  | String c r =>
      if (c =? "[")%char then
        let k := digit_run r in
        if 1 <=? k then
          match get k r with
          | Some c' => if (c' =? "]")%char then Some k else None
          | None => None
          end
        else None
      else None
  | EmptyString => None
  end.

(** Leftmost match in [s], whose first unit has index [i] in the
    subject. *)
Fixpoint search (s : string) (i : nat) : option (nat * nat) :=
  match match_here s with
  | Some k => Some (i, k)
  | None =>
      match s with
      | String _ r => search r (S i)
      | EmptyString => None
      end
  end.

(** What [exec] returns on success: [match.index], [match[0]] and
    [match[1]]. *)
Record RegExpMatch : Type := mkMatch {
  index : nat;
  full : string;
  group1 : string
}.

(** [regex.exec(str)] on a global RegExp whose [lastIndex] is
    [lastIndex]: the result and the new [lastIndex].  A failed match
    resets [lastIndex] to 0. *)
Definition exec (str : string) (lastIndex : nat)
  : option RegExpMatch * nat :=
  if String.length str <? lastIndex then (None, 0)
  else
    match search (substring lastIndex (String.length str - lastIndex) str) lastIndex with
    | Some (i, k) =>
        (Some (mkMatch i (substring i (k + 2) str) (substring (i + 1) k str)),
         i + (k + 2))
    | None => (None, 0)
    end.

End Js.

(** ** The document tree (mdast)

    The plugin is typed against mdast: [Text] carries a [value], [Link] a
    [url], an optional [title] and children; every other node is either a
    container or a leaf and is opaque to the plugin.  The [value] of a
    text node is optional so that a node whose [value] is missing at run
    time can be fed to the code. *)

Module Mdast.

Inductive ParentKind : Type :=
| Root | Paragraph | Heading | Blockquote | ListNode | ListItem
| Emphasis | Strong | Delete | LinkReference
| Table | TableRow | TableCell | FootnoteDefinition.

Inductive LeafKind : Type :=
| InlineCode | Break | Image | ImageReference | Html | Code
| ThematicBreak | LinkDefinition | FootnoteReference | Yaml.

Inductive Node : Type :=
| Text (value : option string)
| Link (url : string) (title : option string) (children : list Node)
| Parent (kind : ParentKind) (children : list Node)
| Leaf (kind : LeafKind) (value : option string).

(** [node.type === 'text'] and [node.type === 'link']. *)
Definition is_text (n : Node) : bool :=
  match n with Text _ => true | _ => false end.

Definition is_link (n : Node) : bool :=
  match n with Link _ _ _ => true | _ => false end.

(** ['children' in node && node.children]. *)
Definition children (n : Node) : option (list Node) :=
  match n with
  | Link _ _ cs | Parent _ cs => Some cs
  | Text _ | Leaf _ _ => None
  end.

(** The node once its [children] array holds [cs]. *)
Definition with_children (n : Node) (cs : list Node) : Node :=
  match n with
  | Link u t _ => Link u t cs
  | Parent k _ => Parent k cs
  | Text _ | Leaf _ _ => n
  end.

(** [node.value]. *)
Definition value (n : Node) : option string :=
  match n with
  | Text v | Leaf _ v => v
  | Link _ _ _ | Parent _ _ => None
  end.

(** Induction over trees, with the hypothesis available for every child. *)
Section NodeInd.
Variable P : Node -> Prop.
Hypothesis HText : forall v, P (Text v).
Hypothesis HLink : forall u t cs, Forall P cs -> P (Link u t cs).
Hypothesis HParent : forall k cs, Forall P cs -> P (Parent k cs).
Hypothesis HLeaf : forall k v, P (Leaf k v).

Fixpoint Node_tree_ind (n : Node) : P n :=
  match n with
  | Text v => HText v
  | Link u t cs =>
      HLink u t cs
        ((fix all (l : list Node) : Forall P l :=
            match l with
            | [] => Forall_nil P
            | c :: r => Forall_cons c (Node_tree_ind c) (all r)
            end) cs)
  | Parent k cs =>
      HParent k cs
        ((fix all (l : list Node) : Forall P l :=
            match l with
            | [] => Forall_nil P
            | c :: r => Forall_cons c (Node_tree_ind c) (all r)
            end) cs)
  | Leaf k v => HLeaf k v
  end.
End NodeInd.

End Mdast.

Import Mdast.

(** ** The plugin *)

Module Linker.

(** What the visitor callback hands back to unist-util-visit:
    nothing ([return;]), the constant [SKIP], or a number. *)
Inductive VisitorReturn : Type :=
| ReturnUndefined
| ReturnSKIP
| ReturnIndex (n : nat).

(** Observable steps of a run: the callback is entered on a node, and
    the callback starts the citation scan on a value. *)
Inductive Event : Type :=
| Visit (node : Node)
| Scan (value : option string).

(** The [while ((match = regex.exec(originalValue)) !== null)] loop.
    [regex_lastIndex] is the [lastIndex] property of the RegExp object,
    [lastIndex] and [createdNodes] are the callback's locals. *)
Fixpoint citation_loop (fuel : nat) (originalValue : option string)
         (regex_lastIndex lastIndex : nat) (createdNodes : list Node)
  : outcome (list Node * nat) :=
  match fuel with
  | 0 => OutOfFuel
  | S fuel' =>
      match Js.exec (Js.ToString originalValue) regex_lastIndex with
      | (None, _) => Ok (createdNodes, lastIndex)
      | (Some m, regex_lastIndex') =>
          let citationNumber := Js.group1 m in
          let fullMatchText := Js.full m in
          let matchStartIndex := Js.index m in
          before <-
            (if lastIndex <? matchStartIndex then
               t <- Js.call_slice originalValue lastIndex matchStartIndex ;;
               Ok [Text (Some t)]
             else Ok []) ;;
          citation_loop fuel' originalValue regex_lastIndex' regex_lastIndex'
            (createdNodes ++ before ++
             [Link ("#ref-" ++ citationNumber)%string None
                   [Text (Some fullMatchText)]])
      end
  end.

(** The callback passed to [visit].  The parent object is mutated by
    [splice]; here the callback returns the parent as it is afterwards. *)
Definition visitor (node : Node) (index : option nat) (parent : option Node)
  : outcome (option Node * VisitorReturn * list Event) :=
  match parent, index with
  | Some p, Some i =>
      match children p with
      | None => Ok (parent, ReturnUndefined, [])
      | Some siblings =>
          if is_link p then Ok (parent, ReturnSKIP, [])
          else
            let originalValue := value node in
            '(createdNodes, lastIndex) <-
               citation_loop (S (String.length (Js.ToString originalValue)))
                             originalValue 0 0 [] ;;
            if List.length createdNodes =? 0 then
              Ok (parent, ReturnUndefined, [Scan originalValue])
            else
              len <- Js.prop_length originalValue ;;
              rest <-
                (if lastIndex <? len then
                   t <- Js.call_slice_from originalValue lastIndex ;;
                   Ok [Text (Some t)]
                 else Ok []) ;;
              let createdNodes := createdNodes ++ rest in
              Ok (Some (with_children p (Js.splice siblings i 1 createdNodes)),
                  ReturnIndex (i + List.length createdNodes),
                  [Scan originalValue])
      end
  | _, _ => Ok (parent, ReturnUndefined, [])
  end.

(** *** unist-util-visit

    [visit(tree, 'text', visitor)] as [visitParents] runs it, forwards.
    The callback never returns [EXIT], so the early exits of the library
    are left out.  A tree built by the parser holds every node object
    once, hence [parent.children.indexOf(node)] is the offset at which
    the traversal found the node. *)

Inductive Action : Type := CONTINUE | SKIP.

Definition VisitResult : Type := (option Action * option nat)%type.

Definition toResult (r : VisitorReturn) : VisitResult :=
  match r with
  | ReturnUndefined => (None, None)
  | ReturnSKIP => (Some SKIP, None)
  | ReturnIndex n => (Some CONTINUE, Some n)
  end.

(** The child at [index] is the same object before and after its own
    subtree is visited; with values instead of objects the visited child
    is stored back. *)
Fixpoint store (arr : list Node) (i : nat) (x : Node) : list Node :=
  match arr, i with
  | [], _ => []
  | _ :: r, 0 => x :: r
  | a :: r, S j => a :: store r j x
  end.

Definition put_child (parent : option Node) (index : option nat) (child : Node)
  : option Node :=
  match parent, index with
  | Some p, Some i =>
      match children p with
      | Some cs => Some (with_children p (store cs i child))
      | None => parent
      end
  | _, _ => parent
  end.

Fixpoint visit_node (fuel : nat) (node : Node) (index : option nat)
         (parent : option Node) (trace : list Event)
  : outcome (VisitResult * Node * option Node * list Event) :=
  match fuel with
  | 0 => OutOfFuel
  | S fuel' =>
      if is_text node then
        '(parent', ret, events) <- visitor node index parent ;;
        Ok (toResult ret, node, parent', trace ++ Visit node :: events)
      else
        match children node with
        | None => Ok ((None, None), node, parent, trace)
        | Some _ =>
            '(node', trace') <- visit_children fuel' node 0 trace ;;
            Ok ((None, None), node', put_child parent index node', trace')
        end
  end

with visit_children (fuel : nat) (self : Node) (offset : nat)
                    (trace : list Event)
  : outcome (Node * list Event) :=
  match fuel with
  | 0 => OutOfFuel
  | S fuel' =>
      match children self with
      | None => Ok (self, trace)
      | Some cs =>
          match nth_error cs offset with
          | None => Ok (self, trace)
          | Some child =>
              '(subresult, _, parent', trace') <-
                 visit_node fuel' child (Some offset) (Some self) trace ;;
              let self' := match parent' with Some p => p | None => self end in
              let offset' :=
                match snd subresult with
                | Some n => n
                | None => offset + 1
                end in
              visit_children fuel' self' offset' trace'
          end
      end
  end.

(** Number of nodes of a tree; it bounds the depth of the recursion plus
    the number of iterations of any sibling loop. *)
Fixpoint node_size (n : Node) : nat :=
  match n with
  | Text _ | Leaf _ _ => 1
  | Link _ _ cs | Parent _ cs =>
      S (S ((fix sum (l : list Node) : nat :=
               match l with
               | [] => 0
               | c :: r => S (node_size c + sum r)
               end) cs))
  end.

(** The transformer returned by the plugin: [(tree) => { visit(...) }].
    The result is the tree after the run, with the trace of the run. *)
Definition run (tree : Node) : outcome (Node * list Event) :=
  '(_, tree', _, trace) <- visit_node (node_size tree) tree None None [] ;;
  Ok (tree', trace).

Definition remarkLinkCitations (tree : Node) : outcome Node :=
  '(tree', _) <- run tree ;; Ok tree'.

End Linker.

Import Linker.

(** ** The renderer's own scan

    Each result panel of [results.tsx] declares the same
    [extractReferences] and renders one hidden
    [<span id={`ref-${refNumber}`}>] per reference it returns. *)

Module Renderer.

(** [references.add(x)] on a [Set<string>]; a Set iterates in insertion
    order, so it is kept as the list of its elements in that order. *)
Definition set_add (x : string) (set : list string) : list string :=
  if existsb (String.eqb x) set then set else set ++ [x].

(** The [while ((match = referenceRegex.exec(text)) !== null)] loop. *)
Fixpoint extract_loop (fuel : nat) (text : string) (regex_lastIndex : nat)
         (references : list string) : outcome (list string) :=
  match fuel with
  | 0 => OutOfFuel
  | S fuel' =>
      match Js.exec text regex_lastIndex with
      | (None, _) => Ok references
      | (Some m, regex_lastIndex') =>
          extract_loop fuel' text regex_lastIndex'
                       (set_add (Js.group1 m) references)
      end
  end.

(** [parseInt] on a run of decimal digits; it is only ever applied to
    group 1 of the pattern, which is such a run and not empty.  The
    digits denote an integer, and the result is the Number for it. *)
Definition digit_value (c : ascii) : N := N.of_nat (nat_of_ascii c - 48).

Fixpoint parseInt_from (acc : N) (d : string) : N :=
  match d with
  | EmptyString => acc
  | String c r => parseInt_from (10 * acc + digit_value c)%N r
  end.

(** The Number for a non-negative integer: the integer itself below
    2^53, otherwise the integer rounded to 53 significant bits, ties to
    the even one; [None] stands for [Infinity], from 2^1024 on.  (Past
    the 20th digit an engine may read the digits as zeros; here they are
    read as they stand.) *)
Definition to_Number (n : N) : option N :=
  if (n <? 2 ^ 53)%N then Some n
  else
    let e := (N.log2 n - 52)%N in
    let q := N.shiftr n e in
    let r := (n - N.shiftl q e)%N in
    let half := N.shiftl 1 (e - 1) in
    let q' := if (half <? r)%N || ((r =? half)%N && N.odd q)
              then (q + 1)%N else q in
    let v := N.shiftl q' e in
    if (v <? 2 ^ 1024)%N then Some v else None.

Definition parseInt (d : string) : option N := to_Number (parseInt_from 0%N d).

(** The comparator [(a, b) => parseInt(a) - parseInt(b)] gives a result
    that is not positive: [a] need not come after [b].  The difference of
    two infinities is [NaN], which [sort] takes as zero. *)
Definition not_after (a b : string) : bool :=
  match parseInt a, parseInt b with
  | Some x, Some y => (x <=? y)%N
  | _, None => true
  | None, Some _ => false
  end.

(** [arr.sort((a, b) => parseInt(a) - parseInt(b))]: a stable sort, here
    by insertion. *)
Fixpoint insert (x : string) (sorted : list string) : list string :=
  match sorted with
  | [] => [x]
  | y :: r => if not_after x y then x :: sorted else y :: insert x r
  end.

Definition sort (arr : list string) : list string :=
  fold_right insert [] arr.

Definition extractReferences (text : string) : outcome (list string) :=
  references <- extract_loop (S (String.length text)) text 0 [] ;;
  Ok (sort references).

(** The [id] attributes of the hidden anchors rendered for [text]. *)
Definition anchor_ids (text : string) : outcome (list string) :=
  refs <- extractReferences text ;;
  Ok (map (fun refNumber => ("ref-" ++ refNumber)%string) refs).

End Renderer.

(** The link the plugin creates for the digits [n], and a paragraph holding
    one text node. *)

Definition cite (n : string) : Node :=
  Link ("#ref-" ++ n)%string None [Text (Some ("[" ++ n ++ "]")%string)].

Definition para (s : string) : Node := Parent Paragraph [Text (Some s)].

(** * Specification-level definitions *)

(** ** The pattern, declaratively

    [citation_at s i k]: at index [i] of [s] stands an opening bracket,
    then [k >= 1] decimal digits, then a closing bracket. *)

Definition citation_at (s : string) (i k : nat) : Prop :=
  get i s = Some "["%char /\
  1 <= k /\
  (forall j, j < k -> exists c, get (i + 1 + j) s = Some c /\ Js.is_digit c = true) /\
  get (i + 1 + k) s = Some "]"%char.

Definition no_citation (s : string) : Prop :=
  forall i k, ~ citation_at s i k.

(** ** The replacement sequence, as the specification words it

    [matches_from s p ms]: [ms] lists, left to right, the non-overlapping
    citations of [s] found by scanning from index [p], each as the pair of
    its start index and its digit count; scanning resumes right after the
    closing bracket of each match. *)

Inductive matches_from (s : string) : nat -> list (nat * nat) -> Prop :=
| matches_done (p : nat) :
    (forall i k, p <= i -> ~ citation_at s i k) ->
    matches_from s p []
| matches_next (p i k : nat) (ms : list (nat * nat)) :
    p <= i ->
    citation_at s i k ->
    (forall j k', p <= j < i -> ~ citation_at s j k') ->
    matches_from s (i + (k + 2)) ms ->
    matches_from s p ((i, k) :: ms).

(** A plain text node for a stretch of ordinary text, only if non-empty. *)
Definition text_if_nonempty (t : string) : list Node :=
  if (t =? "")%string then [] else [Text (Some t)].

(** The link for a match: target [#ref-<digits>], one text child holding
    the match with its brackets. *)
Definition citation_link (s : string) (m : nat * nat) : Node :=
  Link ("#ref-" ++ substring (fst m + 1) (snd m) s)%string None
       [Text (Some (substring (fst m) (snd m + 2) s))].

Fixpoint replacement_from (s : string) (cursor : nat) (ms : list (nat * nat))
  : list Node :=
  match ms with
  | [] => text_if_nonempty (substring cursor (String.length s - cursor) s)
  | m :: ms' =>
      text_if_nonempty (substring cursor (fst m - cursor) s)
      ++ citation_link s m
      :: replacement_from s (fst m + (snd m + 2)) ms'
  end.

Definition spec_replacement (s : string) (ms : list (nat * nat)) : list Node :=
  replacement_from s 0 ms.

(** The part of the replacement built inside the loop, and the cursor the
    loop ends with. *)
Fixpoint linked_prefix (s : string) (cursor : nat) (ms : list (nat * nat))
  : list Node :=
  match ms with
  | [] => []
  | m :: ms' =>
      text_if_nonempty (substring cursor (fst m - cursor) s)
      ++ citation_link s m
      :: linked_prefix s (fst m + (snd m + 2)) ms'
  end.

Fixpoint end_cursor (cursor : nat) (ms : list (nat * nat)) : nat :=
  match ms with
  | [] => cursor
  | m :: ms' => end_cursor (fst m + (snd m + 2)) ms'
  end.

(** ** What a run computes

    [expand n] is what the callback puts in place of a text node [n] under
    a parent that is not a link; it is read off the callback itself, run on
    a paragraph whose only child is [n]. *)

Definition expand (n : Node) : list Node :=
  match visitor n (Some 0) (Some (Parent Paragraph [n])) with
  | Ok (Some p', _, _) =>
      match children p' with
      | Some cs => cs
      | None => [n]
      end
  | _ => [n]
  end.

(** The image of one child in the child sequence of its parent. *)
Definition child_image (under_link : bool) (rw : Node -> Node) (c : Node)
  : list Node :=
  if is_text c then (if under_link then [c] else expand c) else [rw c].

(** The tree after the run: a structural description. *)
Fixpoint rewritten (n : Node) : Node :=
  match n with
  | Link u t cs => Link u t (flat_map (child_image true rewritten) cs)
  | Parent k cs => Parent k (flat_map (child_image false rewritten) cs)
  | Text _ | Leaf _ _ => n
  end.

Definition child_events (under_link : bool) (tr : Node -> list Event) (c : Node)
  : list Event :=
  if is_text c
  then Visit c :: (if under_link then [] else [Scan (value c)])
  else tr c.

(** The events of a run below a node, in document order. *)
Fixpoint trace_below (n : Node) : list Event :=
  match n with
  | Link _ _ cs => flat_map (child_events true trace_below) cs
  | Parent _ cs => flat_map (child_events false trace_below) cs
  | Text _ | Leaf _ _ => []
  end.

Definition trace_of (tree : Node) : list Event :=
  if is_text tree then [Visit tree] else trace_below tree.

Fixpoint nodes_size (l : list Node) : nat :=
  match l with
  | [] => 0
  | c :: r => S (node_size c + nodes_size r)
  end.

(** Offset at which the sibling loop resumes. *)
Definition next_offset (offset : nat) (r : VisitorReturn) : nat :=
  match snd (toResult r) with
  | Some n => n
  | None => offset + 1
  end.

(** The parent of a visited child [c], after the visit. *)
Definition parent_after (parent : option Node) (index : option nat) (c : Node)
  : option Node :=
  match children c with
  | Some _ => put_child parent index (rewritten c)
  | None => parent
  end.

Definition visits_as_described (c : Node) : Prop :=
  forall fuel index parent trace,
    node_size c <= fuel ->
    is_text c = false ->
    visit_node fuel c index parent trace
    = Ok ((None, None), rewritten c, parent_after parent index c,
          trace ++ trace_below c).

(** ** Deciding the matches of a concrete string *)

Fixpoint scan_matches (fuel : nat) (s : string) (p : nat) : list (nat * nat) :=
  match fuel with
  | 0 => []
  | S fuel' =>
      match Js.exec s p with
      | (Some m, p') =>
          (Js.index m, String.length (Js.group1 m)) :: scan_matches fuel' s p'
      | (None, _) => []
      end
  end.

Definition all_matches (s : string) : list (nat * nat) :=
  scan_matches (S (String.length s)) s 0.

(** ** Text content *)

(** The [value] fields below a node, concatenated in document order. *)
Fixpoint text_content (n : Node) : string :=
  match n with
  | Text v | Leaf _ v => match v with Some s => s | None => "" end
  | Link _ _ cs | Parent _ cs =>
      fold_right (fun c acc => (text_content c ++ acc)%string) "" cs
  end.

Definition text_content_list (l : list Node) : string :=
  fold_right (fun c acc => (text_content c ++ acc)%string) "" l.

(** A string made of decimal digits only. *)
Fixpoint all_digits (d : string) : bool :=
  match d with
  | EmptyString => true
  | String c r => Js.is_digit c && all_digits r
  end.

(** The nodes the plugin creates: plain text, or the link of a citation
    whose digits are [d]. *)
Definition plain_text (n : Node) : Prop := exists t, n = Text (Some t).

Definition citation_of_digits (n : Node) : Prop :=
  exists d, d <> "" /\ all_digits d = true /\ n = cite d.


(** ** Positions in a tree

    A context is a tree with a hole, [plug ctx n] the tree with [n] in the
    hole.  [rewritten_ctx ctx] is the context after a run: the siblings
    met on the way down to the hole are replaced by their images. *)

Inductive Ctx : Type :=
| Hole
| InLink (url : string) (title : option string)
         (before : list Node) (inner : Ctx) (after : list Node)
| InParent (kind : ParentKind)
           (before : list Node) (inner : Ctx) (after : list Node).

Fixpoint plug (ctx : Ctx) (n : Node) : Node :=
  match ctx with
  | Hole => n
  | InLink u t b c a => Link u t (b ++ plug c n :: a)
  | InParent k b c a => Parent k (b ++ plug c n :: a)
  end.

Fixpoint rewritten_ctx (ctx : Ctx) : Ctx :=
  match ctx with
  | Hole => Hole
  | InLink u t b c a =>
      InLink u t (flat_map (child_image true rewritten) b)
             (rewritten_ctx c)
             (flat_map (child_image true rewritten) a)
  | InParent k b c a =>
      InParent k (flat_map (child_image false rewritten) b)
               (rewritten_ctx c)
               (flat_map (child_image false rewritten) a)
  end.

(** The digits of a match. *)
Definition digits_of (s : string) (m : nat * nat) : string :=
  substring (fst m + 1) (snd m) s.

(** ** Traces *)

(** The text nodes of a tree, in document order. *)
Fixpoint text_nodes (n : Node) : list Node :=
  match n with
  | Text _ => [n]
  | Link _ _ cs | Parent _ cs => flat_map text_nodes cs
  | Leaf _ _ => []
  end.

(** The text nodes whose parent is a node other than a link, in document
    order. *)
Fixpoint scan_targets (n : Node) : list Node :=
  match n with
  | Parent _ cs =>
      flat_map (fun c => if is_text c then [c] else scan_targets c) cs
  | Link _ _ cs =>
      flat_map (fun c => if is_text c then [] else scan_targets c) cs
  | Text _ | Leaf _ _ => []
  end.

(** The nodes on which the callback was entered, and the values on which
    it started a scan, in the order of the run. *)
Definition visited (trace : list Event) : list Node :=
  flat_map (fun e => match e with Visit n => [n] | Scan _ => [] end) trace.

Definition scanned (trace : list Event) : list (option string) :=
  flat_map (fun e => match e with Scan v => [v] | Visit _ => [] end) trace.

(** ** Frame

    [created n]: [n] has one of the two shapes the plugin builds.
    [kept n n']: [n] is still in the tree after the run, as [n'], with its
    kind and fields; its child sequence is the old one, in the old order,
    in which every child is either kept in the same way or replaced
    ([spliced]).  [spliced under_link c repl]: in the children of its
    parent, [c] has become the run of nodes [repl].  Only a text node that
    holds a citation, under a parent that is not a link, is replaced, and
    then by the replacement sequence of its value, made of created
    nodes. *)

Definition created (n : Node) : Prop :=
  (exists t, n = Text (Some t)) \/
  (exists u t, n = Link u None [Text (Some t)]).

Inductive kept : Node -> Node -> Prop :=
| kept_text (v : option string) : kept (Text v) (Text v)
| kept_leaf (k : LeafKind) (v : option string) : kept (Leaf k v) (Leaf k v)
| kept_link (u : string) (t : option string) (cs : list Node)
            (css : list (list Node)) :
    Forall2 (spliced true) cs css ->
    kept (Link u t cs) (Link u t (concat css))
| kept_parent (k : ParentKind) (cs : list Node) (css : list (list Node)) :
    Forall2 (spliced false) cs css ->
    kept (Parent k cs) (Parent k (concat css))

with spliced : bool -> Node -> list Node -> Prop :=
| spliced_kept (under_link : bool) (c c' : Node) :
    kept c c' -> spliced under_link c [c']
| spliced_replaced (s : string) (ms : list (nat * nat)) (repl : list Node) :
    ms <> [] ->
    matches_from s 0 ms ->
    repl = spec_replacement s ms ->
    Forall created repl ->
    spliced false (Text (Some s)) repl.

(** A node the callback leaves alone when it meets it under a parent that
    is not a link. *)
Definition stable (n : Node) : Prop := child_image false rewritten n = [n].

(** ** Measures on trees and replacement sequences *)

(** Number of link nodes in a tree. *)
Fixpoint count_links (n : Node) : nat :=
  match n with
  | Link _ _ cs => S (fold_right (fun c acc => count_links c + acc) 0 cs)
  | Parent _ cs => fold_right (fun c acc => count_links c + acc) 0 cs
  | Text _ | Leaf _ _ => 0
  end.

(** Number of link nodes in a sequence of trees. *)
Definition links_in (l : list Node) : nat :=
  fold_right (fun c acc => count_links c + acc) 0 l.

(** Number of citations in a value; a missing value is scanned as the
    word the coercion yields, which holds none. *)
Definition citations_in (v : option string) : nat :=
  match v with
  | Some s => List.length (all_matches s)
  | None => 0
  end.

(** Number of citations the run meets: those of the text nodes whose
    parent is not a link. *)
Definition citations_count (tree : Node) : nat :=
  list_sum (map (fun n => citations_in (value n)) (scan_targets tree)).

(** No two neighbours of a sequence are both text nodes. *)
Fixpoint no_adjacent_texts (l : list Node) : Prop :=
  match l with
  | a :: r =>
      match r with
      | b :: _ => is_text a && is_text b = false
      | [] => True
      end /\ no_adjacent_texts r
  | [] => True
  end.

(** * The rest of the front end *)

(** ** More JavaScript primitives

    String methods used by the panels and the API helper, for the
    arguments they are given there: the pattern of [replace] and the
    separator of [split] are non-empty string literals, the replacement is
    the empty string. *)

Module JsString.

(** The line feed, the unit written ['\n'] in the source. *)
Definition LF : string := String (ascii_of_nat 10) "".

(** [s.startsWith(pat)]. *)
Fixpoint starts_with (pat s : string) : bool :=
  match pat with
  | EmptyString => true
  | String a p =>
      match s with
      | EmptyString => false
      | String b r => (a =? b)%char && starts_with p r
      end
  end.

(** [s.slice(0, n)] and [s.slice(n)]. *)
Fixpoint take (n : nat) (s : string) : string :=
  match n, s with
  | S k, String c r => String c (take k r)
  | _, _ => EmptyString
  end.

Fixpoint drop (n : nat) (s : string) : string :=
  match n, s with
  | S k, String _ r => drop k r
  | _, _ => s
  end.

(** [s.indexOf(pat)], with [None] for -1. *)
Fixpoint find (pat s : string) : option nat :=
  if starts_with pat s then Some 0
  else
    match s with
    | EmptyString => None
    | String _ r => option_map S (find pat r)
    end.

(** [s.replace(pat, '')] for a string [pat]: the first occurrence goes. *)
Fixpoint remove_first (pat s : string) : string :=
  if starts_with pat s then drop (String.length pat) s
  else
    match s with
    | EmptyString => EmptyString
    | String c r => String c (remove_first pat r)
    end.

(** [s.split(sep)] for a non-empty [sep]: cut at each occurrence of
    [sep], searching on from the end of the previous one.  Every cut
    consumes at least one unit, so [length s] rounds are enough. *)
Fixpoint split_fuel (fuel : nat) (sep s : string) : list string :=
  match fuel with
  | 0 => [s]
  | S fuel' =>
      match find sep s with
      | None => [s]
      | Some i =>
          take i s :: split_fuel fuel' sep (drop (i + String.length sep) s)
      end
  end.

Definition split (sep s : string) : list string :=
  split_fuel (String.length s) sep s.

(** Does the unit [c] occur in [s]; how often. *)
Fixpoint has_unit (c : ascii) (s : string) : bool :=
  match s with
  | EmptyString => false
  | String x r => (x =? c)%char || has_unit c r
  end.

Fixpoint count_unit (c : ascii) (s : string) : nat :=
  match s with
  | EmptyString => 0
  | String x r => (if (x =? c)%char then 1 else 0) + count_unit c r
  end.

(** [parts.join(sep)]. *)
Fixpoint join (sep : string) (parts : list string) : string :=
  match parts with
  | [] => EmptyString
  | x :: r =>
      match r with
      | [] => x
      | _ :: _ => (x ++ sep ++ join sep r)%string
      end
  end.

(** A plain object used as a map from strings to strings: its own
    properties, in the order they were created.  [obj[k] = v] on an
    object made by [{}] creates or overwrites the own property [k], except
    for [__proto__], which is an accessor inherited from
    [Object.prototype] whose setter ignores a string.  The order in which
    [Object.entries] enumerates the properties (integer-like keys first)
    is not part of the model. *)
Definition Obj : Type := list (string * string).

Fixpoint obj_update (o : Obj) (k v : string) : Obj :=
  match o with
  | [] => [(k, v)]
  | (k', v') :: r =>
      if (k' =? k)%string then (k, v) :: r else (k', v') :: obj_update r k v
  end.

Definition obj_set (o : Obj) (k v : string) : Obj :=
  if (k =? "__proto__")%string then o else obj_update o k v.

(** The own property [k], if any. *)
Fixpoint obj_get (o : Obj) (k : string) : option string :=
  match o with
  | [] => None
  | (k', v) :: r => if (k' =? k)%string then Some v else obj_get r k
  end.

(** A property key from a value that may be [undefined]. *)
Definition key_of (v : option string) : string :=
  match v with
  | Some s => s
  | None => "undefined"
  end.

End JsString.

(** ** results.tsx: the decode panel *)

Module Decode.

Import JsString.

Record ParsedNDISCode : Type := mkParsed {
  code : string;
  description : string;
  prices : Obj;
  rules : list string
}.

(** [lines[k].replace(label, '')]: reading a line that is not there
    gives [undefined], and calling [replace] on it throws. *)
Definition line_without (lines : list string) (k : nat) (label : string)
  : outcome string :=
  match nth_error lines k with
  | Some l => Ok (remove_first label l)
  | None => TypeError
  end.

(** The body of [pricesLine.split(', ').forEach((price) => ...)]. *)
Definition add_price (prices : Obj) (price : string) : Obj :=
  let parts := split " for " price in
  let amount := nth 0 parts "" in
  let location := nth_error parts 1 in
  obj_set prices (key_of location) amount.

Definition parseFormattedResult (result : string) : outcome ParsedNDISCode :=
  let lines := split LF result in
  code <- line_without lines 0 "Item Code: " ;;
  description <- line_without lines 1 "Description: " ;;
  pricesLine <- line_without lines 2 "Price Cap: " ;;
  rulesLine <- line_without lines 3 "Rules: " ;;
  let prices :=
    if (pricesLine =? "Price not specified")%string then []
    else fold_left add_price (split ", " pricesLine) [] in
  let rules := split ", " rulesLine in
  Ok (mkParsed code description prices rules).

(** What the back end is expected to send for one code: four labelled
    lines, the prices as [amount for location] items and the rules, both
    separated by a comma and a space. *)
Definition price_item (p : string * string) : string :=
  (fst p ++ " for " ++ snd p)%string.

Definition prices_line (items : list (string * string)) : string :=
  match items with
  | [] => "Price not specified"
  | _ :: _ => join ", " (map price_item items)
  end.

Definition formatted_result (code description pricesLine rulesLine : string)
  : string :=
  ("Item Code: " ++ code ++ LF ++
   "Description: " ++ description ++ LF ++
   "Price Cap: " ++ pricesLine ++ LF ++
   "Rules: " ++ rulesLine)%string.

(** A price item the panel reads back as it was written: no line feed
    and no comma in it, no space in the amount, no [ for ] inside the
    location. *)
Definition clean_item (p : string * string) : bool :=
  negb (has_unit (ascii_of_nat 10) (fst p)) &&
  negb (has_unit (ascii_of_nat 10) (snd p)) &&
  negb (has_unit "," (fst p)) &&
  negb (has_unit "," (snd p)) &&
  negb (has_unit " " (fst p)) &&
  match find " for " (snd p) with None => true | Some _ => false end.

Definition clean_rule (r : string) : bool :=
  negb (has_unit (ascii_of_nat 10) r) && negb (has_unit "," r).

End Decode.

(** ** results.tsx: the updates panel

    [ResultsUpdates] collects the references of the summary and of the
    description of every key update in one Set and renders one hidden
    anchor per element of the sorted array. *)

Module Updates.

Record NDISUpdate : Type := mkUpdate {
  title : string;
  effective_date : option string;
  description : string
}.

(** [refs.forEach(ref => allReferences.add(ref))]. *)
Definition add_all (refs allReferences : list string) : list string :=
  fold_left (fun set ref => Renderer.set_add ref set) refs allReferences.

(** [results.key_updates.forEach(update => ...)]. *)
Fixpoint add_updates (key_updates : list NDISUpdate)
         (allReferences : list string) : outcome (list string) :=
  match key_updates with
  | [] => Ok allReferences
  | update :: rest =>
      descriptionRefs <- Renderer.extractReferences (description update) ;;
      add_updates rest (add_all descriptionRefs allReferences)
  end.

(** [key_updates] is absent when [results?.key_updates] is falsy. *)
Definition referenceArray (updates_summary : string)
           (key_updates : option (list NDISUpdate)) : outcome (list string) :=
  summaryRefs <- Renderer.extractReferences updates_summary ;;
  let allReferences := add_all summaryRefs [] in
  allReferences <-
    match key_updates with
    | Some updates => add_updates updates allReferences
    | None => Ok allReferences
    end ;;
  Ok (Renderer.sort allReferences).

(** The [id] attributes of the hidden anchors of the panel. *)
Definition anchor_ids (updates_summary : string)
           (key_updates : option (list NDISUpdate)) : outcome (list string) :=
  refs <- referenceArray updates_summary key_updates ;;
  Ok (map (fun refNumber => ("ref-" ++ refNumber)%string) refs).

(** The strings the panel scans for references: the summary and the
    description of every key update. *)
Definition scanned_fields (updates_summary : string)
           (key_updates : option (list NDISUpdate)) : list string :=
  updates_summary ::
  match key_updates with
  | Some updates => map description updates
  | None => []
  end.

End Updates.

(** ** constants.ts *)

Module Constants.

Record Endpoint : Type := mkEndpoint {
  name : string;
  description : string;
  url : string
}.

Definition DECODE : Endpoint :=
  mkEndpoint "Decode"
             "Decode item descriptions into NDIS service codes"
             "/api/decode".

Definition POLICY_SERVICES : Endpoint :=
  mkEndpoint "Policy & Services Guidance"
             "Get NDIS policy help and service recommendations"
             "/api/policy-guidance".

Definition NDIS_UPDATES : Endpoint :=
  mkEndpoint "NDIS Updates"
             "Get the latest updates and news about NDIS"
             "/api/ndis-updates".

Definition PLAN_BUDGET : Endpoint :=
  mkEndpoint "Budget Planning Assistant"
             "Plan and allocate your NDIS funding across support categories"
             "/api/plan-budget".

(** The values of [ENDPOINTS], in the order [Object.entries] lists them. *)
Definition ENDPOINTS : list Endpoint :=
  [DECODE; POLICY_SERVICES; NDIS_UPDATES; PLAN_BUDGET].

End Constants.

(** ** api.ts: the request URL *)

Module Api.

Definition is_slash (c : ascii) : bool := (c =? "/")%char.

Fixpoint all_slashes (s : string) : bool :=
  match s with
  | EmptyString => true
  | String c r => is_slash c && all_slashes r
  end.

(** [s.replace(/\/+$/, '')]: the leftmost index from which only slashes
    follow up to the end starts the match; the match is removed. *)
Fixpoint strip_trailing_slashes (s : string) : string :=
  match s with
  | EmptyString => EmptyString
  | String c r =>
      if is_slash c && all_slashes r then EmptyString
      else String c (strip_trailing_slashes r)
  end.

(** What [^\/+] removes at index 0: the leading run of slashes. *)
Fixpoint strip_leading_slashes (s : string) : string :=
  match s with
  | EmptyString => EmptyString
  | String c r => if is_slash c then strip_leading_slashes r else s
  end.

(** [endpoint.replace(/^\/+|\/+$/g, '')].  At index 0 the first
    alternative takes the whole leading run; after it the anchor [^] can
    no longer hold, and the second alternative matches once, where the
    run of slashes that reaches the end begins. *)
Definition cleanEndpoint (endpoint : string) : string :=
  strip_trailing_slashes (strip_leading_slashes endpoint).

(** [process.env.NEXT_PUBLIC_API_BASE || '<default>'], with the trailing
    slashes removed.  [env] is the value of the variable, if set. *)
Definition API_BASE (env : option string) : string :=
  strip_trailing_slashes
    (match env with
     | Some v =>
         if (v =? "")%string
         then "https://decode-ndis-perplexity.onrender.com"
         else v
     | None => "https://decode-ndis-perplexity.onrender.com"
     end).

Definition getApiUrl (env : option string) (endpoint : string) : string :=
  (API_BASE env ++ "/" ++ cleanEndpoint endpoint)%string.

(** First and last unit of a string. *)
Definition first_unit (s : string) : option ascii := get 0 s.

Fixpoint last_unit (s : string) : option ascii :=
  match s with
  | EmptyString => None
  | String c r =>
      match r with
      | EmptyString => Some c
      | String _ _ => last_unit r
      end
  end.

End Api.

(** ** results.tsx: which panel is shown *)

Module Display.

Import Constants.

Inductive PanelKind : Type :=
| ResultsDecode | ResultsPolicy | ResultsUpdates | ResultsBudget.

Inductive View : Type :=
| ShowLoading
| ShowNothing
| ShowError (error : string)
| ShowResults (title : string) (panel : option PanelKind).

(** The [results] prop: [None] stands for a falsy value ([null] before
    the first request, [''] after the endpoint was switched); otherwise
    the response object, of which only the [error] field is read here. *)
Definition truthy (field : option string) : bool :=
  match field with
  | Some s => negb (s =? "")%string
  | None => false
  end.

Definition title_of (endpoint : string) : string :=
  if (endpoint =? url NDIS_UPDATES)%string then name NDIS_UPDATES
  else if (endpoint =? url POLICY_SERVICES)%string then name POLICY_SERVICES
  else if (endpoint =? url DECODE)%string then name DECODE
  else if (endpoint =? url PLAN_BUDGET)%string then name PLAN_BUDGET
  else "NDIS".

Definition panel_of (endpoint : string) : option PanelKind :=
  if (endpoint =? url DECODE)%string then Some ResultsDecode
  else if (endpoint =? url POLICY_SERVICES)%string then Some ResultsPolicy
  else if (endpoint =? url NDIS_UPDATES)%string then Some ResultsUpdates
  else if (endpoint =? url PLAN_BUDGET)%string then Some ResultsBudget
  else None.

Definition ResultsDisplay (endpoint : string)
           (results : option (option string)) (isLoading : bool) : View :=
  if isLoading then ShowLoading
  else
    match results with
    | None => ShowNothing
    | Some error =>
        if truthy error
        then ShowError (match error with Some e => e | None => "" end)
        else ShowResults (title_of endpoint) (panel_of endpoint)
    end.

End Display.

(** ** invoice-chat.tsx: when a message can be sent *)

Module Chat.

(** The units [trim] removes, among the units below 256: tab, line feed,
    vertical tab, form feed, carriage return, space, no-break space. *)
Definition is_space (c : ascii) : bool :=
  let n := nat_of_ascii c in
  ((9 <=? n) && (n <=? 13)) || (n =? 32) || (n =? 160).

Fixpoint all_space (s : string) : bool :=
  match s with
  | EmptyString => true
  | String c r => is_space c && all_space r
  end.

Fixpoint trim_start (s : string) : string :=
  match s with
  | EmptyString => EmptyString
  | String c r => if is_space c then trim_start r else s
  end.

Fixpoint trim_end (s : string) : string :=
  match s with
  | EmptyString => EmptyString
  | String c r =>
      if is_space c && all_space r then EmptyString
      else String c (trim_end r)
  end.

(** [s.trim()]. *)
Definition trim (s : string) : string := trim_end (trim_start s).

(** A string used as a condition: the empty string is falsy. *)
Definition truthy (s : string) : bool := negb (s =? "")%string.

(** The state the three guards read. *)
Record State : Type := mkState {
  input : string;
  isUploading : bool;
  isLoading : bool
}.

(** [onKeyDown]: whether the default action is prevented and whether
    [form.requestSubmit()] is called.  The text area is rendered inside
    the form, so [closest('form')] finds one. *)
Record KeyOutcome : Type := mkKeyOutcome {
  preventDefault : bool;
  requestSubmit : bool
}.

Definition onKeyDown (st : State) (key : string) (shiftKey : bool)
  : KeyOutcome :=
  if (key =? "Enter")%string && negb shiftKey then
    mkKeyOutcome true
      (truthy (trim (input st)) && negb (isUploading st) && negb (isLoading st))
  else mkKeyOutcome false false.

(** The [disabled] attribute of the send button. *)
Definition send_disabled (st : State) : bool :=
  negb (truthy (trim (input st))) || isUploading st || isLoading st.

(** The guard at the head of [onSubmit]: does the handler return before
    sending anything. *)
Definition onSubmit_returns_early (st : State) : bool :=
  isLoading st || negb (truthy (trim (input st))).

End Chat.

(** ** invoice-chat.tsx: the plan amount of the budget assistant

    [onSubmit] looks for an amount in the message with
    [input.match(amountRegex)], tidies the matched text and hands it to
    [parseFloat].  The model stops at the text handed to [parseFloat]. *)

Module Regex.

(** The fragment of regular expressions the amount pattern is written in.
    Quantifiers only ever apply to a single unit. *)
Inductive Re : Type :=
| Unit (cls : ascii -> bool)     (* a literal, an escape or a class *)
| Star (cls : ascii -> bool)     (* [x*], greedy *)
| Opt (cls : ascii -> bool)      (* [x?], greedy *)
| Boundary                       (* [\b] *)
| Seq (r1 r2 : Re)
| Alt (r1 r2 : Re).

(** [\w]. *)
Definition is_word (c : ascii) : bool :=
  let n := nat_of_ascii c in
  ((48 <=? n) && (n <=? 57)) || ((65 <=? n) && (n <=? 90)) ||
  ((97 <=? n) && (n <=? 122)) || (n =? 95).

Definition word_before (prev : option ascii) : bool :=
  match prev with Some c => is_word c | None => false end.

Definition word_after (s : string) : bool :=
  match s with String c _ => is_word c | EmptyString => false end.

(** Backtracking matcher.  [prev] is the unit before the current
    position, [s] what is left of the subject, [k] what remains to be
    matched; the result is what is left of the subject after the whole
    match.  A greedy quantifier first tries to take a unit and falls back
    to taking none; an alternation tries its left side first. *)
Fixpoint run (r : Re) (prev : option ascii) (s : string)
         (k : option ascii -> string -> option string) : option string :=
  match r with
  | Unit cls =>
      match s with
      | String c rest => if cls c then k (Some c) rest else None
      | EmptyString => None
      end
  | Opt cls =>
      match s with
      | String c rest =>
          if cls c then
            match k (Some c) rest with
            | Some out => Some out
            | None => k prev s
            end
          else k prev s
      | EmptyString => k prev s
      end
  | Star cls =>
      (fix star (prev : option ascii) (s : string) : option string :=
         match s with
         | String c rest =>
             if cls c then
               match star (Some c) rest with
               | Some out => Some out
               | None => k prev s
               end
             else k prev s
         | EmptyString => k prev s
         end) prev s
  | Boundary =>
      if xorb (word_before prev) (word_after s) then k prev s else None
  | Seq r1 r2 => run r1 prev s (fun prev' s' => run r2 prev' s' k)
  | Alt r1 r2 =>
      match run r1 prev s k with
      | Some out => Some out
      | None => run r2 prev s k
      end
  end.

(** [s.match(re)] for a pattern without the [g] flag: the first index at
    which the pattern matches, and the matched text [match[0]]. *)
Fixpoint first_match (re : Re) (prev : option ascii) (s : string)
  : option string :=
  match run re prev s (fun _ rest => Some rest) with
  | Some rest => Some (JsString.take (String.length s - String.length rest) s)
  | None =>
      match s with
      | String c r => first_match re (Some c) r
      | EmptyString => None
      end
  end.

End Regex.

Module Budget.

Import Regex.

(** Classes of the amount pattern.  The pattern carries the [i] flag, so
    a letter stands for both of its cases. *)
Definition lit (c : ascii) : ascii -> bool := fun x => (x =? c)%char.

Definition lower_unit (c : ascii) : ascii :=
  let n := nat_of_ascii c in
  if ((65 <=? n) && (n <=? 90)) ||
     ((192 <=? n) && (n <=? 222) && negb (n =? 215))
  then ascii_of_nat (n + 32) else c.

Definition letter (c : ascii) : ascii -> bool :=
  fun x =>
    let n := nat_of_ascii x in
    (x =? c)%char || ((65 <=? n) && (n <=? 90) && (lower_unit x =? c)%char).

Definition digit_or_comma (c : ascii) : bool :=
  Js.is_digit c || (c =? ",")%char.

(** [\d[\d,]*\.?\d*\s*k?]. *)
Definition number : Re :=
  Seq (Unit Js.is_digit)
      (Seq (Star digit_or_comma)
           (Seq (Opt (lit "."))
                (Seq (Star Js.is_digit)
                     (Seq (Star Chat.is_space) (Opt (letter "k")))))).

(** [dollars]. *)
Definition dollars : Re :=
  Seq (Unit (letter "d"))
      (Seq (Unit (letter "o"))
           (Seq (Unit (letter "l"))
                (Seq (Unit (letter "l"))
                     (Seq (Unit (letter "a"))
                          (Seq (Unit (letter "r")) (Unit (letter "s"))))))).

(** [/\$(\d[\d,]*\.?\d*\s*k?)|\b(\d[\d,]*\.?\d*\s*k?)\s*dollars\b|(\d[\d,]*\.?\d*\s*k?)\b/i]. *)
Definition amountRegex : Re :=
  Alt (Seq (Unit (lit "$")) number)
      (Alt (Seq Boundary
                (Seq number (Seq (Star Chat.is_space) (Seq dollars Boundary))))
           (Seq number Boundary)).

(** [s.replace(/[\$,\s]/g, '')]. *)
Fixpoint strip_marks (s : string) : string :=
  match s with
  | EmptyString => EmptyString
  | String c r =>
      if (c =? "$")%char || (c =? ",")%char || Chat.is_space c
      then strip_marks r
      else String c (strip_marks r)
  end.

(** [s.toLowerCase()], units below 256. *)
Fixpoint toLowerCase (s : string) : string :=
  match s with
  | EmptyString => EmptyString
  | String c r => String (lower_unit c) (toLowerCase r)
  end.

(** [s.endsWith('k')]. *)
Definition ends_with_k (s : string) : bool :=
  match Api.last_unit s with
  | Some c => (c =? "k")%char
  | None => false
  end.

(** The text handed to [parseFloat], from [match[0]]. *)
Definition tidy (match0 : string) : string :=
  let extractedAmount := strip_marks match0 in
  if ends_with_k (toLowerCase extractedAmount)
  then (JsString.remove_first "k" (toLowerCase extractedAmount) ++ "000")%string
  else extractedAmount.

(** The argument of [parseFloat] for a message, or [None] when the
    pattern does not match and [planAmount] stays 0. *)
Definition amount_text (input : string) : option string :=
  match first_match amountRegex None input with
  | Some match0 => Some (tidy match0)
  | None => None
  end.

End Budget.

(** The unit before the position reached after reading [d] from a
    position whose previous unit is [prev]. *)
Fixpoint last_from (prev : option ascii) (d : string) : option ascii :=
  match d with
  | EmptyString => prev
  | String c r => last_from (Some c) r
  end.

(** Every unit of [s] is in the class. *)
Fixpoint all_in (cls : ascii -> bool) (s : string) : bool :=
  match s with
  | EmptyString => true
  | String c r => cls c && all_in cls r
  end.

(** The first unit of [s], if any, is outside the class. *)
Definition stops (cls : ascii -> bool) (s : string) : bool :=
  match s with
  | EmptyString => true
  | String c _ => negb (cls c)
  end.

(** The units [strip_marks] removes. *)
Definition is_mark (c : ascii) : bool :=
  (c =? "$")%char || (c =? ",")%char || Chat.is_space c.

(** A stretch of text the tidying leaves as it is. *)
Definition inert (n : string) : Prop :=
  forall x,
    Budget.strip_marks (n ++ x) = (n ++ Budget.strip_marks x)%string /\
    Budget.toLowerCase (n ++ x) = (n ++ Budget.toLowerCase x)%string /\
    JsString.remove_first "k" (n ++ x)
    = (n ++ JsString.remove_first "k" x)%string.
(** * Properties *)

(** ** Worked examples *)

Example exec_example_1 :
  Js.exec "see [12] for detail" 0 = (Some (Js.mkMatch 4 "[12]" "12"), 8).
Proof. reflexivity. Qed.

Example exec_example_2 : Js.exec "see [12] for detail" 8 = (None, 0).
Proof. reflexivity. Qed.

Example exec_example_3 :
  Js.exec "[a] [] [[007]]" 0 = (Some (Js.mkMatch 8 "[007]" "007"), 13).
Proof. reflexivity. Qed.

(** The examples of the plugin's documentation and of section 8. *)

Example single_citation :
  remarkLinkCitations (para "[5]") = Ok (Parent Paragraph [cite "5"]).
Proof. reflexivity. Qed.

Example surrounded_citation :
  remarkLinkCitations (para "see [12] for detail")
  = Ok (Parent Paragraph
          [Text (Some "see "); cite "12"; Text (Some " for detail")]).
Proof. reflexivity. Qed.

Example adjacent_citations :
  remarkLinkCitations (para "[1][2]")
  = Ok (Parent Paragraph [cite "1"; cite "2"]).
Proof. reflexivity. Qed.

Example non_matching_brackets :
  remarkLinkCitations (para "[a] and [1]")
  = Ok (Parent Paragraph [Text (Some "[a] and "); cite "1"]).
Proof. reflexivity. Qed.

Example link_child_untouched :
  remarkLinkCitations (Parent Paragraph [Link "https://x.org" None [Text (Some "[3]")]])
  = Ok (Parent Paragraph [Link "https://x.org" None [Text (Some "[3]")]]).
Proof. reflexivity. Qed.

Example nested_document :
  run (Parent Root
         [Parent Heading [Text (Some "Notes [1]")];
          Parent Paragraph
            [Text (Some "a [2] b");
             Parent Emphasis [Text (Some "[3]")];
             Leaf InlineCode (Some "[4]");
             Text (Some "tail")]])
  = Ok (Parent Root
          [Parent Heading [Text (Some "Notes "); cite "1"];
           Parent Paragraph
             [Text (Some "a "); cite "2"; Text (Some " b");
              Parent Emphasis [cite "3"];
              Leaf InlineCode (Some "[4]");
              Text (Some "tail")]],
        [Visit (Text (Some "Notes [1]")); Scan (Some "Notes [1]");
         Visit (Text (Some "a [2] b")); Scan (Some "a [2] b");
         Visit (Text (Some "[3]")); Scan (Some "[3]");
         Visit (Text (Some "tail")); Scan (Some "tail")]).
Proof. reflexivity. Qed.

(** ** Strings *)

Section StringFacts.

Lemma get_substring (s : string) (a n j : nat) :
  get j (substring a n s) = if j <? n then get (a + j) s else None.
Proof.
  revert a n j. induction s as [|c s IH]; intros a n j.
  - replace (substring a n "") with "" by (destruct a, n; reflexivity).
    destruct (j <? n); [destruct (a + j) | ]; destruct j; reflexivity.
  - destruct a as [|a]; simpl.
    + destruct n as [|n]; simpl.
      * destruct j; reflexivity.
      * destruct j as [|j]; simpl; [reflexivity|].
        rewrite (IH 0 n j). simpl.
        change (S j <? S n) with (j <? n). reflexivity.
    + rewrite IH. reflexivity.
Qed.

Lemma get_none_iff (s : string) (j : nat) :
  get j s = None <-> String.length s <= j.
Proof.
  revert j. induction s as [|c s IH]; intros j; simpl.
  - destruct j; split; intros; try reflexivity; lia.
  - destruct j as [|j]; simpl.
    + split; [discriminate | lia].
    + rewrite IH. lia.
Qed.

Lemma get_some_lt (s : string) (j : nat) (c : ascii) :
  get j s = Some c -> j < String.length s.
Proof.
  intros H. destruct (Nat.lt_ge_cases j (String.length s)) as [|Hge]; [assumption|].
  apply get_none_iff in Hge. congruence.
Qed.

Lemma substring_nil (s : string) (a : nat) : substring a 0 s = "".
Proof.
  revert a. induction s as [|c s IH]; intros [|a]; simpl; auto.
Qed.

Lemma substring_all (s : string) : substring 0 (String.length s) s = s.
Proof.
  induction s as [|c s IH]; simpl; [reflexivity | now rewrite IH].
Qed.

Lemma substring_split (s : string) (a n m : nat) :
  (substring a n s ++ substring (a + n) m s)%string = substring a (n + m) s.
Proof.
  revert a n m. induction s as [|c s IH]; intros a n m.
  - destruct a, n, m; reflexivity.
  - destruct a as [|a]; simpl.
    + destruct n as [|n]; simpl.
      * destruct m; reflexivity.
      * f_equal. apply (IH 0 n m).
    + apply IH.
Qed.

Lemma length_substring (s : string) (a n : nat) :
  a + n <= String.length s -> String.length (substring a n s) = n.
Proof.
  revert a n. induction s as [|c s IH]; intros a n H; simpl in *.
  - destruct a, n; simpl; lia.
  - destruct a as [|a]; simpl.
    + destruct n as [|n]; simpl; [reflexivity|]. rewrite IH; lia.
    + apply IH. lia.
Qed.

Lemma empty_iff_length (s : string) : s = "" <-> String.length s = 0.
Proof. destruct s; simpl; split; intros; try reflexivity; discriminate. Qed.

Lemma append_empty_r (a : string) : (a ++ "")%string = a.
Proof. induction a as [|c a IH]; simpl; [reflexivity | now rewrite IH]. Qed.

Lemma append_assoc (a b c : string) :
  ((a ++ b) ++ c)%string = (a ++ (b ++ c))%string.
Proof. induction a as [|x a IH]; simpl; [reflexivity | now rewrite IH]. Qed.

End StringFacts.

(** ** The pattern *)

Section PatternFacts.

Lemma digit_run_spec (s : string) :
  (forall j, j < Js.digit_run s -> exists c, get j s = Some c /\ Js.is_digit c = true) /\
  (forall c, get (Js.digit_run s) s = Some c -> Js.is_digit c = false).
Proof.
  induction s as [|c s [IH1 IH2]]; simpl.
  - split; [intros j Hj; lia | intros c H; discriminate].
  - destruct (Js.is_digit c) eqn:Hc; simpl.
    + split.
      * intros [|j] Hj; simpl; [eauto | apply IH1; lia].
      * exact IH2.
    + split; [intros j Hj; lia | intros c' H; congruence].
Qed.

(** A run of [k] digits followed by a non-digit is the greedy run. *)
Lemma digit_run_unique (s : string) (k : nat) (c : ascii) :
  (forall j, j < k -> exists d, get j s = Some d /\ Js.is_digit d = true) ->
  get k s = Some c -> Js.is_digit c = false ->
  Js.digit_run s = k.
Proof.
  intros Hd Hk Hc.
  destruct (digit_run_spec s) as [R1 R2].
  destruct (Nat.lt_trichotomy (Js.digit_run s) k) as [Hlt | [Heq | Hgt]];
    [| assumption |].
  - destruct (Hd _ Hlt) as (d & Hg & Hdig).
    rewrite (R2 _ Hg) in Hdig. discriminate.
  - destruct (R1 _ Hgt) as (d & Hg & Hdig). congruence.
Qed.

Lemma citation_at_shift (c : ascii) (s : string) (i k : nat) :
  citation_at (String c s) (S i) k <-> citation_at s i k.
Proof. unfold citation_at; simpl. tauto. Qed.

Lemma match_here_iff (s : string) (k : nat) :
  Js.match_here s = Some k <-> citation_at s 0 k.
Proof.
  unfold citation_at, Js.match_here. destruct s as [|c s]; cbn [get Nat.add].
  - split; [discriminate | intros [H _]; discriminate].
  - destruct (digit_run_spec s) as [R1 R2].
    destruct (Ascii.eqb_spec c "["%char) as [->|Hc].
    + destruct (Nat.leb_spec 1 (Js.digit_run s)) as [Hk|Hk].
      * destruct (get (Js.digit_run s) s) as [c'|] eqn:Hg.
        -- destruct (Ascii.eqb_spec c' "]"%char) as [->|Hc'].
           ++ split.
              ** intros [= <-]. repeat split; auto.
              ** intros (_ & _ & Hd & Hclose).
                 f_equal.
                 apply (digit_run_unique s k "]"%char); auto.
           ++ split; [discriminate|].
              intros (_ & _ & Hd & Hclose). exfalso.
              rewrite (digit_run_unique s k "]"%char Hd Hclose eq_refl) in Hg.
              congruence.
        -- split; [discriminate|].
           intros (_ & _ & Hd & Hclose). exfalso.
           rewrite (digit_run_unique s k "]"%char Hd Hclose eq_refl) in Hg.
           congruence.
      * split; [discriminate|].
        intros (_ & Hk1 & Hd & Hclose). exfalso.
        rewrite (digit_run_unique s k "]"%char Hd Hclose eq_refl) in Hk. lia.
    + split; [discriminate|]. intros ([= H] & _). congruence.
Qed.

(** The digit count of a citation is determined by where it starts. *)
Lemma citation_at_functional (s : string) (i k k' : nat) :
  citation_at s i k -> citation_at s i k' -> k = k'.
Proof.
  revert i. induction s as [|c s IH]; intros i H H'.
  - destruct H as [H _]. destruct i; discriminate.
  - destruct i as [|i].
    + apply match_here_iff in H, H'. congruence.
    + apply (proj1 (citation_at_shift _ _ _ _)) in H.
      apply (proj1 (citation_at_shift _ _ _ _)) in H'.
      exact (IH i H H').
Qed.

Lemma citation_at_bound (s : string) (i k : nat) :
  citation_at s i k -> i + k + 2 <= String.length s.
Proof.
  intros (_ & _ & _ & H). apply get_some_lt in H. lia.
Qed.

Lemma search_some (s : string) (i0 i k : nat) :
  Js.search s i0 = Some (i, k) <->
  i0 <= i /\ citation_at s (i - i0) k /\
  (forall j k', j < i - i0 -> ~ citation_at s j k').
Proof.
  revert i0. induction s as [|c s IH]; intros i0.
  - simpl. split; [discriminate|].
    intros (_ & (H & _) & _). destruct (i - i0); discriminate.
  - cbn [Js.search].
    destruct (Js.match_here (String c s)) as [k0|] eqn:Hm.
    + apply match_here_iff in Hm. split.
      * intros [= <- <-]. rewrite Nat.sub_diag.
        split; [lia|]. split; [assumption|]. intros j k' Hj; lia.
      * intros (Hle & Hc & Hleft).
        destruct (i - i0) as [|d] eqn:Hd.
        -- assert (i = i0) by lia. subst.
           f_equal. f_equal. eapply citation_at_functional; eauto.
        -- exfalso. apply (Hleft 0 k0); [lia | assumption].
    + rewrite IH. split.
      * intros (Hle & Hc & Hleft).
        replace (i - i0) with (S (i - S i0)) by lia.
        split; [lia|]. split; [apply (proj2 (citation_at_shift _ _ _ _)); assumption|].
        intros [|j] k' Hj.
        -- intros Hc0. apply match_here_iff in Hc0. congruence.
        -- rewrite citation_at_shift. apply Hleft. lia.
      * intros (Hle & Hc & Hleft).
        destruct (i - i0) as [|d] eqn:Hd.
        -- apply match_here_iff in Hc. congruence.
        -- replace (i - S i0) with d by lia.
           split; [lia|]. split; [apply (proj1 (citation_at_shift _ _ _ _)) in Hc; assumption|].
           intros j k' Hj. rewrite <- (citation_at_shift c). apply Hleft. lia.
Qed.

Lemma search_none (s : string) (i0 : nat) :
  Js.search s i0 = None <-> no_citation s.
Proof.
  unfold no_citation.
  revert i0. induction s as [|c s IH]; intros i0.
  - simpl. split; [|reflexivity].
    intros _ i k (H & _). destruct i; discriminate.
  - cbn [Js.search].
    destruct (Js.match_here (String c s)) as [k0|] eqn:Hm.
    + split; [discriminate|]. intros H. exfalso.
      apply (H 0 k0). apply match_here_iff. assumption.
    + rewrite IH. split.
      * intros H [|i] k.
        -- intros Hc. apply match_here_iff in Hc. congruence.
        -- rewrite citation_at_shift. apply H.
      * intros H i k. rewrite <- (citation_at_shift c). apply H.
Qed.

(** Citations of a slice are citations of the string. *)
Lemma citation_at_substring (s : string) (a n i k : nat) :
  citation_at (substring a n s) i k -> citation_at s (a + i) k /\ i + k + 2 <= n.
Proof.
  intros (H1 & H2 & H3 & H4).
  rewrite get_substring in H1, H4.
  destruct (Nat.ltb_spec (i + 1 + k) n) as [Hlt|]; [|discriminate].
  destruct (Nat.ltb_spec i n); [|discriminate].
  split; [|lia].
  repeat split; auto.
  - intros j Hj. destruct (H3 j Hj) as (c & Hg & Hd).
    rewrite get_substring in Hg.
    destruct (Nat.ltb_spec (i + 1 + j) n); [|discriminate].
    exists c. split; [|assumption].
    rewrite <- Hg. f_equal. lia.
  - rewrite <- H4. f_equal. lia.
Qed.

Lemma citation_at_suffix (s : string) (a i k : nat) :
  citation_at (substring a (String.length s - a) s) i k <-> citation_at s (a + i) k.
Proof.
  split.
  - intros H. apply (citation_at_substring s a _ i k H).
  - intros H. pose proof (citation_at_bound _ _ _ H) as Hb.
    destruct H as (H1 & H2 & H3 & H4).
    unfold citation_at. rewrite !get_substring.
    destruct (Nat.ltb_spec i (String.length s - a)); [|lia].
    destruct (Nat.ltb_spec (i + 1 + k) (String.length s - a)); [|lia].
    repeat split; auto.
    + intros j Hj. destruct (H3 j Hj) as (c & Hg & Hd).
      exists c. rewrite get_substring.
      destruct (Nat.ltb_spec (i + 1 + j) (String.length s - a)); [|lia].
      split; [|assumption]. rewrite <- Hg. f_equal. lia.
    + rewrite <- H4. f_equal. lia.
Qed.

(** [exec] finds the leftmost citation at or after [lastIndex]. *)
Lemma exec_some (s : string) (p : nat) (m : Js.RegExpMatch) (p' : nat) :
  Js.exec s p = (Some m, p') <->
  exists i k,
    p <= i /\ citation_at s i k /\
    (forall j k', p <= j < i -> ~ citation_at s j k') /\
    m = Js.mkMatch i (substring i (k + 2) s) (substring (i + 1) k s) /\
    p' = i + (k + 2).
Proof.
  unfold Js.exec.
  destruct (Nat.ltb_spec (String.length s) p) as [Hlt|Hle].
  - split; [discriminate|].
    intros (i & k & Hp & Hc & _). apply citation_at_bound in Hc. lia.
  - destruct (Js.search _ p) as [[i k]|] eqn:Hs.
    + apply search_some in Hs. destruct Hs as (Hpi & Hc & Hleft).
      apply citation_at_suffix in Hc.
      replace (p + (i - p)) with i in Hc by lia.
      assert (Hleft' : forall j k', p <= j < i -> ~ citation_at s j k').
      { intros j k' Hj Hcj. apply (Hleft (j - p) k'); [lia|].
        apply citation_at_suffix. replace (p + (j - p)) with j by lia.
        assumption. }
      split.
      * intros [= <- <-]. exists i, k. auto.
      * intros (i' & k' & Hp' & Hc' & Hl' & -> & ->).
        assert (i' = i).
        { destruct (Nat.lt_trichotomy i' i) as [H|[H|H]]; [|assumption|].
          - exfalso. apply (Hleft' i' k'); [lia | assumption].
          - exfalso. apply (Hl' i k); [lia | assumption]. }
        subst i'. assert (k' = k) by (eapply citation_at_functional; eauto).
        subst. reflexivity.
    + split; [discriminate|].
      intros (i & k & Hp & Hc & _). exfalso.
      apply (proj1 (search_none _ _) Hs (i - p) k).
      apply citation_at_suffix. replace (p + (i - p)) with i by lia.
      assumption.
Qed.

Lemma exec_none (s : string) (p : nat) :
  p <= String.length s ->
  (fst (Js.exec s p) = None <-> forall i k, p <= i -> ~ citation_at s i k).
Proof.
  intros Hp. unfold Js.exec.
  destruct (Nat.ltb_spec (String.length s) p) as [Hlt|Hle]; [lia|].
  destruct (Js.search _ p) as [[i k]|] eqn:Hs.
  - apply search_some in Hs. destruct Hs as (Hpi & Hc & _).
    apply citation_at_suffix in Hc.
    replace (p + (i - p)) with i in Hc by lia.
    simpl. split; [discriminate|]. intros H. exfalso. apply (H i k); assumption.
  - simpl. split; [|reflexivity]. intros _ i k Hi Hc.
    apply (proj1 (search_none _ _) Hs (i - p) k).
    apply citation_at_suffix. replace (p + (i - p)) with i by lia.
    assumption.
Qed.

End PatternFacts.

(** ** The loop of the callback *)

Section LoopFacts.

Lemma replacement_from_split (s : string) (ms : list (nat * nat)) (p : nat) :
  replacement_from s p ms
  = linked_prefix s p ms
    ++ text_if_nonempty
         (substring (end_cursor p ms) (String.length s - end_cursor p ms) s).
Proof.
  revert p. induction ms as [|m ms IH]; intros p; simpl.
  - reflexivity.
  - rewrite IH, <- app_assoc. reflexivity.
Qed.

Lemma text_if_nonempty_slice (s : string) (a b : nat) :
  b <= String.length s ->
  text_if_nonempty (substring a (b - a) s)
  = if a <? b then [Text (Some (Js.slice s a b))] else [].
Proof.
  intros Hb. unfold text_if_nonempty, Js.slice.
  destruct (String.eqb_spec (substring a (b - a) s) "") as [He|Hne].
  - apply empty_iff_length in He.
    destruct (Nat.ltb_spec a b) as [Hlt|]; [|reflexivity].
    rewrite length_substring in He by lia. lia.
  - destruct (Nat.ltb_spec a b) as [|Hge]; [reflexivity|].
    exfalso. apply Hne. replace (b - a) with 0 by lia. apply substring_nil.
Qed.

Lemma matches_from_bounds (s : string) (p : nat) (ms : list (nat * nat)) :
  matches_from s p ms -> p <= String.length s ->
  p <= end_cursor p ms <= String.length s /\
  List.length ms <= String.length s - p.
Proof.
  induction 1 as [p Hnone | p i k ms Hle Hc Hleft Hrest IH]; intros Hp; simpl.
  - lia.
  - pose proof (citation_at_bound _ _ _ Hc). specialize (IH ltac:(lia)). lia.
Qed.

(** Scanning always succeeds, and in exactly one way. *)
Lemma matches_from_total (s : string) (p : nat) :
  exists ms, matches_from s p ms.
Proof.
  remember (String.length s - p) as n eqn:Hn.
  revert p Hn. induction n as [n IH] using lt_wf_ind. intros p Hn.
  destruct (Nat.le_gt_cases p (String.length s)) as [Hp|Hp].
  - destruct (Js.exec s p) as [[m|] p'] eqn:He.
    + apply exec_some in He.
      destruct He as (i & k & Hpi & Hc & Hleft & _ & _).
      pose proof (citation_at_bound _ _ _ Hc).
      destruct (IH (String.length s - (i + (k + 2))) ltac:(lia)
                   (i + (k + 2)) eq_refl) as [ms Hms].
      exists ((i, k) :: ms). constructor; assumption.
    + exists []. constructor.
      apply (proj1 (exec_none s p Hp)). rewrite He. reflexivity.
  - exists []. constructor. intros i k Hi Hc.
    apply citation_at_bound in Hc. lia.
Qed.

Lemma matches_from_unique (s : string) (p : nat) (ms ms' : list (nat * nat)) :
  matches_from s p ms -> matches_from s p ms' -> ms = ms'.
Proof.
  intros H. revert ms'.
  induction H as [p Hnone | p i k ms Hle Hc Hleft Hrest IH]; intros ms' H'.
  - inversion H' as [|? i' k' ? Hle' Hc' ? ?]; subst; [reflexivity|].
    exfalso. apply (Hnone i' k'); assumption.
  - inversion H' as [? Hnone'|? i' k' ms2 Hle' Hc' Hleft' Hrest']; subst.
    + exfalso. apply (Hnone' i k); assumption.
    + assert (i' = i).
      { destruct (Nat.lt_trichotomy i' i) as [Hlt|[Heq|Hgt]]; [|assumption|].
        - exfalso. apply (Hleft i' k'); [lia | assumption].
        - exfalso. apply (Hleft' i k); [lia | assumption]. }
      subst i'. assert (k' = k) by (eapply citation_at_functional; eauto).
      subst k'. f_equal. apply IH. assumption.
Qed.

(** The loop of the callback builds [linked_prefix] and stops with
    [lastIndex] at [end_cursor]. *)
Lemma citation_loop_spec (s : string) (p : nat) (ms : list (nat * nat)) :
  matches_from s p ms -> p <= String.length s ->
  forall fuel created,
    List.length ms < fuel ->
    citation_loop fuel (Some s) p p created
    = Ok (created ++ linked_prefix s p ms, end_cursor p ms).
Proof.
  induction 1 as [p Hnone | p i k ms Hle Hc Hleft Hrest IH];
    intros Hp fuel created Hfuel.
  - destruct fuel as [|fuel]; [simpl in Hfuel; lia|].
    cbn [citation_loop Js.ToString].
    pose proof (proj2 (exec_none s p Hp) Hnone) as He.
    destruct (Js.exec s p) as [o p']. simpl in He. subst o.
    simpl. rewrite app_nil_r. reflexivity.
  - destruct fuel as [|fuel]; [simpl in Hfuel; lia|].
    cbn [citation_loop Js.ToString].
    pose proof (citation_at_bound _ _ _ Hc) as Hb.
    assert (He : Js.exec s p
                 = (Some (Js.mkMatch i (substring i (k + 2) s)
                                     (substring (i + 1) k s)),
                    i + (k + 2))).
    { apply exec_some. exists i, k. auto. }
    rewrite He. cbn [Js.index Js.full Js.group1 Js.call_slice].
    assert (Hgap : (if p <? i
                    then t <- Ok (Js.slice s p i) ;; Ok [Text (Some t)]
                    else Ok [])
                   = Ok (text_if_nonempty (substring p (i - p) s))).
    { rewrite text_if_nonempty_slice by lia.
      destruct (p <? i); reflexivity. }
    rewrite Hgap. cbn [bind].
    rewrite IH by (simpl in Hfuel; lia).
    simpl. unfold citation_link. simpl.
    rewrite <- !app_assoc. reflexivity.
Qed.

Lemma linked_prefix_length (s : string) (ms : list (nat * nat)) (p : nat) :
  List.length (linked_prefix s p ms) = 0 <-> ms = [].
Proof.
  destruct ms as [|m ms]; simpl.
  - tauto.
  - rewrite length_app. simpl. split; [lia | discriminate].
Qed.

End LoopFacts.

(** ** Trees *)

Section TreeFacts.

Lemma node_size_children (n : Node) (cs : list Node) :
  children n = Some cs -> node_size n = S (S (nodes_size cs)).
Proof.
  destruct n as [v|u t cs'|k cs'|k v]; simpl; intros [= <-];
    do 2 f_equal; induction cs' as [|c r IH]; simpl; congruence.
Qed.

Lemma with_children_same (n : Node) (cs : list Node) :
  children n = Some cs -> with_children n cs = n.
Proof. destruct n; simpl; intros [= <-]; reflexivity. Qed.

Lemma children_with_children (n : Node) (cs cs' : list Node) :
  children n = Some cs -> children (with_children n cs') = Some cs'.
Proof. destruct n; simpl; intros [= <-]; reflexivity. Qed.

Lemma with_children_twice (n : Node) (cs cs' : list Node) :
  with_children (with_children n cs) cs' = with_children n cs'.
Proof. destruct n; reflexivity. Qed.

Lemma is_link_with_children (n : Node) (cs : list Node) :
  is_link (with_children n cs) = is_link n.
Proof. destruct n; reflexivity. Qed.

Lemma nth_error_middle {A : Type} (l r : list A) (x : A) :
  nth_error (l ++ x :: r) (List.length l) = Some x.
Proof. induction l; simpl; auto. Qed.

Lemma splice_middle {A : Type} (l r items : list A) (x : A) :
  Js.splice (l ++ x :: r) (List.length l) 1 items = l ++ items ++ r.
Proof.
  unfold Js.splice.
  rewrite firstn_app, firstn_all, Nat.sub_diag. simpl. rewrite app_nil_r.
  rewrite skipn_app, skipn_all2 by lia.
  replace (List.length l + 1 - List.length l) with 1 by lia.
  reflexivity.
Qed.

Lemma store_middle (l r : list Node) (x y : Node) :
  store (l ++ x :: r) (List.length l) y = l ++ y :: r.
Proof. induction l as [|a l IH]; simpl; [reflexivity | now rewrite IH]. Qed.

End TreeFacts.

Section VisitorFacts.

(** The callback on a node whose value is a string, under a parent that
    is not a link. *)
Lemma visitor_scans (node p : Node) (s : string) (ms : list (nat * nat))
      (cs : list Node) (i : nat) :
  value node = Some s ->
  matches_from s 0 ms ->
  children p = Some cs ->
  is_link p = false ->
  visitor node (Some i) (Some p)
  = match ms with
    | [] => Ok (Some p, ReturnUndefined, [Scan (Some s)])
    | _ :: _ =>
        Ok (Some (with_children p (Js.splice cs i 1 (spec_replacement s ms))),
            ReturnIndex (i + List.length (spec_replacement s ms)),
            [Scan (Some s)])
    end.
Proof.
  intros Hv Hms Hcs Hlink. unfold visitor.
  rewrite Hcs, Hlink, Hv. cbn [Js.ToString].
  pose proof (matches_from_bounds s 0 ms Hms (Nat.le_0_l _)) as [Hend Hlen].
  rewrite (citation_loop_spec s 0 ms Hms (Nat.le_0_l _)) by lia.
  cbn [bind app].
  destruct ms as [|m ms].
  - reflexivity.
  - destruct (List.length (linked_prefix s 0 (m :: ms)) =? 0) eqn:Hz.
    + apply Nat.eqb_eq, linked_prefix_length in Hz. discriminate.
    + cbn [Js.prop_length bind Js.call_slice_from].
      unfold spec_replacement. rewrite replacement_from_split.
      set (c := end_cursor 0 (m :: ms)) in *.
      rewrite (text_if_nonempty_slice s c (String.length s)) by lia.
      unfold Js.slice_from, Js.slice.
      destruct (c <? String.length s); reflexivity.
Qed.

(** A missing value: [exec] scans the word produced by the coercion,
    finds nothing, and the callback returns before touching the value. *)
Lemma visitor_missing_value (node p : Node) (cs : list Node) (i : nat) :
  value node = None ->
  children p = Some cs ->
  is_link p = false ->
  visitor node (Some i) (Some p) = Ok (Some p, ReturnUndefined, [Scan None]).
Proof.
  intros Hv Hcs Hlink. unfold visitor. rewrite Hcs, Hlink, Hv. reflexivity.
Qed.

Lemma expand_some (s : string) (ms : list (nat * nat)) :
  matches_from s 0 ms ->
  expand (Text (Some s))
  = match ms with
    | [] => [Text (Some s)]
    | _ :: _ => spec_replacement s ms
    end.
Proof.
  intros Hms. unfold expand.
  rewrite (visitor_scans (Text (Some s)) (Parent Paragraph [Text (Some s)])
             s ms [Text (Some s)] 0 eq_refl Hms eq_refl eq_refl).
  destruct ms; simpl; [reflexivity|].
  unfold Js.splice. simpl. apply app_nil_r.
Qed.

Lemma expand_none : expand (Text None) = [Text None].
Proof. reflexivity. Qed.


(** The callback on the child [done ++ Text v :: todo] at offset
    [length done]. *)
Lemma visitor_on_child (p : Node) (done todo : list Node) (v : option string) :
  children p = Some (done ++ Text v :: todo) ->
  is_link p = false ->
  exists r,
    visitor (Text v) (Some (List.length done)) (Some p)
    = Ok (Some (with_children p (done ++ expand (Text v) ++ todo)), r, [Scan v])
    /\ next_offset (List.length done) r
       = List.length (done ++ expand (Text v)).
Proof.
  intros Hcs Hlink. destruct v as [s|].
  - destruct (matches_from_total s 0) as [ms Hms].
    rewrite (visitor_scans (Text (Some s)) p s ms _ _ eq_refl Hms Hcs Hlink).
    rewrite (expand_some s ms Hms).
    destruct ms as [|m ms].
    + exists ReturnUndefined. split.
      * cbn [app]. rewrite (with_children_same _ _ Hcs). reflexivity.
      * unfold next_offset. simpl. rewrite length_app. reflexivity.
    + eexists. split.
      * rewrite splice_middle. reflexivity.
      * unfold next_offset. simpl. rewrite length_app. reflexivity.
  - exists ReturnUndefined. split.
    + rewrite (visitor_missing_value (Text None) p _ _ eq_refl Hcs Hlink).
      rewrite expand_none. cbn [app].
      rewrite (with_children_same _ _ Hcs). reflexivity.
    + unfold next_offset. simpl. rewrite length_app. reflexivity.
Qed.

End VisitorFacts.

(** ** The traversal computes the structural description *)

Section TraversalFacts.

Lemma visit_node_eq (fuel : nat) (node : Node) (index : option nat)
      (parent : option Node) (trace : list Event) :
  visit_node (S fuel) node index parent trace
  = if is_text node then
      '(parent', ret, events) <- visitor node index parent ;;
      Ok (toResult ret, node, parent', trace ++ Visit node :: events)
    else
      match children node with
      | None => Ok ((None, None), node, parent, trace)
      | Some _ =>
          '(node', trace') <- visit_children fuel node 0 trace ;;
          Ok ((None, None), node', put_child parent index node', trace')
      end.
Proof. reflexivity. Qed.

Lemma visit_children_eq (fuel : nat) (self : Node) (offset : nat)
      (trace : list Event) :
  visit_children (S fuel) self offset trace
  = match children self with
    | None => Ok (self, trace)
    | Some cs =>
        match nth_error cs offset with
        | None => Ok (self, trace)
        | Some child =>
            '(subresult, _, parent', trace') <-
               visit_node fuel child (Some offset) (Some self) trace ;;
            let self' := match parent' with Some p => p | None => self end in
            let offset' :=
              match snd subresult with
              | Some n => n
              | None => offset + 1
              end in
            visit_children fuel self' offset' trace'
        end
    end.
Proof. reflexivity. Qed.

Lemma visit_children_spec (todo : list Node) :
  Forall visits_as_described todo ->
  forall fuel self done trace,
    children self = Some (done ++ todo) ->
    S (nodes_size todo) <= fuel ->
    visit_children fuel self (List.length done) trace
    = Ok (with_children self
            (done ++ flat_map (child_image (is_link self) rewritten) todo),
          trace ++ flat_map (child_events (is_link self) trace_below) todo).
Proof.
  induction 1 as [|c r Hc Hr IH]; intros fuel self done trace Hcs Hfuel.
  - destruct fuel as [|f]; [lia|].
    rewrite visit_children_eq, Hcs.
    replace (nth_error (done ++ []) (List.length done)) with (@None Node)
      by (symmetry; apply nth_error_None; rewrite app_nil_r; lia).
    simpl. rewrite (with_children_same _ _ Hcs), app_nil_r. reflexivity.
  - destruct fuel as [|f]; [lia|]. simpl in Hfuel.
    rewrite visit_children_eq, Hcs, nth_error_middle.
    cbn [flat_map].
    destruct (is_text c) eqn:Ht.
    + destruct c as [v| | |]; try discriminate.
      destruct f as [|f]; [lia|].
      rewrite visit_node_eq. cbn [is_text].
      unfold child_image at 1, child_events at 1. cbn [is_text value].
      destruct (is_link self) eqn:Hl.
      * assert (Hv : visitor (Text v) (Some (List.length done)) (Some self)
                     = Ok (Some self, ReturnSKIP, [])).
        { unfold visitor. rewrite Hcs, Hl. reflexivity. }
        rewrite Hv. cbn [bind toResult snd].
        replace (List.length done + 1) with (List.length (done ++ [Text v]))
          by (rewrite length_app; reflexivity).
        rewrite (IH (S f) self (done ++ [Text v])); [| | simpl in *; lia].
        -- rewrite Hl, <- !app_assoc. reflexivity.
        -- rewrite <- app_assoc. exact Hcs.
      * destruct (visitor_on_child self done r v Hcs Hl) as (ret & Hv & Hnext).
        rewrite Hv. cbn [bind].
        change (match snd (toResult ret) with
                | Some n => n
                | None => List.length done + 1
                end) with (next_offset (List.length done) ret).
        rewrite Hnext.
        rewrite (IH (S f) _ (done ++ expand (Text v))); [| | simpl in *; lia].
        -- rewrite with_children_twice, is_link_with_children, Hl.
           rewrite <- !app_assoc. reflexivity.
        -- rewrite <- app_assoc. apply (children_with_children _ _ _ Hcs).
    + rewrite (Hc f (Some (List.length done)) (Some self) trace ltac:(lia) Ht).
      cbn [bind snd].
      unfold child_image at 1, child_events at 1. rewrite Ht.
      replace (List.length done + 1) with (List.length (done ++ [rewritten c]))
        by (rewrite length_app; reflexivity).
      unfold parent_after. destruct (children c) as [ccs|] eqn:Hcc.
      * unfold put_child. rewrite Hcs, store_middle.
        rewrite (IH f _ (done ++ [rewritten c])); [| | lia].
        -- rewrite with_children_twice, is_link_with_children.
           rewrite <- !app_assoc. reflexivity.
        -- rewrite <- app_assoc. apply (children_with_children _ _ _ Hcs).
      * assert (Hsame : rewritten c = c) by (destruct c; try discriminate; reflexivity).
        rewrite Hsame.
        rewrite (IH f self (done ++ [c])); [| | lia].
        -- rewrite <- !app_assoc. reflexivity.
        -- rewrite <- app_assoc. exact Hcs.
Qed.

Lemma visit_node_spec (c : Node) : visits_as_described c.
Proof.
  induction c as [v|u t cs IH|k cs IH|k v] using Node_tree_ind;
    intros fuel index parent trace Hfuel Ht; try discriminate.
  - destruct fuel as [|f]; [simpl in Hfuel; lia|].
    rewrite visit_node_eq. cbn [is_text children].
    rewrite (node_size_children (Link u t cs) cs eq_refl) in Hfuel.
    pose proof (visit_children_spec cs IH f (Link u t cs) [] trace eq_refl
                  ltac:(lia)) as E.
    cbn [List.length app] in E. rewrite E. reflexivity.
  - destruct fuel as [|f]; [simpl in Hfuel; lia|].
    rewrite visit_node_eq. cbn [is_text children].
    rewrite (node_size_children (Parent k cs) cs eq_refl) in Hfuel.
    pose proof (visit_children_spec cs IH f (Parent k cs) [] trace eq_refl
                  ltac:(lia)) as E.
    cbn [List.length app] in E. rewrite E. reflexivity.
  - destruct fuel as [|f]; [simpl in Hfuel; lia|].
    rewrite visit_node_eq. simpl. rewrite app_nil_r. reflexivity.
Qed.

(** The run of the plugin, in closed form. *)
Theorem run_spec (tree : Node) :
  run tree = Ok (rewritten tree, trace_of tree).
Proof.
  unfold run, trace_of. destruct (is_text tree) eqn:Ht.
  - destruct tree as [v| | |]; try discriminate. reflexivity.
  - rewrite (visit_node_spec tree _ None None [] (Nat.le_refl _) Ht).
    reflexivity.
Qed.

Corollary remarkLinkCitations_spec (tree : Node) :
  remarkLinkCitations tree = Ok (rewritten tree).
Proof. unfold remarkLinkCitations. rewrite run_spec. reflexivity. Qed.

End TraversalFacts.

(** ** Deciding the matches of a concrete string *)

Section ScanFacts.

Lemma scan_matches_spec (fuel : nat) :
  forall s p,
    p <= String.length s -> String.length s - p < fuel ->
    matches_from s p (scan_matches fuel s p).
Proof.
  induction fuel as [|fuel IH]; intros s p Hp Hfuel; [lia|].
  cbn [scan_matches].
  destruct (Js.exec s p) as [[m|] p'] eqn:He.
  - apply exec_some in He.
    destruct He as (i & k & Hpi & Hc & Hleft & -> & ->).
    pose proof (citation_at_bound _ _ _ Hc).
    cbn [Js.index Js.group1]. rewrite length_substring by lia.
    constructor; auto. apply IH; lia.
  - constructor. apply (proj1 (exec_none s p Hp)). rewrite He. reflexivity.
Qed.

Lemma matches_from_iff (s : string) (ms : list (nat * nat)) :
  matches_from s 0 ms <-> all_matches s = ms.
Proof.
  assert (H : matches_from s 0 (all_matches s))
    by (apply scan_matches_spec; lia).
  split.
  - intros Hms. eapply matches_from_unique; eassumption.
  - intros <-. assumption.
Qed.

Lemma no_citation_iff (s : string) :
  no_citation s <-> all_matches s = [].
Proof.
  rewrite <- matches_from_iff. split.
  - intros H. constructor. intros i k _. apply H.
  - intros H i k. inversion H as [p Hnone|]; subst. apply Hnone. lia.
Qed.

End ScanFacts.

(** ** Text content *)

Section ContentFacts.

Lemma text_content_list_app (a b : list Node) :
  text_content_list (a ++ b)
  = (text_content_list a ++ text_content_list b)%string.
Proof.
  unfold text_content_list.
  induction a as [|x a IH]; simpl; [reflexivity|].
  rewrite IH, append_assoc. reflexivity.
Qed.

Lemma text_content_if_nonempty (t : string) :
  text_content_list (text_if_nonempty t) = t.
Proof.
  unfold text_if_nonempty.
  destruct (String.eqb_spec t ""); subst; simpl; [reflexivity|].
  apply append_empty_r.
Qed.

Lemma replacement_text (s : string) (p : nat) (ms : list (nat * nat)) :
  matches_from s p ms -> p <= String.length s ->
  text_content_list (replacement_from s p ms)
  = substring p (String.length s - p) s.
Proof.
  induction 1 as [p Hnone | p i k ms Hle Hc Hleft Hrest IH]; intros Hp.
  - apply text_content_if_nonempty.
  - pose proof (citation_at_bound _ _ _ Hc) as Hb.
    cbn [replacement_from fst snd].
    rewrite text_content_list_app, text_content_if_nonempty.
    change (text_content_list (citation_link s (i, k) :: ?l))
      with (text_content (citation_link s (i, k)) ++ text_content_list l)%string.
    rewrite IH by lia.
    unfold citation_link. cbn [text_content fold_right fst snd].
    rewrite append_empty_r.
    rewrite substring_split.
    replace (substring i) with (substring (p + (i - p))) by (f_equal; lia).
    rewrite substring_split. f_equal. lia.
Qed.

Lemma substring_one (s : string) (a : nat) (c : ascii) :
  get a s = Some c -> substring a 1 s = String c "".
Proof.
  revert a. induction s as [|x s IH]; intros a Hg.
  - destruct a; discriminate.
  - destruct a as [|a]; simpl in *.
    + injection Hg as ->. now rewrite substring_nil.
    + apply IH. assumption.
Qed.

Lemma all_digits_substring (s : string) (a k : nat) :
  (forall j, j < k -> exists c, get (a + j) s = Some c /\ Js.is_digit c = true) ->
  all_digits (substring a k s) = true.
Proof.
  revert s a. induction k as [|k IH]; intros s a H.
  - rewrite substring_nil. reflexivity.
  - replace (S k) with (1 + k) by reflexivity.
    rewrite <- substring_split.
    destruct (H 0 ltac:(lia)) as (c & Hg & Hd).
    rewrite Nat.add_0_r in Hg.
    rewrite (substring_one s a c Hg). simpl. rewrite Hd. simpl.
    apply IH. intros j Hj. destruct (H (S j) ltac:(lia)) as (c' & Hg' & Hd').
    exists c'. split; [|assumption]. rewrite <- Hg'. f_equal. lia.
Qed.

(** The link of a match is the link of its digits. *)
Lemma citation_link_digits (s : string) (i k : nat) :
  citation_at s i k ->
  let d := substring (i + 1) k s in
  d <> "" /\ all_digits d = true /\ citation_link s (i, k) = cite d.
Proof.
  intros Hc d. pose proof (citation_at_bound _ _ _ Hc) as Hb.
  destruct Hc as (Hopen & Hk & Hd & Hclose).
  split; [|split].
  - intros E. apply empty_iff_length in E.
    unfold d in E. rewrite length_substring in E by lia. lia.
  - apply all_digits_substring. intros j Hj.
    destruct (Hd j Hj) as (c & Hg & Hdig). exists c.
    split; assumption.
  - unfold citation_link, cite. cbn [fst snd]. do 4 f_equal.
    replace (k + 2) with (1 + (k + 1)) by lia.
    rewrite <- substring_split, <- (substring_split s (i + 1) k 1).
    rewrite (substring_one s i _ Hopen).
    rewrite (substring_one s (i + 1 + k) _ Hclose).
    reflexivity.
Qed.

Lemma replacement_shape (s : string) (p : nat) (ms : list (nat * nat)) :
  matches_from s p ms ->
  Forall (fun n => plain_text n \/ citation_of_digits n)
         (replacement_from s p ms).
Proof.
  assert (Htext : forall t, Forall (fun n => plain_text n \/ citation_of_digits n)
                                   (text_if_nonempty t)).
  { intros t. unfold text_if_nonempty. destruct (t =? "")%string; constructor.
    - left. exists t. reflexivity.
    - constructor. }
  induction 1 as [p Hnone | p i k ms Hle Hc Hleft Hrest IH].
  - apply Htext.
  - cbn [replacement_from fst snd]. apply Forall_app. split; [apply Htext|].
    constructor; [|assumption].
    right. destruct (citation_link_digits s i k Hc) as (Hne & Hdig & E).
    eexists. eauto.
Qed.

End ContentFacts.

(** ** The replacement sequence *)

(** C1.  A text node under a parent that is not a link, whose value [s]
    has the citations [ms] (found left to right, without overlap, [ms] not
    empty), is replaced by the sequence the specification describes: for
    each match the non-empty gap before it as a plain text node, then a
    link to [#ref-<digits>] whose only child is the text of the match with
    its brackets, and finally the non-empty rest as a plain text node.  The
    digits are copied from the value.  Every node of the sequence is plain
    text or the link of a non-empty run of digits, so neither [[]] nor a
    bracket holding another character ever becomes a link. *)
Theorem citation_replacement_sequence
        (s : string) (ms : list (nat * nat)) (p : Node) (cs : list Node) (i : nat) :
  children p = Some cs ->
  is_link p = false ->
  matches_from s 0 ms ->
  ms <> [] ->
  visitor (Text (Some s)) (Some i) (Some p)
  = Ok (Some (with_children p (Js.splice cs i 1 (spec_replacement s ms))),
        ReturnIndex (i + List.length (spec_replacement s ms)),
        [Scan (Some s)])
  /\ remarkLinkCitations (Parent Paragraph [Text (Some s)])
     = Ok (Parent Paragraph (spec_replacement s ms))
  /\ Forall (fun n => plain_text n \/ citation_of_digits n) (spec_replacement s ms).
Proof.
  intros Hcs Hlink Hms Hne. split; [|split].
  - rewrite (visitor_scans (Text (Some s)) p s ms cs i eq_refl Hms Hcs Hlink).
    destruct ms; [contradiction | reflexivity].
  - rewrite remarkLinkCitations_spec. cbn [rewritten flat_map].
    unfold child_image. cbn [is_text].
    rewrite (expand_some s ms Hms), app_nil_r.
    destruct ms; [contradiction | reflexivity].
  - apply replacement_shape. assumption.
Qed.

Lemma citation_replacement_sequence_witness :
  visitor (Text (Some "[a] and [1], then [007][]"))
          (Some 1)
          (Some (Parent Paragraph
                   [Leaf Break None; Text (Some "[a] and [1], then [007][]")]))
  = Ok (Some (Parent Paragraph
                [Leaf Break None;
                 Text (Some "[a] and "); cite "1"; Text (Some ", then ");
                 cite "007"; Text (Some "[]")]),
        ReturnIndex 6,
        [Scan (Some "[a] and [1], then [007][]")]).
Proof.
  exact (proj1 (citation_replacement_sequence
                  "[a] and [1], then [007][]" [(8, 1); (18, 3)]
                  (Parent Paragraph
                     [Leaf Break None; Text (Some "[a] and [1], then [007][]")])
                  [Leaf Break None; Text (Some "[a] and [1], then [007][]")]
                  1 eq_refl eq_refl
                  (proj2 (matches_from_iff _ _) eq_refl)
                  ltac:(discriminate))).
Defined.


(** ** Round trip *)

Lemma visitor_rewrites (v : option string) (index : option nat)
      (parent parent' : option Node) (n : nat) (events : list Event) :
  visitor (Text v) index parent = Ok (parent', ReturnIndex n, events) ->
  exists s ms p cs i,
    v = Some s /\ index = Some i /\ parent = Some p /\
    children p = Some cs /\ is_link p = false /\
    matches_from s 0 ms /\ ms <> [] /\
    parent' = Some (with_children p (Js.splice cs i 1 (spec_replacement s ms))) /\
    n = i + List.length (spec_replacement s ms).
Proof.
  intros H.
  destruct parent as [p|]; [|destruct index; discriminate].
  destruct index as [i|]; [|discriminate].
  destruct (children p) as [cs|] eqn:Hcs;
    [|unfold visitor in H; rewrite Hcs in H; discriminate].
  destruct (is_link p) eqn:Hl;
    [unfold visitor in H; rewrite Hcs, Hl in H; discriminate|].
  destruct v as [s|].
  - destruct (matches_from_total s 0) as [ms Hms].
    rewrite (visitor_scans (Text (Some s)) p s ms cs i eq_refl Hms Hcs Hl) in H.
    destruct ms as [|m ms]; [discriminate|].
    injection H as <- <- <-.
    exists s, (m :: ms), p, cs, i. repeat split; auto. discriminate.
  - rewrite (visitor_missing_value (Text None) p cs i eq_refl Hcs Hl) in H.
    discriminate.
Qed.

(** C2.  Whenever the callback rewrites a text node (it answers with an
    index), the nodes it splices in place of the node carry, concatenated
    in order and with the text children of the new links included, exactly
    the original value. *)
Theorem replacement_round_trip
        (v : option string) (index : option nat) (parent parent' : option Node)
        (n : nat) (events : list Event) :
  visitor (Text v) index parent = Ok (parent', ReturnIndex n, events) ->
  exists s p cs i repl,
    v = Some s /\ index = Some i /\ parent = Some p /\
    children p = Some cs /\
    parent' = Some (with_children p (Js.splice cs i 1 repl)) /\
    n = i + List.length repl /\
    text_content_list repl = s.
Proof.
  intros H.
  destruct (visitor_rewrites _ _ _ _ _ _ H)
    as (s & ms & p & cs & i & -> & -> & -> & Hcs & _ & Hms & _ & -> & ->).
  exists s, p, cs, i, (spec_replacement s ms). repeat split; auto.
  unfold spec_replacement.
  rewrite (replacement_text s 0 ms Hms (Nat.le_0_l _)).
  rewrite Nat.sub_0_r. apply substring_all.
Qed.

Lemma replacement_round_trip_witness :
  exists s p cs i repl,
    Some "[1] and [a], see [22]." = Some s /\ Some 1 = Some i /\
    Some (Parent Heading [Leaf Image None; Text (Some "[1] and [a], see [22].")])
    = Some p /\
    children p = Some cs /\
    Some (Parent Heading
            [Leaf Image None; cite "1"; Text (Some " and [a], see ");
             cite "22"; Text (Some ".")])
    = Some (with_children p (Js.splice cs i 1 repl)) /\
    5 = i + List.length repl /\
    text_content_list repl = s.
Proof.
  exact (replacement_round_trip
           (Some "[1] and [a], see [22].") (Some 1)
           (Some (Parent Heading
                    [Leaf Image None; Text (Some "[1] and [a], see [22].")]))
           (Some (Parent Heading
                    [Leaf Image None; cite "1"; Text (Some " and [a], see ");
                     cite "22"; Text (Some ".")]))
           5 [Scan (Some "[1] and [a], see [22].")] eq_refl).
Defined.

(** The same on whole trees: a run keeps the text content of the tree. *)
Lemma expand_text_content (v : option string) :
  text_content_list (expand (Text v)) = text_content (Text v).
Proof.
  destruct v as [s|]; [|reflexivity].
  destruct (matches_from_total s 0) as [ms Hms].
  rewrite (expand_some s ms Hms). destruct ms as [|m ms].
  - simpl. apply append_empty_r.
  - unfold spec_replacement.
    rewrite (replacement_text s 0 _ Hms (Nat.le_0_l _)).
    rewrite Nat.sub_0_r. apply substring_all.
Qed.

Lemma rewritten_text_content (tree : Node) :
  text_content (rewritten tree) = text_content tree.
Proof.
  induction tree as [v|u t cs IH|k cs IH|k v] using Node_tree_ind;
    try reflexivity.
  - cbn [rewritten text_content].
    induction IH as [|c r Hc Hr IHr]; [reflexivity|].
    cbn [flat_map fold_right].
    change (fold_right (fun c acc => (text_content c ++ acc)%string) "" ?l)
      with (text_content_list l) in *.
    rewrite text_content_list_app, IHr. f_equal.
    unfold child_image. destruct (is_text c); simpl.
    + apply append_empty_r.
    + rewrite Hc. apply append_empty_r.
  - cbn [rewritten text_content].
    induction IH as [|c r Hc Hr IHr]; [reflexivity|].
    cbn [flat_map fold_right].
    change (fold_right (fun c acc => (text_content c ++ acc)%string) "" ?l)
      with (text_content_list l) in *.
    rewrite text_content_list_app, IHr. f_equal.
    unfold child_image. destruct (is_text c) eqn:Ht.
    + destruct c; try discriminate. apply expand_text_content.
    + simpl. rewrite Hc. apply append_empty_r.
Qed.

(** ** Position and order *)

Lemma text_if_nonempty_no_link (t : string) :
  filter is_link (text_if_nonempty t) = [].
Proof. unfold text_if_nonempty. destruct (t =? "")%string; reflexivity. Qed.

Lemma links_of_replacement (s : string) (ms : list (nat * nat)) (p : nat) :
  filter is_link (replacement_from s p ms) = map (citation_link s) ms.
Proof.
  revert p. induction ms as [|m ms IH]; intros p; cbn [replacement_from map].
  - apply text_if_nonempty_no_link.
  - rewrite filter_app, text_if_nonempty_no_link. simpl. rewrite IH.
    reflexivity.
Qed.

Lemma matches_from_lower_bound (s : string) (p : nat) (ms : list (nat * nat)) :
  matches_from s p ms -> Forall (fun m => p <= fst m) ms.
Proof.
  induction 1 as [p Hnone | p i k ms Hle Hc Hleft Hrest IH]; constructor.
  - assumption.
  - eapply Forall_impl; [|exact IH]. simpl. intros m Hm. lia.
Qed.

Lemma matches_from_sorted (s : string) (p : nat) (ms : list (nat * nat)) :
  matches_from s p ms ->
  StronglySorted (fun a b => fst a + (snd a + 2) <= fst b) ms.
Proof.
  induction 1 as [p Hnone | p i k ms Hle Hc Hleft Hrest IH]; constructor.
  - assumption.
  - apply (matches_from_lower_bound _ _ _ Hrest).
Qed.

Lemma rewritten_parent_app (k : ParentKind) (a b : list Node) :
  rewritten (Parent k (a ++ b))
  = Parent k (flat_map (child_image false rewritten) a
              ++ flat_map (child_image false rewritten) b).
Proof. cbn [rewritten]. rewrite flat_map_app. reflexivity. Qed.

Lemma is_text_plug (ctx : Ctx) (n : Node) :
  is_text n = false -> is_text (plug ctx n) = false.
Proof. destruct ctx; simpl; auto. Qed.

(** A run acts on a subtree as it acts on the subtree alone, wherever the
    subtree stands. *)
Lemma rewritten_plug (ctx : Ctx) (n : Node) :
  is_text n = false ->
  rewritten (plug ctx n) = plug (rewritten_ctx ctx) (rewritten n).
Proof.
  intros Ht. induction ctx as [|u t b c IH a|k b c IH a]; cbn [plug rewritten_ctx].
  - reflexivity.
  - cbn [rewritten]. rewrite flat_map_app. cbn [flat_map].
    unfold child_image at 2. rewrite (is_text_plug c n Ht), IH. reflexivity.
  - cbn [rewritten]. rewrite flat_map_app. cbn [flat_map].
    unfold child_image at 2. rewrite (is_text_plug c n Ht), IH. reflexivity.
Qed.

(** C4.  The replacement of a text node stands where the node stood.
    Wherever the parent is in the tree, its children after the run are the
    images of the siblings that stood before the node, then the
    replacement, then the images of the siblings that stood after it; at
    the moment of the splice the array is the old array with the node at
    its index replaced.  The links of the replacement are, in order, the
    links of the matches, and the matches are listed by increasing
    position in the value. *)
Theorem replacement_position_and_order
        (ctx : Ctx) (k : ParentKind) (before after : list Node)
        (s : string) (ms : list (nat * nat)) :
  matches_from s 0 ms ->
  ms <> [] ->
  exists before' after',
    remarkLinkCitations (Parent k before) = Ok (Parent k before') /\
    remarkLinkCitations (Parent k after) = Ok (Parent k after') /\
    remarkLinkCitations (plug ctx (Parent k (before ++ Text (Some s) :: after)))
    = Ok (plug (rewritten_ctx ctx)
               (Parent k (before' ++ spec_replacement s ms ++ after'))) /\
    filter is_link (spec_replacement s ms) = map (citation_link s) ms /\
    StronglySorted (fun a b => fst a + (snd a + 2) <= fst b) ms /\
    (forall p cs i,
        children p = Some cs -> is_link p = false ->
        nth_error cs i = Some (Text (Some s)) ->
        exists r events,
          visitor (Text (Some s)) (Some i) (Some p)
          = Ok (Some (with_children p
                        (firstn i cs ++ spec_replacement s ms ++ skipn (S i) cs)),
                r, events)).
Proof.
  intros Hms Hne.
  exists (flat_map (child_image false rewritten) before),
         (flat_map (child_image false rewritten) after).
  rewrite !remarkLinkCitations_spec.
  split; [reflexivity|]. split; [reflexivity|]. split; [|split; [|split]].
  - rewrite rewritten_plug by reflexivity.
    rewrite rewritten_parent_app. cbn [flat_map].
    unfold child_image at 2. cbn [is_text].
    rewrite (expand_some s ms Hms).
    destruct ms; [contradiction | reflexivity].
  - apply links_of_replacement.
  - eapply matches_from_sorted; eassumption.
  - intros p cs i Hcs Hl Hnth.
    rewrite (visitor_scans (Text (Some s)) p s ms cs i eq_refl Hms Hcs Hl).
    destruct ms as [|m ms]; [contradiction|].
    do 2 eexists. unfold Js.splice.
    replace (i + 1) with (S i) by lia. reflexivity.
Qed.

Lemma replacement_position_and_order_witness :
  exists before' after',
    remarkLinkCitations (Parent Paragraph [Text (Some "x [9]"); Leaf Break None])
    = Ok (Parent Paragraph before') /\
    remarkLinkCitations (Parent Paragraph [Parent Strong [Text (Some "[4]")]])
    = Ok (Parent Paragraph after') /\
    remarkLinkCitations
      (Parent Root
         [Parent Heading [Text (Some "[7]")];
          Parent Paragraph
            [Text (Some "x [9]"); Leaf Break None;
             Text (Some "a [3], b [1][2]");
             Parent Strong [Text (Some "[4]")]]])
    = Ok (Parent Root
            [Parent Heading [cite "7"];
             Parent Paragraph
               (before'
                ++ [Text (Some "a "); cite "3"; Text (Some ", b ");
                    cite "1"; cite "2"]
                ++ after')]) /\
    [cite "3"; cite "1"; cite "2"]
    = map (citation_link "a [3], b [1][2]") [(2, 1); (9, 1); (12, 1)].
Proof.
  destruct (replacement_position_and_order
              (InParent Root [Parent Heading [Text (Some "[7]")]] Hole [])
              Paragraph [Text (Some "x [9]"); Leaf Break None]
              [Parent Strong [Text (Some "[4]")]]
              "a [3], b [1][2]" [(2, 1); (9, 1); (12, 1)]
              (proj2 (matches_from_iff _ _) eq_refl)
              ltac:(discriminate))
    as (b & a & Hb & Ha & Hrun & Hlinks & _).
  exists b, a. repeat split; assumption.
Defined.

(** ** Values without citations *)

Lemma visitor_without_citation (s : string) (index : option nat)
      (parent : option Node) :
  no_citation s ->
  exists r events,
    visitor (Text (Some s)) index parent = Ok (parent, r, events) /\
    (forall n, r <> ReturnIndex n).
Proof.
  intros Hno.
  assert (Hms : matches_from s 0 []) by (constructor; intros i k _; apply Hno).
  destruct parent as [p|];
    [|exists ReturnUndefined, []; destruct index; split; [reflexivity|discriminate|reflexivity|discriminate]].
  destruct index as [i|];
    [|exists ReturnUndefined, []; split; [reflexivity|discriminate]].
  destruct (children p) as [cs|] eqn:Hcs.
  - destruct (is_link p) eqn:Hl.
    + exists ReturnSKIP, []. unfold visitor. rewrite Hcs, Hl.
      split; [reflexivity|discriminate].
    + rewrite (visitor_scans (Text (Some s)) p s [] cs i eq_refl Hms Hcs Hl).
      do 2 eexists. split; [reflexivity|discriminate].
  - exists ReturnUndefined, []. unfold visitor. rewrite Hcs.
    split; [reflexivity|discriminate].
Qed.

(** C5.  A text node whose value holds no citation is handed back
    untouched: whatever the index and the parent, the callback returns the
    parent as it received it and asks for no jump; after a run, wherever
    the parent is in the tree, the node stands unchanged between the
    images of its former siblings. *)
Theorem no_citation_no_change
        (ctx : Ctx) (k : ParentKind) (before after : list Node) (s : string) :
  no_citation s ->
  (forall index parent,
      exists r events,
        visitor (Text (Some s)) index parent = Ok (parent, r, events) /\
        (forall n, r <> ReturnIndex n)) /\
  exists before' after',
    remarkLinkCitations (Parent k before) = Ok (Parent k before') /\
    remarkLinkCitations (Parent k after) = Ok (Parent k after') /\
    remarkLinkCitations (plug ctx (Parent k (before ++ Text (Some s) :: after)))
    = Ok (plug (rewritten_ctx ctx)
               (Parent k (before' ++ Text (Some s) :: after'))).
Proof.
  intros Hno. split.
  - intros index parent. apply visitor_without_citation. assumption.
  - exists (flat_map (child_image false rewritten) before),
           (flat_map (child_image false rewritten) after).
    rewrite !remarkLinkCitations_spec.
    split; [reflexivity|]. split; [reflexivity|].
    rewrite rewritten_plug by reflexivity.
    rewrite rewritten_parent_app. cbn [flat_map].
    unfold child_image at 2. cbn [is_text].
    assert (Hms : matches_from s 0 []) by (constructor; intros i j _; apply Hno).
    rewrite (expand_some s [] Hms). reflexivity.
Qed.

Lemma no_citation_no_change_witness :
  exists before' after',
    remarkLinkCitations (Parent ListItem [Text (Some "[1]")])
    = Ok (Parent ListItem before') /\
    remarkLinkCitations (Parent ListItem [Text (Some "[2]")])
    = Ok (Parent ListItem after') /\
    remarkLinkCitations
      (Parent ListNode
         [Parent ListItem
            [Text (Some "[1]"); Text (Some "[] [a] [1 2] 3]"); Text (Some "[2]")];
          Parent ListItem [Text (Some "[5]")]])
    = Ok (Parent ListNode
            [Parent ListItem
               (before' ++ Text (Some "[] [a] [1 2] 3]") :: after');
             Parent ListItem [cite "5"]]).
Proof.
  exact (proj2 (no_citation_no_change
                  (InParent ListNode [] Hole [Parent ListItem [Text (Some "[5]")]])
                  ListItem [Text (Some "[1]")] [Text (Some "[2]")]
                  "[] [a] [1 2] 3]"
                  (proj2 (no_citation_iff "[] [a] [1 2] 3]") eq_refl))).
Defined.

(** ** Text below a link *)

(** The text children of a link are never rewritten. *)
Lemma link_children_kept (u : string) (t : option string) (v : option string)
      (before after : list Node) :
  exists before' after',
    remarkLinkCitations (Link u t (before ++ Text v :: after))
    = Ok (Link u t (before' ++ Text v :: after')).
Proof.
  exists (flat_map (child_image true rewritten) before),
         (flat_map (child_image true rewritten) after).
  rewrite remarkLinkCitations_spec. cbn [rewritten].
  rewrite flat_map_app. reflexivity.
Qed.

(** C3.  The run on a link whose text sits one level down, inside an
    emphasis: the parent of the text node is the emphasis, the guard on
    [parent.type] does not fire, and a link is created inside the link. *)
Theorem link_descendant_is_rewritten :
  run (Parent Paragraph
         [Link "https://example.org" None
               [Parent Emphasis [Text (Some "[3]")]]])
  = Ok (Parent Paragraph
          [Link "https://example.org" None
                [Parent Emphasis
                        [Link "#ref-3" None [Text (Some "[3]")]]]],
        [Visit (Text (Some "[3]")); Scan (Some "[3]")]).
Proof. reflexivity. Qed.

(** ** Traces *)

Lemma flat_map_flat_map {A B C : Type} (f : A -> list B) (g : B -> list C)
      (l : list A) :
  flat_map g (flat_map f l) = flat_map (fun x => flat_map g (f x)) l.
Proof.
  induction l as [|a l IH]; simpl; [reflexivity|].
  rewrite flat_map_app, IH. reflexivity.
Qed.

Lemma flat_map_ext_Forall {A B : Type} (f g : A -> list B) (l : list A) :
  Forall (fun x => f x = g x) l -> flat_map f l = flat_map g l.
Proof.
  induction 1 as [|a l Ha Hl IH]; simpl; [reflexivity|].
  rewrite Ha, IH. reflexivity.
Qed.

Lemma visited_below (n : Node) :
  is_text n = false -> visited (trace_below n) = text_nodes n.
Proof.
  induction n as [v|u t cs IH|k cs IH|k v] using Node_tree_ind;
    intros Ht; try discriminate; try reflexivity.
  - cbn [trace_below text_nodes]. unfold visited. rewrite flat_map_flat_map.
    apply flat_map_ext_Forall. eapply Forall_impl; [|exact IH].
    intros c Hc. unfold child_events. destruct (is_text c) eqn:Hct.
    + destruct c; try discriminate. reflexivity.
    + exact (Hc Hct).
  - cbn [trace_below text_nodes]. unfold visited. rewrite flat_map_flat_map.
    apply flat_map_ext_Forall. eapply Forall_impl; [|exact IH].
    intros c Hc. unfold child_events. destruct (is_text c) eqn:Hct.
    + destruct c; try discriminate. reflexivity.
    + exact (Hc Hct).
Qed.

Lemma scanned_below (n : Node) :
  scanned (trace_below n) = map value (scan_targets n).
Proof.
  induction n as [v|u t cs IH|k cs IH|k v] using Node_tree_ind;
    try reflexivity.
  - cbn [trace_below scan_targets]. unfold scanned.
    rewrite flat_map_flat_map, flat_map_concat_map, (flat_map_concat_map _ cs).
    rewrite concat_map, map_map. f_equal.
    apply map_ext_Forall. eapply Forall_impl; [|exact IH].
    intros c Hc. unfold child_events. destruct (is_text c); [reflexivity|].
    exact Hc.
  - cbn [trace_below scan_targets]. unfold scanned.
    rewrite flat_map_flat_map, flat_map_concat_map, (flat_map_concat_map _ cs).
    rewrite concat_map, map_map. f_equal.
    apply map_ext_Forall. eapply Forall_impl; [|exact IH].
    intros c Hc. unfold child_events. destruct (is_text c); [reflexivity|].
    exact Hc.
Qed.

(** C6.  In a run the callback is entered on the text nodes of the
    original tree, each once, in document order, and on nothing else: no
    node spliced in by the run is entered or scanned, and the sibling that
    followed a replaced node is entered next.  The scan for citations is
    started once on each of those nodes whose parent is not a link, and on
    no other value. *)
Theorem each_text_node_visited_once (tree : Node) :
  exists tree' trace,
    run tree = Ok (tree', trace) /\
    visited trace = text_nodes tree /\
    scanned trace = map value (scan_targets tree).
Proof.
  exists (rewritten tree), (trace_of tree).
  split; [apply run_spec|].
  unfold trace_of. destruct (is_text tree) eqn:Ht.
  - destruct tree; try discriminate. split; reflexivity.
  - split; [apply visited_below; assumption | apply scanned_below].
Qed.

(** ** Idempotence *)

Lemma is_text_rewritten (n : Node) : is_text (rewritten n) = is_text n.
Proof. destruct n; reflexivity. Qed.

Lemma stable_text (g : string) : no_citation g -> stable (Text (Some g)).
Proof.
  intros Hno. unfold stable, child_image. cbn [is_text].
  apply (expand_some g []). constructor. intros i k _. apply Hno.
Qed.

Lemma stable_citation_link (s : string) (m : nat * nat) :
  stable (citation_link s m).
Proof. reflexivity. Qed.

Lemma stable_text_if_nonempty (g : string) :
  no_citation g -> Forall stable (text_if_nonempty g).
Proof.
  intros Hno. unfold text_if_nonempty.
  destruct (g =? "")%string; constructor; [|constructor].
  apply stable_text. assumption.
Qed.

Lemma stable_replacement (s : string) (p : nat) (ms : list (nat * nat)) :
  matches_from s p ms -> Forall stable (replacement_from s p ms).
Proof.
  induction 1 as [p Hnone | p i k ms Hle Hc Hleft Hrest IH].
  - apply stable_text_if_nonempty. intros j k' Hc.
    apply citation_at_substring in Hc. destruct Hc as [Hc _].
    apply (Hnone (p + j) k'); [lia | assumption].
  - cbn [replacement_from fst snd]. apply Forall_app. split.
    + apply stable_text_if_nonempty. intros j k' Hcj.
      apply citation_at_substring in Hcj. destruct Hcj as [Hcj Hb].
      apply (Hleft (p + j) k'); [lia | assumption].
    + constructor; [apply stable_citation_link | assumption].
Qed.

Lemma stable_expand (v : option string) : Forall stable (expand (Text v)).
Proof.
  destruct v as [s|].
  - destruct (matches_from_total s 0) as [ms Hms].
    rewrite (expand_some s ms Hms). destruct ms as [|m ms].
    + constructor; [|constructor].
      apply stable_text. apply no_citation_iff.
      apply matches_from_iff. assumption.
    + apply stable_replacement. assumption.
  - constructor; [reflexivity | constructor].
Qed.

Lemma flat_map_stable (l : list Node) :
  Forall stable l -> flat_map (child_image false rewritten) l = l.
Proof.
  induction 1 as [|n l Hn Hl IH]; simpl; [reflexivity|].
  rewrite Hn, IH. reflexivity.
Qed.

Lemma rewritten_idempotent (tree : Node) :
  rewritten (rewritten tree) = rewritten tree.
Proof.
  induction tree as [v|u t cs IH|k cs IH|k v] using Node_tree_ind;
    try reflexivity.
  - cbn [rewritten]. f_equal. rewrite flat_map_flat_map.
    apply flat_map_ext_Forall. eapply Forall_impl; [|exact IH].
    intros c Hc. unfold child_image at 2. destruct (is_text c) eqn:Ht.
    + simpl. unfold child_image. rewrite Ht. reflexivity.
    + simpl. unfold child_image. rewrite is_text_rewritten, Ht, Hc.
      reflexivity.
  - cbn [rewritten]. f_equal. rewrite flat_map_flat_map.
    apply flat_map_ext_Forall. eapply Forall_impl; [|exact IH].
    intros c Hc. unfold child_image at 2. destruct (is_text c) eqn:Ht.
    + destruct c as [v| | |]; try discriminate.
      apply flat_map_stable, stable_expand.
    + simpl. unfold child_image. rewrite is_text_rewritten, Ht, Hc.
      reflexivity.
Qed.

(** C7.  Running the plugin on its own output changes nothing: two runs
    in a row give what one run gives. *)
Theorem remarkLinkCitations_idempotent (tree : Node) :
  (once <- remarkLinkCitations tree ;; remarkLinkCitations once)
  = remarkLinkCitations tree.
Proof.
  rewrite remarkLinkCitations_spec. cbn [bind].
  rewrite remarkLinkCitations_spec, rewritten_idempotent. reflexivity.
Qed.

(** ** No exception *)

Lemma visitor_total (node : Node) (index : option nat) (parent : option Node) :
  exists out, visitor node index parent = Ok out.
Proof.
  destruct parent as [p|]; [|destruct index; eexists; reflexivity].
  destruct index as [i|]; [|eexists; reflexivity].
  destruct (children p) as [cs|] eqn:Hcs;
    [|unfold visitor; rewrite Hcs; eexists; reflexivity].
  destruct (is_link p) eqn:Hl;
    [unfold visitor; rewrite Hcs, Hl; eexists; reflexivity|].
  destruct (value node) as [s|] eqn:Hv.
  - destruct (matches_from_total s 0) as [ms Hms].
    rewrite (visitor_scans node p s ms cs i Hv Hms Hcs Hl).
    destruct ms; eexists; reflexivity.
  - rewrite (visitor_missing_value node p cs i Hv Hcs Hl).
    eexists; reflexivity.
Qed.

(** C8.  Neither the run nor the callback ever throws.  Without a parent,
    without an index, or under a parent that has no child sequence, the
    callback returns at once and hands the parent back as it is; a text
    node without a value is scanned as the word the coercion yields, no
    citation is found, and the parent is handed back as it is; a tree
    that is a lone text node comes back unchanged. *)
Theorem never_raises :
  (forall tree, exists tree', remarkLinkCitations tree = Ok tree') /\
  (forall node index parent, exists out, visitor node index parent = Ok out) /\
  (forall node index,
      visitor node index None = Ok (None, ReturnUndefined, [])) /\
  (forall node parent,
      visitor node None parent = Ok (parent, ReturnUndefined, [])) /\
  (forall node index v,
      visitor node index (Some (Text v))
      = Ok (Some (Text v), ReturnUndefined, [])) /\
  (forall node index k v,
      visitor node index (Some (Leaf k v))
      = Ok (Some (Leaf k v), ReturnUndefined, [])) /\
  (forall index parent,
      exists r events,
        visitor (Text None) index parent = Ok (parent, r, events) /\
        (forall n, r <> ReturnIndex n)) /\
  (forall v, remarkLinkCitations (Text v) = Ok (Text v)) /\
  (forall k before after,
      exists before' after',
        remarkLinkCitations (Parent k (before ++ Text None :: after))
        = Ok (Parent k (before' ++ Text None :: after'))).
Proof.
  split; [|split; [|split; [|split; [|split; [|split; [|split; [|split]]]]]]].
  - intros tree. exists (rewritten tree). apply remarkLinkCitations_spec.
  - apply visitor_total.
  - intros node [i|]; reflexivity.
  - intros node [p|]; reflexivity.
  - intros node [i|] v; reflexivity.
  - intros node [i|] k v; reflexivity.
  - intros index parent.
    destruct parent as [p|];
      [|exists ReturnUndefined, []; destruct index; split;
        [reflexivity|discriminate|reflexivity|discriminate]].
    destruct index as [i|];
      [|exists ReturnUndefined, []; split; [reflexivity|discriminate]].
    destruct (children p) as [cs|] eqn:Hcs.
    + destruct (is_link p) eqn:Hl.
      * exists ReturnSKIP, []. unfold visitor. rewrite Hcs, Hl.
        split; [reflexivity|discriminate].
      * rewrite (visitor_missing_value (Text None) p cs i eq_refl Hcs Hl).
        do 2 eexists. split; [reflexivity|discriminate].
    + exists ReturnUndefined, []. unfold visitor. rewrite Hcs.
      split; [reflexivity|discriminate].
  - intros v. reflexivity.
  - intros k before after.
    exists (flat_map (child_image false rewritten) before),
           (flat_map (child_image false rewritten) after).
    rewrite remarkLinkCitations_spec, rewritten_parent_app. reflexivity.
Qed.

(** ** Frame *)

Lemma created_text_if_nonempty (t : string) :
  Forall created (text_if_nonempty t).
Proof.
  unfold text_if_nonempty. destruct (t =? "")%string; constructor.
  - left. exists t. reflexivity.
  - constructor.
Qed.

Lemma created_replacement (s : string) (ms : list (nat * nat)) (p : nat) :
  Forall created (replacement_from s p ms).
Proof.
  revert p. induction ms as [|m ms IH]; intros p; cbn [replacement_from].
  - apply created_text_if_nonempty.
  - apply Forall_app. split; [apply created_text_if_nonempty|].
    constructor; [|apply IH].
    right. unfold citation_link. eauto.
Qed.

Lemma spliced_expand (v : option string) :
  spliced false (Text v) (expand (Text v)).
Proof.
  destruct v as [s|].
  - destruct (matches_from_total s 0) as [ms Hms].
    rewrite (expand_some s ms Hms). destruct ms as [|m ms].
    + apply spliced_kept. constructor.
    + apply (spliced_replaced s (m :: ms));
        [discriminate | assumption | reflexivity | apply created_replacement].
  - apply spliced_kept. constructor.
Qed.

Lemma kept_rewritten (tree : Node) : kept tree (rewritten tree).
Proof.
  induction tree as [v|u t cs IH|k cs IH|k v] using Node_tree_ind;
    try (constructor; fail).
  - cbn [rewritten]. rewrite flat_map_concat_map. constructor.
    induction IH as [|c r Hc Hr IHr]; simpl; constructor; [|assumption].
    unfold child_image. destruct (is_text c) eqn:Ht.
    + destruct c; try discriminate. apply spliced_kept. constructor.
    + apply spliced_kept. assumption.
  - cbn [rewritten]. rewrite flat_map_concat_map. constructor.
    induction IH as [|c r Hc Hr IHr]; simpl; constructor; [|assumption].
    unfold child_image. destruct (is_text c) eqn:Ht.
    + destruct c; try discriminate. apply spliced_expand.
    + apply spliced_kept. assumption.
Qed.

(** What the frame leaves no room for: a text node is replaced only
    under the two conditions, and only by the replacement sequence of its
    own value. *)
Lemma spliced_text_inv (under_link : bool) (v : option string)
      (repl : list Node) :
  spliced under_link (Text v) repl ->
  repl = [Text v] \/
  (under_link = false /\
   exists s ms,
     v = Some s /\ ms <> [] /\ matches_from s 0 ms /\
     repl = spec_replacement s ms).
Proof.
  intros H. inversion H as [ul c c' Hk|s ms r Hne Hms Er Hcr]; subst.
  - left. inversion Hk. reflexivity.
  - right. split; [reflexivity|]. exists s, ms. auto.
Qed.

Lemma spliced_under_link (v : option string) (repl : list Node) :
  spliced true (Text v) repl -> repl = [Text v].
Proof.
  intros H. apply spliced_text_inv in H.
  destruct H as [H|(H & _)]; [assumption | discriminate].
Qed.

Lemma spliced_without_citation (under_link : bool) (s : string)
      (repl : list Node) :
  no_citation s ->
  spliced under_link (Text (Some s)) repl -> repl = [Text (Some s)].
Proof.
  intros Hno H. apply spliced_text_inv in H.
  destruct H as [H|(_ & s' & ms & [= <-] & Hne & Hms & _)]; [assumption|].
  exfalso. apply Hne.
  apply no_citation_iff in Hno. apply matches_from_iff in Hms. congruence.
Qed.

Lemma spliced_missing_value (under_link : bool) (repl : list Node) :
  spliced under_link (Text None) repl -> repl = [Text None].
Proof.
  intros H. apply spliced_text_inv in H.
  destruct H as [H|(_ & s & ms & E & _)]; [assumption | discriminate].
Qed.

(** Two text siblings cannot change places. *)
Example frame_excludes_swap :
  ~ kept (Parent Paragraph [Text (Some "a"); Text (Some "b")])
         (Parent Paragraph [Text (Some "b"); Text (Some "a")]).
Proof.
  intros H. inversion H as [| | |k cs css HF Ek Ec]; subst.
  inversion HF as [|c1 l1 r1 rs1 H1 HF1]; subst.
  inversion HF1 as [|c2 l2 r2 rs2 H2 HF2]; subst.
  inversion HF2; subst.
  apply spliced_without_citation in H1;
    [|apply no_citation_iff; reflexivity].
  subst l1. discriminate.
Qed.

(** A text node without citation cannot become a link. *)
Example frame_excludes_foreign_link :
  ~ kept (Parent Paragraph [Text (Some "plain")])
         (Parent Paragraph [Link "http://other.example" None
                                 [Text (Some "plain")]]).
Proof.
  intros H. inversion H as [| | |k cs css HF Ek Ec]; subst.
  inversion HF as [|c1 l1 r1 rs1 H1 HF1]; subst.
  inversion HF1; subst.
  apply spliced_without_citation in H1;
    [|apply no_citation_iff; reflexivity].
  subst l1. discriminate.
Qed.

(** A text child of a link cannot become a link, citation or not. *)
Example frame_excludes_link_in_link :
  ~ kept (Link "https://example.org" None [Text (Some "[3]")])
         (Link "https://example.org" None [cite "3"]).
Proof.
  intros H. inversion H as [| |u t cs css HF Eu Ec|]; subst.
  inversion HF as [|c1 l1 r1 rs1 H1 HF1]; subst.
  inversion HF1; subst.
  apply spliced_under_link in H1. subst l1. discriminate.
Qed.

(** C10.  A run only splices.  Every node of the input is still there
    afterwards with its kind and its fields, its children in their former
    order, except text nodes that hold a citation and whose parent is not
    a link: each of these may have been replaced, where it stood, by the
    replacement sequence of its value, whose nodes are plain text nodes
    or links with one text child.  A text node under a link, one without
    citation and one without value keep their place and their value. *)
Theorem run_only_splices (tree : Node) :
  exists tree', remarkLinkCitations tree = Ok tree' /\ kept tree tree'.
Proof.
  exists (rewritten tree).
  split; [apply remarkLinkCitations_spec | apply kept_rewritten].
Qed.

(** ** The renderer's scan *)

Example extractReferences_example :
  Renderer.extractReferences "b [10], a [2][10] and [02] or [x]"
  = Ok ["2"; "02"; "10"].
Proof. reflexivity. Qed.

(** References at or above 2^53 are ordered by their Numbers: the two
    long ones are the same Number and keep their order. *)
Example sort_example :
  Renderer.sort ["9007199254740993"; "9007199254740992"; "10"; "9"; "010"]
  = ["9"; "10"; "010"; "9007199254740993"; "9007199254740992"].
Proof. vm_compute. reflexivity. Qed.

Example anchor_ids_example :
  Renderer.anchor_ids "see [12] and [3]" = Ok ["ref-3"; "ref-12"].
Proof. reflexivity. Qed.

Lemma In_set_add (x y : string) (l : list string) :
  In x (Renderer.set_add y l) <-> x = y \/ In x l.
Proof.
  unfold Renderer.set_add. destruct (existsb (String.eqb y) l) eqn:E.
  - split; [auto|]. intros [->|H]; [|assumption].
    apply existsb_exists in E. destruct E as (z & Hz & Hyz).
    apply String.eqb_eq in Hyz. subst. assumption.
  - rewrite in_app_iff. simpl. intuition congruence.
Qed.

Lemma In_fold_set_add (s : string) (ms : list (nat * nat)) (acc : list string)
      (x : string) :
  In x (fold_left (fun a m => Renderer.set_add (digits_of s m) a) ms acc)
  <-> In x acc \/ In x (map (digits_of s) ms).
Proof.
  revert acc. induction ms as [|m ms IH]; intros acc; simpl.
  - tauto.
  - rewrite IH, In_set_add. intuition congruence.
Qed.

Lemma In_insert (x y : string) (l : list string) :
  In x (Renderer.insert y l) <-> x = y \/ In x l.
Proof.
  induction l as [|z l IH]; simpl.
  - intuition congruence.
  - destruct (Renderer.not_after y z); simpl.
    + intuition congruence.
    + rewrite IH. intuition congruence.
Qed.

Lemma In_sort (x : string) (l : list string) :
  In x (Renderer.sort l) <-> In x l.
Proof.
  unfold Renderer.sort. induction l as [|y l IH]; simpl; [tauto|].
  rewrite In_insert, IH. intuition congruence.
Qed.

Lemma extract_loop_spec (s : string) (p : nat) (ms : list (nat * nat)) :
  matches_from s p ms -> p <= String.length s ->
  forall fuel references,
    List.length ms < fuel ->
    Renderer.extract_loop fuel s p references
    = Ok (fold_left (fun a m => Renderer.set_add (digits_of s m) a)
                    ms references).
Proof.
  induction 1 as [p Hnone | p i k ms Hle Hc Hleft Hrest IH];
    intros Hp fuel references Hfuel.
  - destruct fuel as [|fuel]; [simpl in Hfuel; lia|].
    cbn [Renderer.extract_loop].
    pose proof (proj2 (exec_none s p Hp) Hnone) as He.
    destruct (Js.exec s p) as [o p']. simpl in He. subst o. reflexivity.
  - destruct fuel as [|fuel]; [simpl in Hfuel; lia|].
    cbn [Renderer.extract_loop].
    pose proof (citation_at_bound _ _ _ Hc) as Hb.
    assert (He : Js.exec s p
                 = (Some (Js.mkMatch i (substring i (k + 2) s)
                                     (substring (i + 1) k s)),
                    i + (k + 2))).
    { apply exec_some. exists i, k. auto. }
    rewrite He. cbn [Js.group1].
    rewrite IH by (simpl in Hfuel; lia). reflexivity.
Qed.

Lemma matches_from_In (s : string) (p : nat) (ms : list (nat * nat))
      (m : nat * nat) :
  matches_from s p ms -> In m ms -> citation_at s (fst m) (snd m).
Proof.
  induction 1 as [p Hnone | p i k ms Hle Hc Hleft Hrest IH]; simpl.
  - contradiction.
  - intros [<-|Hin]; [assumption | apply IH; assumption].
Qed.

(** The links among the children of a rewritten paragraph. *)
Lemma links_of_expand (s : string) (ms : list (nat * nat)) (n : Node) :
  matches_from s 0 ms ->
  (In n (expand (Text (Some s))) /\ is_link n = true
   <-> In n (map (citation_link s) ms)).
Proof.
  intros Hms. rewrite (expand_some s ms Hms).
  rewrite <- filter_In. destruct ms as [|m ms].
  - simpl. tauto.
  - unfold spec_replacement. rewrite links_of_replacement. tauto.
Qed.

(** C9.  For every string [s] the renderer's scan succeeds, the plugin
    run on a paragraph holding [s] succeeds, and the two agree: a digit
    string [n] is among the references extracted by the renderer exactly
    when the plugin has emitted a link to [#ref-n]; the renderer gives the
    anchor of each reference the id [ref-n]; and every link the plugin
    emits targets [#ref-n] for digits [n] that stand between brackets in
    [s] and that the renderer has extracted. *)
Theorem link_targets_match_anchor_ids (s : string) :
  exists refs kids,
    Renderer.extractReferences s = Ok refs /\
    Renderer.anchor_ids s = Ok (map (fun n => ("ref-" ++ n)%string) refs) /\
    remarkLinkCitations (Parent Paragraph [Text (Some s)])
    = Ok (Parent Paragraph kids) /\
    (forall n,
        In n refs <-> exists t c, In (Link ("#ref-" ++ n)%string t c) kids) /\
    (forall u t c,
        In (Link u t c) kids ->
        exists i k,
          citation_at s i k /\
          u = ("#ref-" ++ substring (i + 1) k s)%string /\
          In (substring (i + 1) k s) refs /\
          In ("ref-" ++ substring (i + 1) k s)%string
             (map (fun n => ("ref-" ++ n)%string) refs)).
Proof.
  destruct (matches_from_total s 0) as [ms Hms].
  pose proof (matches_from_bounds s 0 ms Hms (Nat.le_0_l _)) as [_ Hlen].
  set (refs := Renderer.sort
                 (fold_left (fun a m => Renderer.set_add (digits_of s m) a)
                            ms [])).
  assert (Hrefs : forall n, In n refs <-> In n (map (digits_of s) ms)).
  { intros n. unfold refs. rewrite In_sort, In_fold_set_add. simpl. tauto. }
  assert (Hextract : Renderer.extractReferences s = Ok refs).
  { unfold Renderer.extractReferences.
    rewrite (extract_loop_spec s 0 ms Hms (Nat.le_0_l _)) by lia.
    reflexivity. }
  exists refs, (expand (Text (Some s))).
  split; [exact Hextract|].
  split; [unfold Renderer.anchor_ids; rewrite Hextract; reflexivity|].
  split.
  { rewrite remarkLinkCitations_spec. cbn [rewritten flat_map].
    unfold child_image. cbn [is_text]. rewrite app_nil_r. reflexivity. }
  split.
  - intros n. rewrite Hrefs. split.
    + intros Hin. apply in_map_iff in Hin. destruct Hin as (m & <- & Hm).
      exists None, [Text (Some (substring (fst m) (snd m + 2) s))].
      apply (links_of_expand s ms _ Hms).
      apply in_map_iff. exists m. split; [reflexivity | assumption].
    + intros (t & c & Hin).
      assert (Hl : In (Link ("#ref-" ++ n) t c) (map (citation_link s) ms))
        by (apply (links_of_expand s ms _ Hms); split; [assumption | reflexivity]).
      apply in_map_iff in Hl. destruct Hl as (m & Hm & Hin').
      apply in_map_iff. exists m. split; [|assumption].
      unfold citation_link in Hm. injection Hm as Hu _ _. exact Hu.
  - intros u t c Hin.
    assert (Hl : In (Link u t c) (map (citation_link s) ms))
      by (apply (links_of_expand s ms _ Hms); split; [assumption | reflexivity]).
    apply in_map_iff in Hl. destruct Hl as ([i k] & Hm & Hin').
    exists i, k.
    assert (Hr : In (substring (i + 1) k s) refs).
    { apply Hrefs. apply in_map_iff. exists (i, k). auto. }
    split; [apply (matches_from_In s 0 ms (i, k) Hms Hin')|].
    split; [unfold citation_link in Hm; injection Hm as Hu _ _;
            symmetry; exact Hu|].
    split; [exact Hr|].
    apply in_map_iff. eexists. split; [reflexivity | exact Hr].
Qed.

(** * Further properties of the plugin *)

(** X1.  A run keeps the text of the document: the values of the tree
    after the run, concatenated in document order, are the values of the
    tree before the run. *)
Theorem run_preserves_text_content (tree : Node) :
  exists tree',
    remarkLinkCitations tree = Ok tree' /\
    text_content tree' = text_content tree.
Proof.
  exists (rewritten tree).
  split; [apply remarkLinkCitations_spec | apply rewritten_text_content].
Qed.

Lemma text_if_nonempty_cases (t : string) :
  (t = "" /\ text_if_nonempty t = []) \/
  (t <> "" /\ text_if_nonempty t = [Text (Some t)]).
Proof.
  unfold text_if_nonempty. destruct (String.eqb_spec t ""); auto.
Qed.

Lemma no_adjacent_texts_gap (t : string) (l : Node) (r : list Node) :
  is_text l = false ->
  no_adjacent_texts r ->
  no_adjacent_texts (text_if_nonempty t ++ l :: r).
Proof.
  intros Hl Hr.
  destruct (text_if_nonempty_cases t) as [[_ ->]|[_ ->]]; cbn [app].
  - destruct r; simpl in *; try rewrite Hl; auto.
  - simpl. split; [exact Hl|]. destruct r; simpl in *; try rewrite Hl; auto.
Qed.

Lemma replacement_no_adjacent_texts (s : string) (ms : list (nat * nat)) (p : nat) :
  no_adjacent_texts (replacement_from s p ms).
Proof.
  revert p. induction ms as [|m ms IH]; intros p; cbn [replacement_from].
  - destruct (text_if_nonempty_cases
                (substring p (String.length s - p) s)) as [[_ ->]|[_ ->]];
      simpl; auto.
  - apply no_adjacent_texts_gap; [reflexivity | apply IH].
Qed.

Lemma replacement_no_empty_text (s : string) (ms : list (nat * nat)) (p : nat) :
  matches_from s p ms ->
  ~ In (Text (Some "")) (replacement_from s p ms).
Proof.
  assert (Hgap : forall t, ~ In (Text (Some "")) (text_if_nonempty t)).
  { intros t. destruct (text_if_nonempty_cases t) as [[_ ->]|[Hne ->]]; simpl.
    - tauto.
    - intros [[= E]|[]]. congruence. }
  induction 1 as [p Hnone | p i k ms Hle Hc Hleft Hrest IH];
    cbn [replacement_from fst snd].
  - apply Hgap.
  - rewrite in_app_iff. simpl. intros [H|[H|H]].
    + exact (Hgap _ H).
    + discriminate.
    + exact (IH H).
Qed.

Lemma replacement_length (s : string) (ms : list (nat * nat)) (p : nat) :
  List.length ms <= List.length (replacement_from s p ms)
  <= 2 * List.length ms + 1.
Proof.
  revert p. induction ms as [|m ms IH]; intros p; cbn [replacement_from].
  - destruct (text_if_nonempty_cases
                (substring p (String.length s - p) s)) as [[_ ->]|[_ ->]];
      simpl; lia.
  - specialize (IH (fst m + (snd m + 2))).
    rewrite length_app.
    destruct (text_if_nonempty_cases
                (substring p (fst m - p) s)) as [[_ ->]|[_ ->]];
      simpl in *; lia.
Qed.

(** X2.  Whenever the callback rewrites a text node, the sequence it
    splices in holds no empty text node and no two text nodes side by
    side; it holds exactly one link per citation of the value, and
    between one and [2 * citations + 1] nodes in all. *)
Theorem replacement_is_tight
        (v : option string) (index : option nat) (parent parent' : option Node)
        (n : nat) (events : list Event) :
  visitor (Text v) index parent = Ok (parent', ReturnIndex n, events) ->
  exists s p cs i repl,
    v = Some s /\ index = Some i /\ parent = Some p /\
    children p = Some cs /\
    parent' = Some (with_children p (Js.splice cs i 1 repl)) /\
    ~ In (Text (Some "")) repl /\
    no_adjacent_texts repl /\
    List.length (filter is_link repl) = List.length (all_matches s) /\
    1 <= List.length (all_matches s) /\
    List.length (all_matches s) <= List.length repl
    <= 2 * List.length (all_matches s) + 1.
Proof.
  intros H.
  destruct (visitor_rewrites _ _ _ _ _ _ H)
    as (s & ms & p & cs & i & -> & -> & -> & Hcs & _ & Hms & Hne & -> & ->).
  exists s, p, cs, i, (spec_replacement s ms).
  pose proof (proj1 (matches_from_iff s ms) Hms) as Hall. rewrite Hall.
  unfold spec_replacement.
  repeat (split; [solve [auto]|]).
  split; [apply replacement_no_empty_text; assumption|].
  split; [apply replacement_no_adjacent_texts|].
  split; [rewrite links_of_replacement; apply length_map|].
  split; [destruct ms; [contradiction | simpl; lia]|].
  apply replacement_length.
Qed.

Lemma replacement_is_tight_witness :
  exists s p cs i repl,
    Some "[1][2] and [3]" = Some s /\ Some 0 = Some i /\
    Some (Parent Paragraph [Text (Some "[1][2] and [3]")]) = Some p /\
    children p = Some cs /\
    Some (Parent Paragraph [cite "1"; cite "2"; Text (Some " and "); cite "3"])
    = Some (with_children p (Js.splice cs i 1 repl)) /\
    ~ In (Text (Some "")) repl /\
    no_adjacent_texts repl /\
    List.length (filter is_link repl) = List.length (all_matches s) /\
    1 <= List.length (all_matches s) /\
    List.length (all_matches s) <= List.length repl
    <= 2 * List.length (all_matches s) + 1.
Proof.
  exact (replacement_is_tight
           (Some "[1][2] and [3]") (Some 0)
           (Some (Parent Paragraph [Text (Some "[1][2] and [3]")]))
           (Some (Parent Paragraph
                    [cite "1"; cite "2"; Text (Some " and "); cite "3"]))
           4 [Scan (Some "[1][2] and [3]")] eq_refl).
Defined.

(** ** Counting links *)

Lemma links_in_app (a b : list Node) :
  links_in (a ++ b) = links_in a + links_in b.
Proof.
  unfold links_in. induction a as [|x a IH]; simpl; [reflexivity|].
  rewrite IH. lia.
Qed.

Lemma links_in_cons (c : Node) (r : list Node) :
  links_in (c :: r) = count_links c + links_in r.
Proof. reflexivity. Qed.

Lemma links_in_text_if_nonempty (t : string) : links_in (text_if_nonempty t) = 0.
Proof.
  destruct (text_if_nonempty_cases t) as [[_ ->]|[_ ->]]; reflexivity.
Qed.

Lemma links_in_replacement (s : string) (ms : list (nat * nat)) (p : nat) :
  links_in (replacement_from s p ms) = List.length ms.
Proof.
  revert p. induction ms as [|m ms IH]; intros p; cbn [replacement_from].
  - apply links_in_text_if_nonempty.
  - rewrite links_in_app, links_in_text_if_nonempty.
    rewrite links_in_cons, IH. reflexivity.
Qed.

Lemma links_in_expand (v : option string) :
  links_in (expand (Text v)) = citations_in v.
Proof.
  destruct v as [s|]; [|reflexivity].
  pose proof (proj2 (matches_from_iff s (all_matches s)) eq_refl) as Hms.
  rewrite (expand_some s _ Hms). simpl.
  destruct (all_matches s) as [|m ms] eqn:E; [reflexivity|].
  unfold spec_replacement. rewrite links_in_replacement. reflexivity.
Qed.

Lemma list_sum_flat_map {A : Type} (f : A -> list nat) (l : list A) :
  list_sum (flat_map f l) = list_sum (map (fun x => list_sum (f x)) l).
Proof.
  induction l as [|a l IH]; simpl; [reflexivity|].
  rewrite list_sum_app, IH. reflexivity.
Qed.

Lemma count_links_rewritten (tree : Node) :
  count_links (rewritten tree) = count_links tree + citations_count tree.
Proof.
  unfold citations_count.
  induction tree as [v|u t cs IH|k cs IH|k v] using Node_tree_ind;
    try reflexivity.
  - cbn [rewritten count_links scan_targets]. simpl. f_equal.
    change (fold_right (fun c acc => count_links c + acc) 0 ?l)
      with (links_in l).
    induction IH as [|c r Hc Hr IHr]; [reflexivity|].
    cbn [flat_map].
    rewrite links_in_app, map_app, list_sum_app, IHr, links_in_cons.
    unfold child_image. destruct (is_text c) eqn:Ht.
    + destruct c; try discriminate. simpl. lia.
    + rewrite links_in_cons, Hc. change (links_in []) with 0. lia.
  - cbn [rewritten count_links scan_targets].
    change (fold_right (fun c acc => count_links c + acc) 0 ?l)
      with (links_in l).
    induction IH as [|c r Hc Hr IHr]; [reflexivity|].
    cbn [flat_map].
    rewrite links_in_app, map_app, list_sum_app, IHr, links_in_cons.
    unfold child_image. destruct (is_text c) eqn:Ht.
    + destruct c as [v| | |]; try discriminate.
      rewrite links_in_expand. simpl. lia.
    + rewrite links_in_cons, Hc. change (links_in []) with 0. lia.
Qed.

(** X3.  A run adds one link node per citation it meets and removes
    none: the number of link nodes after the run is the number before
    plus the number of citations in the text nodes whose parent is not a
    link. *)
Theorem run_adds_one_link_per_citation (tree : Node) :
  exists tree',
    remarkLinkCitations tree = Ok tree' /\
    count_links tree' = count_links tree + citations_count tree.
Proof.
  exists (rewritten tree).
  split; [apply remarkLinkCitations_spec | apply count_links_rewritten].
Qed.

Lemma citations_in_zero (v : option string) :
  citations_in v = 0 <->
  match v with Some s => no_citation s | None => True end.
Proof.
  destruct v as [s|]; simpl; [|tauto].
  rewrite no_citation_iff. destruct (all_matches s); simpl; split;
    intros; try reflexivity; try discriminate.
Qed.

Lemma list_sum_zero (l : list nat) :
  list_sum l = 0 <-> Forall (fun x => x = 0) l.
Proof.
  induction l as [|a l IH]; simpl.
  - split; [constructor | reflexivity].
  - split.
    + intros H. constructor; [lia | apply IH; lia].
    + intros H. inversion H; subst. simpl. apply IH. assumption.
Qed.

Lemma rewritten_fixed (tree : Node) :
  citations_count tree = 0 -> rewritten tree = tree.
Proof.
  unfold citations_count.
  induction tree as [v|u t cs IH|k cs IH|k v] using Node_tree_ind;
    try reflexivity; intros Hz.
  - cbn [rewritten scan_targets] in *. f_equal.
    induction IH as [|c r Hc Hr IHr]; [reflexivity|].
    cbn [flat_map] in *. rewrite map_app, list_sum_app in Hz.
    rewrite IHr by lia. unfold child_image.
    destruct (is_text c) eqn:Ht; [reflexivity|].
    rewrite Hc by lia. reflexivity.
  - cbn [rewritten scan_targets] in *. f_equal.
    induction IH as [|c r Hc Hr IHr]; [reflexivity|].
    cbn [flat_map] in *. rewrite map_app, list_sum_app in Hz.
    rewrite IHr by lia. unfold child_image.
    destruct (is_text c) eqn:Ht.
    + destruct c as [v| | |]; try discriminate. simpl in Hz.
      assert (Hv : citations_in v = 0) by lia.
      destruct v as [s|]; [|reflexivity].
      apply citations_in_zero, no_citation_iff, matches_from_iff in Hv.
      rewrite (expand_some s [] Hv). reflexivity.
    + rewrite Hc by lia. reflexivity.
Qed.

(** X4.  A run hands the tree back unchanged exactly when no text node
    with a parent other than a link holds a citation. *)
Theorem run_is_identity_iff (tree : Node) :
  remarkLinkCitations tree = Ok tree <->
  Forall (fun n => match value n with
                   | Some s => no_citation s
                   | None => True
                   end)
         (scan_targets tree).
Proof.
  rewrite remarkLinkCitations_spec.
  assert (Hz : citations_count tree = 0 <->
               Forall (fun n => match value n with
                                | Some s => no_citation s
                                | None => True
                                end) (scan_targets tree)).
  { unfold citations_count. rewrite list_sum_zero, Forall_map.
    split; apply Forall_impl; intros n; apply citations_in_zero. }
  rewrite <- Hz. split.
  - intros [= E]. pose proof (count_links_rewritten tree) as Hc.
    rewrite E in Hc. lia.
  - intros H. rewrite (rewritten_fixed tree H). reflexivity.
Qed.

(** X5.  A text node that is a child of a link is never rewritten,
    wherever the link stands in the tree: after the run it is still a
    child of that link, unchanged, between the images of its former
    siblings. *)
Theorem link_text_children_untouched
        (ctx : Ctx) (u : string) (t : option string) (v : option string)
        (before after : list Node) :
  exists before' after',
    remarkLinkCitations (Link u t before) = Ok (Link u t before') /\
    remarkLinkCitations (Link u t after) = Ok (Link u t after') /\
    remarkLinkCitations (plug ctx (Link u t (before ++ Text v :: after)))
    = Ok (plug (rewritten_ctx ctx) (Link u t (before' ++ Text v :: after'))).
Proof.
  exists (flat_map (child_image true rewritten) before),
         (flat_map (child_image true rewritten) after).
  rewrite !remarkLinkCitations_spec.
  split; [reflexivity|]. split; [reflexivity|].
  rewrite rewritten_plug by reflexivity.
  cbn [rewritten]. rewrite flat_map_app. reflexivity.
Qed.

(** * The rest of the front end *)

(** ** String primitives *)

Section JsStringFacts.

Import JsString.

Lemma starts_with_app (pat r : string) : starts_with pat (pat ++ r) = true.
Proof.
  induction pat as [|a p IH]; simpl; [reflexivity|].
  rewrite Ascii.eqb_refl. exact IH.
Qed.

Lemma starts_with_first (c x : ascii) (p s : string) :
  x <> c -> starts_with (String c p) (String x s) = false.
Proof.
  intros H. simpl. destruct (Ascii.eqb_spec c x); [congruence | reflexivity].
Qed.

Lemma take_app (a r : string) : take (String.length a) (a ++ r) = a.
Proof. induction a as [|c a IH]; simpl; [destruct r; reflexivity | now rewrite IH]. Qed.

Lemma drop_app (a r : string) : drop (String.length a) (a ++ r) = r.
Proof. induction a as [|c a IH]; simpl; [destruct r; reflexivity | exact IH]. Qed.

Lemma take_drop (n : nat) (s : string) : (take n s ++ drop n s)%string = s.
Proof.
  revert s. induction n as [|n IH]; intros [|c s]; simpl; try reflexivity.
  now rewrite IH.
Qed.

Lemma length_drop (n : nat) (s : string) :
  String.length (drop n s) = String.length s - n.
Proof.
  revert s. induction n as [|n IH]; intros [|c s]; simpl; try reflexivity; auto.
Qed.

Lemma string_length_app (a b : string) :
  String.length (a ++ b)%string = String.length a + String.length b.
Proof. induction a as [|c a IH]; simpl; [reflexivity | now rewrite IH]. Qed.

Lemma remove_first_prefix (pat r : string) : remove_first pat (pat ++ r) = r.
Proof.
  destruct pat as [|a p]; [destruct r; reflexivity|].
  change ((String a p ++ r)%string) with (String a (p ++ r)).
  cbn [remove_first].
  replace (starts_with (String a p) (String a (p ++ r))) with true
    by (symmetry; apply (starts_with_app (String a p) r)).
  exact (drop_app (String a p) r).
Qed.

Lemma has_unit_app (c : ascii) (a b : string) :
  has_unit c (a ++ b) = has_unit c a || has_unit c b.
Proof.
  induction a as [|x a IH]; simpl; [reflexivity|].
  rewrite IH, orb_assoc. reflexivity.
Qed.

Lemma count_unit_app (c : ascii) (a b : string) :
  count_unit c (a ++ b) = count_unit c a + count_unit c b.
Proof.
  induction a as [|x a IH]; simpl; [reflexivity|]. rewrite IH. lia.
Qed.

Lemma count_unit_zero (c : ascii) (s : string) :
  has_unit c s = false -> count_unit c s = 0.
Proof.
  induction s as [|x s IH]; simpl; [reflexivity|].
  destruct (x =? c)%char; simpl; [discriminate | exact IH].
Qed.

(** The first occurrence of a pattern whose first unit does not occur
    before it. *)
Lemma find_after (c : ascii) (p a b : string) :
  has_unit c a = false ->
  find (String c p) (a ++ String c p ++ b) = Some (String.length a).
Proof.
  induction a as [|x a IH]; intros Ha.
  - change (("" ++ String c p ++ b)%string) with (String c (p ++ b)).
    cbn [find String.length].
    replace (starts_with (String c p) (String c (p ++ b))) with true
      by (symmetry; apply (starts_with_app (String c p) b)).
    reflexivity.
  - simpl in Ha. apply orb_false_elim in Ha. destruct Ha as [Hx Ha].
    change ((String x a ++ String c p ++ b)%string)
      with (String x (a ++ String c p ++ b)).
    cbn [find]. rewrite starts_with_first
      by (intros ->; rewrite Ascii.eqb_refl in Hx; discriminate).
    rewrite (IH Ha). reflexivity.
Qed.

Lemma find_absent (c : ascii) (p s : string) :
  has_unit c s = false -> find (String c p) s = None.
Proof.
  induction s as [|x s IH]; intros Hs; [reflexivity|].
  simpl in Hs. apply orb_false_elim in Hs. destruct Hs as [Hx Hs].
  cbn [find]. rewrite starts_with_first
    by (intros ->; rewrite Ascii.eqb_refl in Hx; discriminate).
  rewrite (IH Hs). reflexivity.
Qed.

Lemma find_bound (pat s : string) (i : nat) :
  find pat s = Some i -> i + String.length pat <= String.length s.
Proof.
  revert i. induction s as [|x s IH]; intros i; cbn [find].
  - destruct (starts_with pat "") eqn:E; [|discriminate].
    intros [= <-]. destruct pat; [simpl; lia | discriminate].
  - destruct (starts_with pat (String x s)) eqn:E.
    + intros [= <-]. clear IH. revert x s E.
      induction pat as [|a p IHp]; intros x s E; [simpl; lia|].
      simpl in E. apply andb_true_iff in E. destruct E as [_ E].
      destruct p as [|a' p']; [simpl; lia|].
      destruct s as [|y s]; [discriminate|].
      specialize (IHp y s E). simpl in *. lia.
    + destruct (find pat s) as [j|]; [|discriminate].
      intros [= <-]. specialize (IH j eq_refl). simpl. lia.
Qed.

(** Fuel beyond the length of the subject changes nothing. *)
Lemma split_fuel_enough (c : ascii) (p : string) (f f' : nat) (s : string) :
  String.length s <= f -> String.length s <= f' ->
  split_fuel f (String c p) s = split_fuel f' (String c p) s.
Proof.
  revert f' s. induction f as [|f IH]; intros f' s Hf Hf'.
  - destruct s; [|simpl in Hf; lia].
    destruct f'; reflexivity.
  - destruct f' as [|f'].
    + destruct s; [|simpl in Hf'; lia]. reflexivity.
    + cbn [split_fuel].
      destruct (find (String c p) s) as [i|] eqn:E; [|reflexivity].
      f_equal. pose proof (find_bound _ _ _ E) as Hb. simpl in Hb.
      apply IH; rewrite length_drop; simpl; lia.
Qed.

Lemma split_absent (c : ascii) (p s : string) :
  has_unit c s = false -> split (String c p) s = [s].
Proof.
  intros H. unfold split. destruct (String.length s); [reflexivity|].
  cbn [split_fuel]. rewrite (find_absent c p s H). reflexivity.
Qed.

Lemma split_cons (c : ascii) (p a b : string) :
  has_unit c a = false ->
  split (String c p) (a ++ String c p ++ b) = a :: split (String c p) b.
Proof.
  intros Ha. unfold split.
  rewrite !string_length_app.
  replace (String.length a + (String.length (String c p) + String.length b))
    with (S (String.length a + (String.length p + String.length b)))
    by (simpl; lia).
  cbn [split_fuel]. rewrite (find_after c p a b Ha).
  rewrite take_app. f_equal.
  replace (drop (String.length a + String.length (String c p))
                (a ++ String c p ++ b))
    with b.
  - apply split_fuel_enough; lia.
  - rewrite <- string_length_app, <- append_assoc. symmetry. apply drop_app.
Qed.

Lemma split_length_LF (s : string) :
  List.length (split LF s) = S (count_unit (ascii_of_nat 10) s).
Proof.
  unfold split.
  assert (H : forall f s, String.length s <= f ->
                          List.length (split_fuel f LF s)
                          = S (count_unit (ascii_of_nat 10) s)).
  { clear s. induction f as [|f IH]; intros s Hs.
    - destruct s; [reflexivity | simpl in Hs; lia].
    - cbn [split_fuel]. destruct (find LF s) as [i|] eqn:E.
      + pose proof (find_bound _ _ _ E) as Hb. simpl in Hb.
        cbn [List.length]. rewrite IH by (rewrite length_drop; simpl; lia).
        f_equal. clear IH Hs Hb f. revert i E.
        induction s as [|x s IHs]; intros i E; [discriminate|].
        cbn [find] in E. unfold LF in E at 1. cbn [starts_with] in E.
        destruct (Ascii.eqb_spec (ascii_of_nat 10) x) as [<-|Hx].
        * simpl in E. injection E as <-. simpl. reflexivity.
        * simpl in E. destruct (find LF s) as [j|] eqn:Ej; [|discriminate].
          injection E as <-. cbn [count_unit].
          destruct (Ascii.eqb_spec x (ascii_of_nat 10)); [congruence|].
          simpl. exact (IHs j eq_refl).
      + simpl. f_equal. clear IH Hs. induction s as [|x s IHs]; [reflexivity|].
        cbn [find] in E. unfold LF in E at 1. cbn [starts_with] in E.
        destruct (Ascii.eqb_spec (ascii_of_nat 10) x) as [<-|Hx];
          [discriminate|].
        simpl in E. destruct (find LF s); [discriminate|].
        cbn [count_unit]. destruct (Ascii.eqb_spec x (ascii_of_nat 10));
          [congruence|]. simpl. apply IHs. reflexivity. }
  apply H. lia.
Qed.

End JsStringFacts.

(** ** The decode panel *)

Section DecodeFacts.

Import JsString.
Import Decode.

Lemma split_not_found (c : ascii) (p s : string) :
  find (String c p) s = None -> split (String c p) s = [s].
Proof.
  intros H. unfold split. destruct (String.length s); [reflexivity|].
  cbn [split_fuel]. rewrite H. reflexivity.
Qed.

Lemma has_unit_join (c : ascii) (sep : string) (l : list string) :
  has_unit c sep = false ->
  Forall (fun x => has_unit c x = false) l ->
  has_unit c (join sep l) = false.
Proof.
  intros Hsep. induction 1 as [|x r Hx Hr IH]; [reflexivity|].
  cbn [join]. destruct r as [|y r]; [assumption|].
  rewrite !has_unit_app, Hx, Hsep, IH. reflexivity.
Qed.

Lemma split_join (c : ascii) (p : string) (l : list string) :
  l <> [] ->
  Forall (fun x => has_unit c x = false) l ->
  split (String c p) (join (String c p) l) = l.
Proof.
  intros Hne H. induction H as [|x r Hx Hr IH]; [contradiction|].
  cbn [join]. destruct r as [|y r].
  - apply split_absent. assumption.
  - rewrite (split_cons c p x _ Hx). f_equal. apply IH. discriminate.
Qed.

Lemma parse_needs_four_lines_aux (result : string) :
  match parseFormattedResult result with
  | Ok _ => 3 <= count_unit (ascii_of_nat 10) result
  | TypeError => count_unit (ascii_of_nat 10) result < 3
  | OutOfFuel => False
  end.
Proof.
  unfold parseFormattedResult.
  pose proof (split_length_LF result) as Hlen.
  destruct (split LF result) as [|l0 [|l1 [|l2 [|l3 rest]]]];
    simpl in *; lia.
Qed.

(** X6.  [parseFormattedResult] throws a TypeError exactly when the
    formatted result holds fewer than three line feeds, that is fewer than
    four lines; with three or more it returns a parsed code, whatever the
    lines hold. *)
Theorem parseFormattedResult_needs_four_lines (result : string) :
  (parseFormattedResult result = TypeError
   <-> count_unit (ascii_of_nat 10) result < 3) /\
  ((exists parsed, parseFormattedResult result = Ok parsed)
   <-> 3 <= count_unit (ascii_of_nat 10) result).
Proof.
  pose proof (parse_needs_four_lines_aux result) as H.
  destruct (parseFormattedResult result) as [parsed| |]; [| |contradiction].
  - split; split; intros H'; try discriminate; try lia; eauto.
  - split; split; intros H'; try assumption; try reflexivity; try lia.
    destruct H' as [? H']. discriminate.
Qed.

Lemma obj_update_fresh (o : Obj) (k v : string) :
  ~ In k (map fst o) -> obj_update o k v = o ++ [(k, v)].
Proof.
  induction o as [|[k' v'] o IH]; simpl; intros H; [reflexivity|].
  destruct (String.eqb_spec k' k) as [->|_]; [tauto|].
  rewrite IH by tauto. reflexivity.
Qed.

Lemma add_price_item (prices : Obj) (item : string * string) :
  clean_item item = true ->
  snd item <> "__proto__" ->
  ~ In (snd item) (map fst prices) ->
  add_price prices (price_item item) = prices ++ [(snd item, fst item)].
Proof.
  destruct item as [a l]. unfold clean_item, price_item. cbn [fst snd].
  intros Hc Hp Hfresh.
  repeat (apply andb_true_iff in Hc; destruct Hc as [Hc ?]).
  destruct (find " for " l) eqn:Hfind; [discriminate|].
  unfold add_price.
  rewrite (split_cons " " "for " a l) by (apply negb_true_iff; assumption).
  rewrite (split_not_found " " "for " l Hfind).
  cbn [nth nth_error key_of]. unfold obj_set.
  destruct (String.eqb_spec l "__proto__"); [contradiction|].
  apply obj_update_fresh. assumption.
Qed.

Lemma fold_add_price (items : list (string * string)) (prices : Obj) :
  Forall (fun p => clean_item p = true) items ->
  ~ In "__proto__" (map snd items) ->
  NoDup (map fst prices ++ map snd items) ->
  fold_left add_price (map price_item items) prices
  = prices ++ map (fun p => (snd p, fst p)) items.
Proof.
  revert prices. induction items as [|item items IH]; intros prices Hc Hp Hnd.
  - simpl. symmetry. apply app_nil_r.
  - inversion Hc as [|? ? Hitem Hrest]; subst. cbn [map fold_left].
    cbn [map] in Hp, Hnd.
    rewrite add_price_item; [|assumption|simpl in Hp; tauto|].
    + rewrite IH; [|assumption|simpl in Hp; tauto|].
      * rewrite <- app_assoc. reflexivity.
      * rewrite map_app. cbn [map fst]. rewrite <- app_assoc. exact Hnd.
    + apply NoDup_remove_2 in Hnd. rewrite in_app_iff in Hnd. tauto.
Qed.

Lemma clean_item_units (c : ascii) (items : list (string * string)) :
  c = ascii_of_nat 10 \/ c = ","%char ->
  Forall (fun p => clean_item p = true) items ->
  Forall (fun x => has_unit c x = false) (map price_item items).
Proof.
  intros Hc H. apply Forall_map. eapply Forall_impl; [|exact H].
  intros [a l]. unfold clean_item, price_item. cbn [fst snd]. intros Hi.
  repeat (apply andb_true_iff in Hi; destruct Hi as [Hi ?]).
  repeat match goal with
         | H : negb _ = true |- _ => apply negb_true_iff in H
         end.
  rewrite !has_unit_app.
  destruct Hc as [-> | ->];
    repeat match goal with
           | H : has_unit _ _ = false |- _ => rewrite H
           end; reflexivity.
Qed.

Lemma clean_rule_units (c : ascii) (rs : list string) :
  c = ascii_of_nat 10 \/ c = ","%char ->
  Forall (fun r => clean_rule r = true) rs ->
  Forall (fun x => has_unit c x = false) rs.
Proof.
  intros Hc H. eapply Forall_impl; [|exact H].
  intros r. unfold clean_rule. intros Hi.
  apply andb_true_iff in Hi. destruct Hi as [H1 H2].
  apply negb_true_iff in H1, H2. destruct Hc as [-> | ->]; assumption.
Qed.

Lemma prices_line_units (items : list (string * string)) :
  Forall (fun p => clean_item p = true) items ->
  has_unit (ascii_of_nat 10) (prices_line items) = false.
Proof.
  intros H. destruct items as [|i items]; [reflexivity|].
  unfold prices_line. apply has_unit_join; [reflexivity|].
  apply clean_item_units; auto.
Qed.

Lemma prices_line_specified (items : list (string * string)) :
  items <> [] ->
  Forall (fun p => clean_item p = true) items ->
  prices_line items <> "Price not specified".
Proof.
  intros Hne H E. destruct items as [|[a l] items]; [contradiction|].
  inversion H as [|? ? Hitem _]; subst.
  unfold clean_item in Hitem. cbn [fst snd] in Hitem.
  repeat (apply andb_true_iff in Hitem; destruct Hitem as [Hitem ?]).
  assert (Hfind : exists n, find " for " (prices_line ((a, l) :: items)) = Some n).
  { unfold prices_line. cbn [map join price_item fst snd].
    destruct (map price_item items) as [|y r].
    - exists (String.length a).
      apply (find_after " " "for " a l). apply negb_true_iff. assumption.
    - exists (String.length a). unfold price_item. cbn [fst snd].
      rewrite !append_assoc.
      apply (find_after " " "for " a _). apply negb_true_iff. assumption. }
  rewrite E in Hfind. destruct Hfind as [n Hn]. discriminate.
Qed.

(** X7.  Reading back what was written.  For a code and a description
    without line feed, price items and rules that are clean (no line feed
    or comma inside, no space in an amount, no [ for ] inside a location,
    locations distinct and none called [__proto__], at least one rule),
    [parseFormattedResult] applied to the four labelled lines returns the
    code, the description, the rules in order, and one price per item in
    order, keyed by location; the price table is empty exactly when the
    price line says "Price not specified". *)
Theorem parseFormattedResult_round_trip
        (c d : string) (items : list (string * string)) (rs : list string) :
  has_unit (ascii_of_nat 10) c = false ->
  has_unit (ascii_of_nat 10) d = false ->
  Forall (fun p => clean_item p = true) items ->
  NoDup (map snd items) ->
  ~ In "__proto__" (map snd items) ->
  Forall (fun r => clean_rule r = true) rs ->
  rs <> [] ->
  parseFormattedResult
    (formatted_result c d (prices_line items) (join ", " rs))
  = Ok (mkParsed c d (map (fun p => (snd p, fst p)) items) rs).
Proof.
  intros Hc Hd Hitems Hnd Hproto Hrules Hrs.
  assert (Hlines :
            split LF (formatted_result c d (prices_line items) (join ", " rs))
            = [("Item Code: " ++ c)%string; ("Description: " ++ d)%string;
               ("Price Cap: " ++ prices_line items)%string;
               ("Rules: " ++ join ", " rs)%string]).
  { unfold formatted_result, LF.
    rewrite <- (append_assoc "Item Code: " c).
    rewrite (split_cons (ascii_of_nat 10) "" ("Item Code: " ++ c))
      by (rewrite has_unit_app, Hc; reflexivity).
    rewrite <- (append_assoc "Description: " d).
    rewrite (split_cons (ascii_of_nat 10) "" ("Description: " ++ d))
      by (rewrite has_unit_app, Hd; reflexivity).
    rewrite <- (append_assoc "Price Cap: " (prices_line items)).
    rewrite (split_cons (ascii_of_nat 10) "" ("Price Cap: " ++ prices_line items))
      by (rewrite has_unit_app, prices_line_units by assumption; reflexivity).
    rewrite split_absent; [reflexivity|].
    rewrite has_unit_app. simpl. apply has_unit_join; [reflexivity|].
    apply clean_rule_units; auto. }
  unfold parseFormattedResult. rewrite Hlines.
  unfold line_without. cbn [nth_error bind].
  rewrite !remove_first_prefix.
  rewrite (split_join "," " " rs Hrs) by (apply clean_rule_units; auto).
  f_equal. f_equal.
  destruct items as [|i items]; [reflexivity|].
  destruct (String.eqb_spec (prices_line (i :: items)) "Price not specified")
    as [E|_].
  - exfalso. revert E. apply prices_line_specified; [discriminate | assumption].
  - unfold prices_line.
    rewrite (split_join "," " ") by
      (try discriminate; apply clean_item_units; auto).
    apply (fold_add_price (i :: items) []); assumption.
Qed.

Lemma parseFormattedResult_round_trip_witness :
  parseFormattedResult
    (formatted_result "01_011_0107_1_1" "Assistance With Self-Care, Weekday"
       (prices_line [("$67.56", "NSW"); ("$94.58", "Very Remote")])
       (join ", " ["Non-face-to-face"; "Provider Travel"]))
  = Ok (mkParsed "01_011_0107_1_1" "Assistance With Self-Care, Weekday"
          [("NSW", "$67.56"); ("Very Remote", "$94.58")]
          ["Non-face-to-face"; "Provider Travel"]).
Proof.
  apply (parseFormattedResult_round_trip
           "01_011_0107_1_1" "Assistance With Self-Care, Weekday"
           [("$67.56", "NSW"); ("$94.58", "Very Remote")]
           ["Non-face-to-face"; "Provider Travel"]).
  - reflexivity.
  - reflexivity.
  - repeat constructor.
  - repeat constructor; simpl; intuition discriminate.
  - simpl. intuition discriminate.
  - repeat constructor.
  - discriminate.
Defined.

End DecodeFacts.

(** ** Anchors *)

Section AnchorFacts.

Lemma NoDup_set_add (x : string) (l : list string) :
  NoDup l -> NoDup (Renderer.set_add x l).
Proof.
  intros H. unfold Renderer.set_add.
  destruct (existsb (String.eqb x) l) eqn:E; [assumption|].
  apply NoDup_app; [assumption | repeat constructor; simpl; tauto |].
  intros y Hy [Exy|[]]. subst y.
  assert (Hex : existsb (String.eqb x) l = true).
  { apply existsb_exists. exists x. split; [assumption | apply String.eqb_refl]. }
  congruence.
Qed.

Lemma NoDup_fold_set_add {A : Type} (f : A -> string) (l : list A)
      (acc : list string) :
  NoDup acc -> NoDup (fold_left (fun a m => Renderer.set_add (f m) a) l acc).
Proof.
  revert acc. induction l as [|m l IH]; intros acc H; simpl; [assumption|].
  apply IH, NoDup_set_add, H.
Qed.

Lemma insert_perm (x : string) (l : list string) :
  Permutation (Renderer.insert x l) (x :: l).
Proof.
  induction l as [|y l IH]; simpl; [reflexivity|].
  destruct (Renderer.not_after x y); [reflexivity|].
  rewrite IH. apply perm_swap.
Qed.

Lemma sort_perm (l : list string) : Permutation (Renderer.sort l) l.
Proof.
  unfold Renderer.sort. induction l as [|x l IH]; simpl; [reflexivity|].
  rewrite insert_perm, IH. reflexivity.
Qed.

(** What [extractReferences] returns. *)
Lemma extractReferences_spec (s : string) :
  exists refs,
    Renderer.extractReferences s = Ok refs /\
    NoDup refs /\
    (forall n, In n refs <-> In n (map (digits_of s) (all_matches s))).
Proof.
  pose proof (proj2 (matches_from_iff s (all_matches s)) eq_refl) as Hms.
  pose proof (matches_from_bounds s 0 _ Hms (Nat.le_0_l _)) as [_ Hlen].
  eexists. split; [|split].
  - unfold Renderer.extractReferences.
    rewrite (extract_loop_spec s 0 _ Hms (Nat.le_0_l _)) by lia.
    reflexivity.
  - eapply Permutation_NoDup; [symmetry; apply sort_perm|].
    apply NoDup_fold_set_add. constructor.
  - intros n. rewrite In_sort, In_fold_set_add. simpl. tauto.
Qed.

(** Citations cannot overlap, so the scan misses none. *)
Lemma citation_in_matches (s : string) (p : nat) (ms : list (nat * nat)) :
  matches_from s p ms ->
  forall j k', p <= j -> citation_at s j k' -> In (j, k') ms.
Proof.
  induction 1 as [p Hnone | p i k ms Hle Hc Hleft Hrest IH];
    intros j k' Hpj Hj.
  - exfalso. apply (Hnone j k'); assumption.
  - destruct (Nat.lt_trichotomy j i) as [Hlt|[->|Hgt]].
    + exfalso. apply (Hleft j k'); [lia | assumption].
    + left. f_equal. eapply citation_at_functional; eassumption.
    + right. apply IH; [|assumption].
      destruct (Nat.le_gt_cases (i + (k + 2)) j) as [Hfar|Hnear];
        [assumption|]. exfalso.
      destruct Hj as (Hopen & _). destruct Hc as (_ & _ & Hdigits & Hclose).
      destruct (Nat.eq_dec j (i + 1 + k)) as [->|Hne].
      * rewrite Hclose in Hopen. discriminate.
      * destruct (Hdigits (j - (i + 1))) as (c & Hget & Hdigit); [lia|].
        replace (i + 1 + (j - (i + 1))) with j in Hget by lia.
        rewrite Hopen in Hget. injection Hget as <-. discriminate.
Qed.

Import Updates.

Lemma In_add_all (refs acc : list string) (x : string) :
  In x (add_all refs acc) <-> In x acc \/ In x refs.
Proof.
  unfold add_all. revert acc. induction refs as [|r refs IH]; intros acc; simpl.
  - tauto.
  - rewrite IH, In_set_add. intuition congruence.
Qed.

Lemma add_updates_spec (updates : list NDISUpdate) (acc : list string) :
  NoDup acc ->
  exists all,
    add_updates updates acc = Ok all /\
    NoDup all /\
    (forall n,
        In n all <->
        In n acc \/
        exists u, In u updates /\
                  In n (map (digits_of (description u))
                            (all_matches (description u)))).
Proof.
  revert acc. induction updates as [|u updates IH]; intros acc Hnd.
  - exists acc. split; [reflexivity|]. split; [assumption|].
    intros n. split; [auto|]. intros [H|(u & [] & _)]. assumption.
  - destruct (extractReferences_spec (description u)) as (refs & He & _ & Hin).
    cbn [add_updates]. rewrite He. cbn [bind].
    destruct (IH (add_all refs acc)) as (all & Ha & Hall & Hmem).
    { unfold add_all. apply NoDup_fold_set_add. assumption. }
    exists all. split; [assumption|]. split; [assumption|].
    intros n. rewrite Hmem, In_add_all, Hin. split.
    + intros [[H|H]|(u' & Hu' & H)]; eauto.
      * right. exists u. split; [left; reflexivity | assumption].
      * right. exists u'. split; [right; assumption | assumption].
    + intros [H|(u' & [<-|Hu'] & H)]; eauto.
Qed.

Lemma referenceArray_spec (summary : string) (updates : option (list NDISUpdate)) :
  exists refs,
    referenceArray summary updates = Ok refs /\
    NoDup refs /\
    (forall n,
        In n refs <->
        exists field,
          In field (scanned_fields summary updates) /\
          In n (map (digits_of field) (all_matches field))).
Proof.
  destruct (extractReferences_spec summary) as (srefs & He & _ & Hin).
  unfold referenceArray. rewrite He. cbn [bind].
  assert (Hnd : NoDup (add_all srefs []))
    by (unfold add_all; apply NoDup_fold_set_add; constructor).
  destruct updates as [us|].
  - destruct (add_updates_spec us _ Hnd) as (all & Ha & Hall & Hmem).
    rewrite Ha. cbn [bind]. eexists. split; [reflexivity|].
    split; [eapply Permutation_NoDup; [symmetry; apply sort_perm | assumption]|].
    intros n. rewrite In_sort, Hmem, In_add_all, Hin.
    unfold scanned_fields. split.
    + intros [[[]|H]|(u & Hu & H)].
      * exists summary. split; [left; reflexivity | assumption].
      * exists (description u). split; [|assumption].
        right. apply in_map. assumption.
    + intros (field & [<-|Hf] & H); [auto|].
      apply in_map_iff in Hf. destruct Hf as (u & <- & Hu). eauto.
  - cbn [bind]. eexists. split; [reflexivity|].
    split; [eapply Permutation_NoDup; [symmetry; apply sort_perm | assumption]|].
    intros n. rewrite In_sort, In_add_all, Hin. unfold scanned_fields. split.
    + intros [[]|H]. exists summary. split; [left; reflexivity | assumption].
    + intros (field & [<-|[]] & H). auto.
Qed.

Lemma ref_id_injective (a b : string) :
  ("ref-" ++ a)%string = ("ref-" ++ b)%string -> a = b.
Proof. intros [= E]. exact E. Qed.

Lemma NoDup_ref_ids (refs : list string) :
  NoDup refs -> NoDup (map (fun n => ("ref-" ++ n)%string) refs).
Proof.
  induction 1 as [|x l Hx Hl IH]; simpl; constructor; [|assumption].
  intros H. apply in_map_iff in H. destruct H as (y & E & Hy).
  apply ref_id_injective in E. subst. contradiction.
Qed.

(** X8.  The hidden anchors never share an id: the array returned by
    [extractReferences] and the array built by the updates panel hold no
    reference twice, however often a citation is repeated, so the [id]
    attributes [ref-n] rendered from them are pairwise distinct. *)
Theorem anchor_ids_are_distinct
        (text summary : string) (updates : option (list NDISUpdate)) :
  (exists ids, Renderer.anchor_ids text = Ok ids /\ NoDup ids) /\
  (exists ids, Updates.anchor_ids summary updates = Ok ids /\ NoDup ids).
Proof.
  split.
  - destruct (extractReferences_spec text) as (refs & He & Hnd & _).
    unfold Renderer.anchor_ids. rewrite He. cbn [bind].
    eexists. split; [reflexivity | apply NoDup_ref_ids; assumption].
  - destruct (referenceArray_spec summary updates) as (refs & He & Hnd & _).
    unfold Updates.anchor_ids. rewrite He. cbn [bind].
    eexists. split; [reflexivity | apply NoDup_ref_ids; assumption].
Qed.

(** X9.  The anchors of the updates panel.  The panel renders a hidden
    anchor [ref-n] exactly for the digits [n] of the citations that stand
    in the summary or in the description of a key update, as these
    strings are received; without [key_updates], of the summary alone. *)
Theorem updates_panel_anchor_ids
        (summary : string) (updates : option (list NDISUpdate)) :
  exists ids,
    Updates.anchor_ids summary updates = Ok ids /\
    forall id,
      In id ids <->
      exists field i k,
        In field (scanned_fields summary updates) /\
        citation_at field i k /\
        id = ("ref-" ++ substring (i + 1) k field)%string.
Proof.
  destruct (referenceArray_spec summary updates) as (refs & He & _ & Hmem).
  unfold Updates.anchor_ids. rewrite He. cbn [bind].
  eexists. split; [reflexivity|]. intros id. split.
  - intros Hid. apply in_map_iff in Hid. destruct Hid as (n & <- & Hn).
    apply Hmem in Hn. destruct Hn as (field & Hf & Hn).
    apply in_map_iff in Hn. destruct Hn as ([i k] & <- & Hm).
    exists field, i, k. split; [assumption|]. split; [|reflexivity].
    apply (matches_from_In field 0 (all_matches field) (i, k));
      [apply matches_from_iff; reflexivity | assumption].
  - intros (field & i & k & Hf & Hc & ->).
    apply in_map. apply Hmem. exists field. split; [assumption|].
    apply in_map_iff. exists (i, k). split; [reflexivity|].
    apply (citation_in_matches field 0);
      [apply matches_from_iff; reflexivity | lia | assumption].
Qed.

End AnchorFacts.

(** ** The request URL *)

Section ApiFacts.

Import Api.

Lemma all_slashes_app (a b : string) :
  all_slashes (a ++ b) = all_slashes a && all_slashes b.
Proof.
  induction a as [|c a IH]; simpl; [reflexivity|].
  rewrite IH, andb_assoc. reflexivity.
Qed.

Lemma strip_trailing_all (b : string) :
  all_slashes b = true -> strip_trailing_slashes b = "".
Proof. destruct b as [|c b]; simpl; [reflexivity|]. intros ->. reflexivity. Qed.

Lemma strip_trailing_app (e b : string) :
  all_slashes b = true ->
  strip_trailing_slashes (e ++ b) = strip_trailing_slashes e.
Proof.
  intros Hb. induction e as [|c e IH]; simpl.
  - apply strip_trailing_all. assumption.
  - rewrite all_slashes_app, Hb, andb_true_r, IH. reflexivity.
Qed.

Lemma strip_leading_all (b : string) :
  all_slashes b = true -> strip_leading_slashes b = "".
Proof.
  induction b as [|c b IH]; simpl; [reflexivity|].
  intros H. apply andb_true_iff in H. destruct H as [-> H]. auto.
Qed.

Lemma strip_leading_app (a e : string) :
  all_slashes a = true ->
  strip_leading_slashes (a ++ e) = strip_leading_slashes e.
Proof.
  induction a as [|c a IH]; simpl; [reflexivity|].
  intros H. apply andb_true_iff in H. destruct H as [-> H]. auto.
Qed.

Lemma clean_app_trailing (e b : string) :
  all_slashes b = true -> cleanEndpoint (e ++ b) = cleanEndpoint e.
Proof.
  intros Hb. unfold cleanEndpoint. induction e as [|c e IH].
  - simpl. rewrite (strip_leading_all b Hb). reflexivity.
  - cbn [append strip_leading_slashes]. destruct (is_slash c); [exact IH|].
    apply (strip_trailing_app (String c e) b Hb).
Qed.

(** X10.  The request URL does not depend on how many slashes the
    endpoint starts or ends with. *)
Theorem getApiUrl_ignores_outer_slashes
        (env : option string) (a e b : string) :
  all_slashes a = true ->
  all_slashes b = true ->
  getApiUrl env (a ++ e ++ b) = getApiUrl env e.
Proof.
  intros Ha Hb. unfold getApiUrl. do 2 f_equal.
  unfold cleanEndpoint at 1. rewrite (strip_leading_app a _ Ha).
  apply (clean_app_trailing e b Hb).
Qed.

Lemma getApiUrl_ignores_outer_slashes_witness :
  getApiUrl (Some "http://localhost:8000//") ("//" ++ "api/decode" ++ "///")
  = getApiUrl (Some "http://localhost:8000//") "api/decode".
Proof.
  exact (getApiUrl_ignores_outer_slashes
           (Some "http://localhost:8000//") "//" "api/decode" "///"
           eq_refl eq_refl).
Defined.

Lemma strip_leading_decomp (s : string) :
  exists a,
    s = (a ++ strip_leading_slashes s)%string /\ all_slashes a = true /\
    first_unit (strip_leading_slashes s) <> Some "/"%char.
Proof.
  induction s as [|c s (a & E & Ha & Hf)]; simpl.
  - exists "". repeat split; auto. discriminate.
  - unfold is_slash. destruct (Ascii.eqb_spec c "/") as [->|Hc].
    + exists (String "/" a). simpl. rewrite <- E, Ha. repeat split; auto.
    + exists "". repeat split; auto.
      unfold first_unit. simpl. intros [= Ec]. contradiction.
Qed.

Lemma strip_trailing_decomp (s : string) :
  exists b,
    s = (strip_trailing_slashes s ++ b)%string /\ all_slashes b = true /\
    last_unit (strip_trailing_slashes s) <> Some "/"%char /\
    (first_unit s <> Some "/"%char ->
     first_unit (strip_trailing_slashes s) <> Some "/"%char).
Proof.
  induction s as [|c s (b & E & Hb & Hl & Hf)]; simpl.
  - exists "". repeat split; auto; discriminate.
  - destruct (is_slash c && all_slashes s) eqn:Hc.
    + exists (String c s). simpl. rewrite Hc. repeat split; auto; discriminate.
    + exists b. simpl. rewrite <- E. split; [reflexivity|].
      split; [assumption|]. split; [|auto].
      destruct (strip_trailing_slashes s) as [|x r] eqn:Es; [|assumption].
      simpl in E. subst s. rewrite Hb, andb_true_r in Hc.
      unfold is_slash in Hc. destruct (Ascii.eqb_spec c "/"); congruence.
Qed.

(** X11.  The request URL is the base, one slash, and the endpoint
    without its outer slashes: neither does the base end with a slash nor
    does the cleaned endpoint start or end with one, and the endpoint is
    the cleaned endpoint between two runs of slashes. *)
Theorem getApiUrl_joins_with_one_slash (env : option string) (endpoint : string) :
  exists a b,
    getApiUrl env endpoint
    = (API_BASE env ++ "/" ++ cleanEndpoint endpoint)%string /\
    last_unit (API_BASE env) <> Some "/"%char /\
    first_unit (cleanEndpoint endpoint) <> Some "/"%char /\
    last_unit (cleanEndpoint endpoint) <> Some "/"%char /\
    endpoint = (a ++ cleanEndpoint endpoint ++ b)%string /\
    all_slashes a = true /\ all_slashes b = true.
Proof.
  destruct (strip_leading_decomp endpoint) as (a & Ea & Ha & Hfa).
  destruct (strip_trailing_decomp (strip_leading_slashes endpoint))
    as (b & Eb & Hb & Hl & Hf).
  exists a, b. unfold cleanEndpoint.
  split; [reflexivity|]. split.
  - unfold API_BASE.
    match goal with
    | |- last_unit (strip_trailing_slashes ?x) <> _ =>
        destruct (strip_trailing_decomp x) as (? & _ & _ & H & _); exact H
    end.
  - split; [auto|]. split; [assumption|].
    split; [|auto]. rewrite <- Eb. exact Ea.
Qed.

(** X12.  For each of the four preset endpoints the request URL is the
    base followed by the endpoint's [url] as it is written in
    [ENDPOINTS]. *)
Theorem getApiUrl_of_presets (env : option string) (e : Constants.Endpoint) :
  In e Constants.ENDPOINTS ->
  getApiUrl env (Constants.url e) = (API_BASE env ++ Constants.url e)%string.
Proof.
  intros [<-|[<-|[<-|[<-|[]]]]]; reflexivity.
Qed.

Lemma getApiUrl_of_presets_witness :
  getApiUrl None (Constants.url Constants.PLAN_BUDGET)
  = (API_BASE None ++ Constants.url Constants.PLAN_BUDGET)%string.
Proof.
  apply (getApiUrl_of_presets None Constants.PLAN_BUDGET).
  simpl. tauto.
Defined.

End ApiFacts.

(** ** Which panel is shown *)

Section DisplayFacts.

Import Constants.
Import Display.

(** X13.  Title and panel agree.  For a response without error and not
    loading, each preset endpoint gets a panel of its own under its own
    name, two presets never share a panel, and any other endpoint gets
    the title "NDIS" and no panel. *)
Theorem title_and_panel_agree (endpoint : string) :
  (forall e,
      In e ENDPOINTS -> endpoint = url e ->
      exists k,
        ResultsDisplay endpoint (Some None) false
        = ShowResults (name e) (Some k) /\
        forall e', In e' ENDPOINTS -> panel_of (url e') = Some k -> e' = e) /\
  ((forall e, In e ENDPOINTS -> endpoint <> url e) ->
   ResultsDisplay endpoint (Some None) false = ShowResults "NDIS" None).
Proof.
  split.
  - intros e He ->.
    destruct He as [<-|[<-|[<-|[<-|[]]]]]; eexists; (split; [reflexivity|]);
      intros e' [<-|[<-|[<-|[<-|[]]]]]; simpl; intros [= ]; reflexivity.
  - intros H. unfold ResultsDisplay, title_of, panel_of. cbn [truthy].
    destruct (String.eqb_spec endpoint (url NDIS_UPDATES)) as [E|_];
      [exfalso; apply (H NDIS_UPDATES); simpl; auto|].
    destruct (String.eqb_spec endpoint (url POLICY_SERVICES)) as [E|_];
      [exfalso; apply (H POLICY_SERVICES); simpl; auto|].
    destruct (String.eqb_spec endpoint (url DECODE)) as [E|_];
      [exfalso; apply (H DECODE); simpl; auto|].
    destruct (String.eqb_spec endpoint (url PLAN_BUDGET)) as [E|_];
      [exfalso; apply (H PLAN_BUDGET); simpl; auto|].
    reflexivity.
Qed.

End DisplayFacts.

(** ** When a message can be sent *)

Section ChatFacts.

Import Chat.

Lemma trim_end_empty (s : string) : trim_end s = "" <-> all_space s = true.
Proof.
  split.
  - destruct s as [|c s]; simpl; [reflexivity|].
    destruct (is_space c && all_space s); [reflexivity | discriminate].
  - destruct s as [|c s]; simpl; [reflexivity|]. intros ->. reflexivity.
Qed.

Lemma all_space_trim_start (s : string) :
  all_space (trim_start s) = all_space s.
Proof.
  induction s as [|c s IH]; simpl; [reflexivity|].
  destruct (is_space c) eqn:E; simpl; [exact IH | rewrite E; reflexivity].
Qed.

Lemma trim_empty (s : string) : truthy (trim s) = negb (all_space s).
Proof.
  unfold truthy, trim.
  destruct (String.eqb_spec (trim_end (trim_start s)) "") as [E|E].
  - apply trim_end_empty in E. rewrite all_space_trim_start in E.
    rewrite E. reflexivity.
  - destruct (all_space s) eqn:Hs; [|reflexivity].
    exfalso. apply E. apply trim_end_empty.
    rewrite all_space_trim_start. assumption.
Qed.

(** X14.  The three guards agree.  Enter without Shift asks for a submit
    exactly when the send button is enabled; whenever that happens the
    guard of [onSubmit] lets the submission through; and input made of
    white space only can be sent by none of the three ways. *)
Theorem send_guards_agree (st : State) :
  requestSubmit (onKeyDown st "Enter" false) = negb (send_disabled st) /\
  (forall key shiftKey,
      requestSubmit (onKeyDown st key shiftKey) = true ->
      send_disabled st = false /\ onSubmit_returns_early st = false) /\
  (all_space (input st) = true ->
   send_disabled st = true /\
   onSubmit_returns_early st = true /\
   forall key shiftKey, requestSubmit (onKeyDown st key shiftKey) = false).
Proof.
  destruct st as [inp up ld].
  unfold onKeyDown, send_disabled, onSubmit_returns_early.
  cbn [input isUploading isLoading]. rewrite trim_empty.
  split; [|split].
  - simpl. destruct (all_space inp), up, ld; reflexivity.
  - intros key shiftKey.
    destruct ((key =? "Enter")%string && negb shiftKey); cbn [requestSubmit];
      [|discriminate].
    destruct (all_space inp), up, ld; simpl; intros H;
      try discriminate; auto.
  - intros ->. split; [reflexivity|]. split; [destruct ld; reflexivity|].
    intros key shiftKey.
    destruct ((key =? "Enter")%string && negb shiftKey); reflexivity.
Qed.

End ChatFacts.

(** ** The plan amount *)

Example amount_text_examples :
  Budget.amount_text "Help me allocate my $50,000 NDIS plan" = Some "50000" /\
  Budget.amount_text "I have 50k to spend" = Some "50000" /\
  Budget.amount_text "I have $1.5k" = Some "1.5000" /\
  Budget.amount_text "about 50k dollars" = Some "50kdollars" /\
  Budget.amount_text "we are 3 and share $80,000" = Some "3" /\
  Budget.amount_text "a 50km trip" = None /\
  Budget.amount_text "no amount here" = None.
Proof. repeat split; reflexivity. Qed.

Section RegexFacts.

Import Regex.

Lemma run_unit (cls : ascii -> bool) prev c s k :
  run (Unit cls) prev (String c s) k = if cls c then k (Some c) s else None.
Proof. reflexivity. Qed.

Lemma run_seq r1 r2 prev s k :
  run (Seq r1 r2) prev s k = run r1 prev s (fun p s' => run r2 p s' k).
Proof. reflexivity. Qed.

Lemma run_alt r1 r2 prev s k :
  run (Alt r1 r2) prev s k
  = match run r1 prev s k with
    | Some out => Some out
    | None => run r2 prev s k
    end.
Proof. reflexivity. Qed.

Lemma run_boundary prev s k :
  run Boundary prev s k
  = if xorb (word_before prev) (word_after s) then k prev s else None.
Proof. reflexivity. Qed.

Lemma run_star_cons (cls : ascii -> bool) prev c s k :
  run (Star cls) prev (String c s) k
  = if cls c then
      match run (Star cls) (Some c) s k with
      | Some out => Some out
      | None => k prev (String c s)
      end
    else k prev (String c s).
Proof. reflexivity. Qed.

Lemma run_star_nil (cls : ascii -> bool) prev k :
  run (Star cls) prev "" k = k prev "".
Proof. reflexivity. Qed.

Lemma run_star_stop (cls : ascii -> bool) prev s k :
  stops cls s = true -> run (Star cls) prev s k = k prev s.
Proof.
  destruct s as [|c s]; [reflexivity|]. simpl stops. intros H.
  rewrite run_star_cons. apply negb_true_iff in H. rewrite H. reflexivity.
Qed.

Lemma run_opt_stop (cls : ascii -> bool) prev s k :
  stops cls s = true -> run (Opt cls) prev s k = k prev s.
Proof.
  destruct s as [|c s]; [reflexivity|]. simpl. intros H.
  apply negb_true_iff in H. rewrite H. reflexivity.
Qed.

(** A greedy star over a run of units of its class takes the whole run
    when what follows can be matched from there. *)
Lemma run_star_all (cls : ascii -> bool) (d rest : string) prev k out :
  all_in cls d = true ->
  stops cls rest = true ->
  k (last_from prev d) rest = Some out ->
  run (Star cls) prev (d ++ rest) k = Some out.
Proof.
  revert prev. induction d as [|c d IH]; intros prev Hd Hrest Hk.
  - cbn [append last_from] in *. rewrite run_star_stop by assumption. exact Hk.
  - simpl in Hd. apply andb_true_iff in Hd. destruct Hd as [Hc Hd].
    change ((String c d ++ rest)%string) with (String c (d ++ rest)).
    rewrite run_star_cons, Hc.
    rewrite (IH (Some c) Hd Hrest Hk). reflexivity.
Qed.

(** When nothing can be matched after any number of units of the run,
    the star fails. *)
Lemma run_star_none (cls : ascii -> bool) (d rest : string) prev k :
  all_in cls d = true ->
  stops cls rest = true ->
  (forall d1 d2 p, d = (d1 ++ d2)%string -> k p (d2 ++ rest)%string = None) ->
  run (Star cls) prev (d ++ rest) k = None.
Proof.
  revert prev. induction d as [|c d IH]; intros prev Hd Hrest Hk.
  - cbn [append]. rewrite run_star_stop by assumption.
    apply (Hk "" "" prev eq_refl).
  - simpl in Hd. apply andb_true_iff in Hd. destruct Hd as [Hc Hd].
    change ((String c d ++ rest)%string) with (String c (d ++ rest)).
    rewrite run_star_cons, Hc.
    rewrite (IH (Some c) Hd Hrest).
    + apply (Hk "" (String c d) prev eq_refl).
    + intros d1 d2 p E. apply (Hk (String c d1) d2 p). simpl. congruence.
Qed.

(** Whatever is matched, the rest is no longer than the subject. *)
Lemma run_shrinks (r : Re) :
  forall prev s k out,
    run r prev s k = Some out ->
    exists p' s', k p' s' = Some out /\ String.length s' <= String.length s.
Proof.
  induction r as [cls|cls|cls| |r1 IH1 r2 IH2|r1 IH1 r2 IH2];
    intros prev s k out H.
  - destruct s as [|c s]; [discriminate|]. rewrite run_unit in H.
    destruct (cls c); [|discriminate]. exists (Some c), s. simpl. auto.
  - revert prev H. induction s as [|c s IHs]; intros prev H.
    + rewrite run_star_nil in H. eauto.
    + rewrite run_star_cons in H. destruct (cls c); [|eauto].
      destruct (run (Star cls) (Some c) s k) as [o|] eqn:E; [|eauto].
      injection H as ->. destruct (IHs _ E) as (p' & s' & Hk & Hl).
      exists p', s'. simpl. auto.
  - destruct s as [|c s]; simpl in H; [eauto|].
    destruct (cls c); [|eauto].
    destruct (k (Some c) s) as [o|] eqn:E; [|eauto].
    injection H as ->. exists (Some c), s. simpl. auto.
  - rewrite run_boundary in H.
    destruct (xorb (word_before prev) (word_after s)); [eauto | discriminate].
  - rewrite run_seq in H. destruct (IH1 _ _ _ _ H) as (p1 & s1 & H1 & L1).
    destruct (IH2 _ _ _ _ H1) as (p2 & s2 & H2 & L2).
    exists p2, s2. split; [assumption | lia].
  - rewrite run_alt in H. destruct (run r1 prev s k) as [o|] eqn:E.
    + injection H as ->. eauto.
    + eauto.
Qed.

End RegexFacts.

Section BudgetFacts.

Import Regex.
Import Budget.
Import JsString.

Lemma digit_facts (c : ascii) :
  Js.is_digit c = true ->
  is_word c = true /\ digit_or_comma c = true /\ Chat.is_space c = false /\
  lit "." c = false /\ lit "$" c = false /\
  letter "k" c = false /\ letter "d" c = false /\
  is_mark c = false /\ lower_unit c = c /\ ("k" =? c)%char = false.
Proof.
  destruct c as [[] [] [] [] [] [] [] []]; intros H;
    try discriminate H; repeat split; reflexivity.
Qed.

Lemma all_digits_or_comma (d : string) :
  all_in Js.is_digit d = true -> all_in digit_or_comma d = true.
Proof.
  induction d as [|c d IH]; simpl; [reflexivity|]. intros H.
  apply andb_true_iff in H. destruct H as [Hc Hd].
  destruct (digit_facts c Hc) as (_ & -> & _). auto.
Qed.

Lemma first_match_here (re : Re) prev s rest :
  run re prev s (fun _ r => Some r) = Some rest ->
  first_match re prev s
  = Some (take (String.length s - String.length rest) s).
Proof. intros H. destruct s; simpl; rewrite H; reflexivity. Qed.

Lemma take_all (s : string) : take (String.length s) s = s.
Proof. induction s as [|c s IH]; simpl; [reflexivity | now rewrite IH]. Qed.

Lemma run_opt_take (cls : ascii -> bool) prev c s k out :
  cls c = true -> k (Some c) s = Some out ->
  run (Opt cls) prev (String c s) k = Some out.
Proof. intros Hc Hk. simpl. rewrite Hc, Hk. reflexivity. Qed.

Lemma strip_marks_digits (d x : string) :
  all_in Js.is_digit d = true ->
  strip_marks (d ++ x) = (d ++ strip_marks x)%string.
Proof.
  induction d as [|c d IH]; simpl; [reflexivity|]. intros H.
  apply andb_true_iff in H. destruct H as [Hc Hd].
  destruct (digit_facts c Hc) as (_ & _ & _ & _ & _ & _ & _ & Hm & _).
  unfold is_mark in Hm. rewrite Hm, (IH Hd). reflexivity.
Qed.

Lemma strip_marks_spaces (w x : string) :
  all_in Chat.is_space w = true -> strip_marks (w ++ x) = strip_marks x.
Proof.
  induction w as [|c w IH]; simpl; [reflexivity|]. intros H.
  apply andb_true_iff in H. destruct H as [Hc Hw].
  rewrite Hc, !orb_true_r. auto.
Qed.

Lemma toLowerCase_digits (d x : string) :
  all_in Js.is_digit d = true ->
  toLowerCase (d ++ x) = (d ++ toLowerCase x)%string.
Proof.
  induction d as [|c d IH]; simpl; [reflexivity|]. intros H.
  apply andb_true_iff in H. destruct H as [Hc Hd].
  destruct (digit_facts c Hc) as (_ & _ & _ & _ & _ & _ & _ & _ & -> & _).
  rewrite (IH Hd). reflexivity.
Qed.

Lemma remove_first_k_digits (d x : string) :
  all_in Js.is_digit d = true ->
  remove_first "k" (d ++ x) = (d ++ remove_first "k" x)%string.
Proof.
  induction d as [|c d IH]; [reflexivity|]. intros H.
  simpl in H. apply andb_true_iff in H. destruct H as [Hc Hd].
  destruct (digit_facts c Hc) as (_ & _ & _ & _ & _ & _ & _ & _ & _ & Hk).
  change ((String c d ++ x)%string) with (String c (d ++ x)).
  cbn [remove_first starts_with]. rewrite Hk. cbn [andb].
  rewrite (IH Hd). reflexivity.
Qed.

Lemma last_unit_app (a : string) (c : ascii) (r : string) :
  Api.last_unit (a ++ String c r) = Api.last_unit (String c r).
Proof.
  induction a as [|x a IH]; [reflexivity|].
  change ((String x a ++ String c r)%string) with (String x (a ++ String c r)).
  rewrite <- IH. destruct (a ++ String c r)%string eqn:E; [|reflexivity].
  destruct a; discriminate.
Qed.

Lemma last_unit_digits (c : ascii) (d : string) :
  Js.is_digit c = true -> all_in Js.is_digit d = true ->
  exists l, Api.last_unit (String c d) = Some l /\ Js.is_digit l = true.
Proof.
  revert c. induction d as [|x d IH]; intros c Hc Hd.
  - exists c. auto.
  - simpl in Hd. apply andb_true_iff in Hd. destruct Hd as [Hx Hd].
    destruct (IH x Hx Hd) as (l & Hl & Hdl). exists l. auto.
Qed.

Lemma last_from_digits (c : ascii) (d : string) :
  Js.is_digit c = true -> all_in Js.is_digit d = true ->
  exists l, last_from (Some c) d = Some l /\ Js.is_digit l = true.
Proof.
  revert c. induction d as [|x d IH]; intros c Hc Hd.
  - exists c. auto.
  - simpl in Hd. apply andb_true_iff in Hd. destruct Hd as [Hx Hd].
    exact (IH x Hx Hd).
Qed.

(** The number [$d1] or [$d1.d2] followed by [k] is matched whole by the
    first alternative. *)
Lemma run_dollar_k (c : ascii) (d tail : string) :
  Js.is_digit c = true ->
  all_in Js.is_digit d = true ->
  (tail = "k" \/
   exists d2, all_in Js.is_digit d2 = true /\ tail = ("." ++ d2 ++ "k")%string) ->
  run amountRegex None (String "$" (String c (d ++ tail))) (fun _ r => Some r)
  = Some "".
Proof.
  intros Hc Hd Htail. unfold amountRegex. rewrite run_alt.
  assert (E : run (Seq (Unit (lit "$")) number) None
                  (String "$" (String c (d ++ tail))) (fun _ r => Some r)
              = Some "").
  { rewrite run_seq, run_unit. change (lit "$" "$") with true. cbv iota.
    unfold number. rewrite run_seq, run_unit, Hc, run_seq.
    apply run_star_all.
    - apply all_digits_or_comma. assumption.
    - destruct Htail as [->|(d2 & _ & ->)]; reflexivity.
    - destruct Htail as [->|(d2 & Hd2 & ->)]; [reflexivity|].
      rewrite run_seq.
      change (("." ++ d2 ++ "k")%string) with (String "." (d2 ++ "k")).
      apply run_opt_take; [reflexivity|].
      rewrite run_seq. apply run_star_all; [assumption | reflexivity
                                            | reflexivity]. }
  rewrite E. reflexivity.
Qed.

Lemma inert_digits (d : string) : all_in Js.is_digit d = true -> inert d.
Proof.
  intros H x. split; [|split].
  - apply strip_marks_digits. assumption.
  - apply toLowerCase_digits. assumption.
  - apply remove_first_k_digits. assumption.
Qed.

Lemma inert_dot : inert ".".
Proof. intros x. repeat split. Qed.

Lemma inert_app (a b : string) : inert a -> inert b -> inert (a ++ b).
Proof.
  intros Ha Hb x. rewrite !append_assoc.
  destruct (Ha (b ++ x)%string) as (-> & -> & ->).
  destruct (Hb x) as (-> & -> & ->). repeat split.
Qed.

Lemma tidy_number_k (n : string) :
  inert n -> tidy (String "$" (n ++ "k")) = (n ++ "000")%string.
Proof.
  intros Hn. destruct (Hn "k") as (Hs & Hl & Hr). unfold tidy.
  change (strip_marks (String "$" (n ++ "k"))) with (strip_marks (n ++ "k")).
  rewrite Hs. change (strip_marks "k") with "k". rewrite Hl.
  change (toLowerCase "k") with "k".
  unfold ends_with_k. rewrite (last_unit_app n "k" "").
  change (Api.last_unit "k") with (Some "k"%char). cbv iota.
  change (("k" =? "k")%char) with true. cbv iota.
  rewrite Hr. change (remove_first "k" "k") with "".
  rewrite append_empty_r. reflexivity.
Qed.

(** X15.  A number that follows a dollar sign and ends in [k] is handed
    to [parseFloat] with three zeros in place of the [k]; when the number
    has a decimal point the zeros land behind the decimals, so that
    [$1.5k] is read as [1.5000]. *)
Theorem amount_text_k_suffix (d1 d2 : string) :
  d1 <> "" ->
  all_in Js.is_digit d1 = true ->
  all_in Js.is_digit d2 = true ->
  amount_text ("$" ++ d1 ++ "k") = Some (d1 ++ "000")%string /\
  amount_text ("$" ++ d1 ++ "." ++ d2 ++ "k")
  = Some (d1 ++ "." ++ d2 ++ "000")%string.
Proof.
  intros Hne H1 H2. destruct d1 as [|c d]; [contradiction|].
  pose proof H1 as H1'.
  simpl in H1. apply andb_true_iff in H1. destruct H1 as [Hc Hd].
  split.
  - unfold amount_text.
    change (("$" ++ String c d ++ "k")%string)
      with (String "$" (String c (d ++ "k"))).
    rewrite (first_match_here _ _ _ ""
               (run_dollar_k c d "k" Hc Hd (or_introl eq_refl))).
    rewrite Nat.sub_0_r, take_all.
    change (String "$" (String c (d ++ "k")))
      with (String "$" (String c d ++ "k")).
    rewrite (tidy_number_k (String c d) (inert_digits _ H1')). reflexivity.
  - unfold amount_text.
    change (("$" ++ String c d ++ "." ++ d2 ++ "k")%string)
      with (String "$" (String c (d ++ "." ++ d2 ++ "k"))).
    rewrite (first_match_here _ _ _ ""
               (run_dollar_k c d ("." ++ d2 ++ "k") Hc Hd
                  (or_intror (ex_intro _ d2 (conj H2 eq_refl))))).
    rewrite Nat.sub_0_r, take_all.
    replace (String "$" (String c (d ++ "." ++ d2 ++ "k")))
      with (String "$" ((String c d ++ "." ++ d2) ++ "k"))
      by (rewrite !append_assoc; reflexivity).
    rewrite tidy_number_k.
    + rewrite !append_assoc. reflexivity.
    + apply inert_app; [apply inert_digits; assumption|].
      apply inert_app; [apply inert_dot | apply inert_digits; assumption].
Qed.

Lemma amount_text_k_suffix_witness :
  amount_text ("$" ++ "12" ++ "k") = Some ("12" ++ "000")%string /\
  amount_text ("$" ++ "12" ++ "." ++ "75" ++ "k")
  = Some ("12" ++ "." ++ "75" ++ "000")%string.
Proof.
  apply (amount_text_k_suffix "12" "75"); [discriminate | reflexivity | reflexivity].
Defined.

(** A number followed by [k], white space and the word [dollars] is
    matched whole by the second alternative. *)
Lemma run_k_dollars (c : ascii) (d w : string) :
  Js.is_digit c = true ->
  all_in Js.is_digit d = true ->
  all_in Chat.is_space w = true ->
  run amountRegex None (String c (d ++ "k" ++ w ++ "dollars"))
      (fun _ r => Some r)
  = Some "".
Proof.
  intros Hc Hd Hw.
  destruct (digit_facts c Hc) as (Hword & _ & _ & _ & Hdollar & _).
  unfold amountRegex. rewrite run_alt.
  rewrite run_seq at 1. rewrite run_unit, Hdollar.
  rewrite run_alt.
  assert (E : run (Seq Boundary
                       (Seq number
                            (Seq (Star Chat.is_space) (Seq dollars Boundary))))
                  None (String c (d ++ "k" ++ w ++ "dollars"))
                  (fun _ r => Some r)
              = Some "").
  { rewrite run_seq, run_boundary.
    cbn [word_before word_after]. rewrite Hword. cbn [xorb].
    rewrite run_seq. unfold number at 1.
    rewrite run_seq, run_unit, Hc, run_seq.
    apply run_star_all.
    - apply all_digits_or_comma. assumption.
    - reflexivity.
    - rewrite run_seq.
      change (("k" ++ w ++ "dollars")%string) with (String "k" (w ++ "dollars")).
      rewrite run_opt_stop by reflexivity.
      rewrite run_seq, run_star_stop by reflexivity.
      rewrite run_seq, run_star_stop by reflexivity.
      apply run_opt_take; [reflexivity|].
      rewrite run_seq. apply run_star_all; [assumption | reflexivity|].
      reflexivity. }
  rewrite E. reflexivity.
Qed.

(** X16.  With the word [dollars] the [k] is not expanded: for digits
    [d] and any white space [w], the message [d k w dollars] hands
    [parseFloat] the text [d] followed by [kdollars]: the text does not
    end in [k], so no zeros are put in. *)
Theorem amount_text_k_dollars (d w : string) :
  d <> "" ->
  all_in Js.is_digit d = true ->
  all_in Chat.is_space w = true ->
  amount_text (d ++ "k" ++ w ++ "dollars") = Some (d ++ "kdollars")%string.
Proof.
  intros Hne Hd Hw. destruct d as [|c d]; [contradiction|].
  pose proof Hd as Hd'.
  simpl in Hd. apply andb_true_iff in Hd. destruct Hd as [Hc Hd].
  unfold amount_text.
  change ((String c d ++ "k" ++ w ++ "dollars")%string)
    with (String c (d ++ "k" ++ w ++ "dollars")).
  rewrite (first_match_here _ _ _ "" (run_k_dollars c d w Hc Hd Hw)).
  rewrite Nat.sub_0_r, take_all. unfold tidy.
  change (String c (d ++ "k" ++ w ++ "dollars"))
    with (String c d ++ String "k" (w ++ "dollars"))%string.
  rewrite (strip_marks_digits (String c d) _ Hd').
  assert (Hs : strip_marks (String "k" (w ++ "dollars")) = "kdollars").
  { change (strip_marks (String "k" (w ++ "dollars")))
      with (String "k" (strip_marks (w ++ "dollars"))).
    rewrite (strip_marks_spaces w "dollars" Hw). reflexivity. }
  rewrite Hs, (toLowerCase_digits (String c d) "kdollars" Hd').
  unfold ends_with_k.
  change (toLowerCase "kdollars") with "kdollars".
  rewrite (last_unit_app (String c d) "k" "dollars"). reflexivity.
Qed.

Lemma amount_text_k_dollars_witness :
  amount_text ("50" ++ "k" ++ " " ++ "dollars") = Some ("50" ++ "kdollars")%string.
Proof.
  apply (amount_text_k_dollars "50" " ");
    [discriminate | reflexivity | reflexivity].
Defined.

Lemma all_in_app (cls : ascii -> bool) (a b : string) :
  all_in cls (a ++ b) = all_in cls a && all_in cls b.
Proof.
  induction a as [|c a IH]; simpl; [reflexivity|].
  rewrite IH, andb_assoc. reflexivity.
Qed.

Lemma take_prefix (a out : string) :
  take (String.length (a ++ out) - String.length out) (a ++ out) = a.
Proof.
  rewrite string_length_app.
  replace (String.length a + String.length out - String.length out)
    with (String.length a) by lia.
  apply take_app.
Qed.

Lemma tidy_digits_space (d w : string) :
  d <> "" ->
  all_in Js.is_digit d = true ->
  all_in Chat.is_space w = true ->
  tidy (d ++ w) = d.
Proof.
  intros Hne Hd Hw. unfold tidy.
  rewrite (strip_marks_digits d w Hd).
  replace (strip_marks w) with "".
  - rewrite append_empty_r.
    rewrite <- (append_empty_r d) at 1.
    rewrite (toLowerCase_digits d "" Hd). cbn [toLowerCase].
    rewrite append_empty_r. unfold ends_with_k.
    destruct d as [|c d]; [contradiction|].
    simpl in Hd. apply andb_true_iff in Hd. destruct Hd as [Hc Hd].
    destruct (last_unit_digits c d Hc Hd) as (l & -> & Hl).
    destruct (digit_facts l Hl) as (_ & _ & _ & _ & _ & _ & _ & _ & _ & Hk).
    rewrite Ascii.eqb_sym, Hk. reflexivity.
  - symmetry. rewrite <- (append_empty_r w).
    rewrite (strip_marks_spaces w "" Hw). reflexivity.
Qed.

(** After the number and one space comes a unit [r0] that is no white
    space and starts neither [k] nor [dollars]. *)
Section FirstNumber.

Variables (r0 : ascii) (rest' : string).
Hypothesis Hspace : Chat.is_space r0 = false.
Hypothesis Hk : letter "k" r0 = false.
Hypothesis Hd : letter "d" r0 = false.

Let tail : string := String " " (String r0 rest').

Let REST2 : Re := Seq (Star Chat.is_space) (Seq dollars Boundary).

Let KR : option ascii -> string -> option string :=
  fun p s' => run REST2 p s' (fun _ r => Some r).

Let N4 : Re := Seq (Star Chat.is_space) (Opt (letter "k")).

Lemma no_dollars_at_r0 p :
  run (Seq dollars Boundary) p (String r0 rest') (fun _ r => Some r) = None.
Proof.
  unfold dollars. rewrite !run_seq, run_unit, Hd. reflexivity.
Qed.

Lemma no_dollars_after_space p :
  KR p tail = None.
Proof.
  unfold KR, REST2, tail. rewrite run_seq, run_star_cons.
  change (Chat.is_space " ") with true. cbv iota.
  rewrite run_star_stop by (simpl; rewrite Hspace; reflexivity).
  cbv beta. rewrite no_dollars_at_r0. reflexivity.
Qed.

Lemma no_dollars_from_r0 p :
  KR p (String r0 rest') = None.
Proof.
  unfold KR, REST2. rewrite run_seq.
  rewrite run_star_stop by (simpl; rewrite Hspace; reflexivity).
  cbv beta. apply no_dollars_at_r0.
Qed.

Lemma no_dollars_at_digit p e s :
  Js.is_digit e = true -> KR p (String e s) = None.
Proof.
  intros He.
  destruct (digit_facts e He) as (_ & _ & Hs & _ & _ & _ & Hde & _).
  unfold KR, REST2. rewrite run_seq.
  rewrite run_star_stop by (simpl; rewrite Hs; reflexivity).
  cbv beta. unfold dollars. rewrite !run_seq, run_unit, Hde. reflexivity.
Qed.

Lemma alt2_tail_fails (e2 : string) p :
  all_in Js.is_digit e2 = true ->
  run N4 p (e2 ++ tail) KR = None.
Proof.
  intros He2. unfold N4. destruct e2 as [|e e2].
  - cbn [append]. unfold tail at 1. rewrite run_seq, run_star_cons.
    change (Chat.is_space " ") with true. cbv iota.
    rewrite run_star_stop by (simpl; rewrite Hspace; reflexivity).
    cbv beta.
    rewrite run_opt_stop by (simpl; rewrite Hk; reflexivity).
    rewrite no_dollars_from_r0.
    rewrite run_opt_stop by reflexivity.
    apply no_dollars_after_space.
  - simpl in He2. apply andb_true_iff in He2. destruct He2 as [He He2].
    destruct (digit_facts e He) as (_ & _ & Hs & _ & _ & Hke & _).
    change ((String e e2 ++ tail)%string) with (String e (e2 ++ tail)).
    rewrite run_seq.
    rewrite run_star_stop by (simpl; rewrite Hs; reflexivity).
    cbv beta.
    rewrite run_opt_stop by (simpl; rewrite Hke; reflexivity).
    apply no_dollars_at_digit. assumption.
Qed.

Lemma stops_dot (d2 : string) :
  all_in Js.is_digit d2 = true -> stops (lit ".") (d2 ++ tail) = true.
Proof.
  destruct d2 as [|e d2]; [reflexivity|]. simpl. intros H.
  apply andb_true_iff in H. destruct H as [He _].
  destruct (digit_facts e He) as (_ & _ & _ & Hdot & _).
  rewrite Hdot. reflexivity.
Qed.

Lemma alt2_fails (c : ascii) (d : string) :
  Js.is_digit c = true ->
  all_in Js.is_digit d = true ->
  run (Seq Boundary (Seq number REST2)) None (String c (d ++ tail))
      (fun _ r => Some r)
  = None.
Proof.
  intros Hc Hdig.
  destruct (digit_facts c Hc) as (Hword & _).
  rewrite run_seq, run_boundary. cbn [word_before word_after].
  rewrite Hword. cbn [xorb].
  rewrite run_seq. unfold number.
  rewrite run_seq, run_unit, Hc, run_seq.
  apply run_star_none.
  - apply all_digits_or_comma. assumption.
  - reflexivity.
  - intros d1 d2 p E.
    assert (Hd2 : all_in Js.is_digit d2 = true).
    { rewrite E, all_in_app in Hdig. apply andb_true_iff in Hdig. tauto. }
    rewrite run_seq, run_opt_stop by (apply stops_dot; assumption).
    cbv beta. rewrite run_seq.
    apply run_star_none; [assumption | reflexivity|].
    intros e1 e2 p' E'.
    assert (He2 : all_in Js.is_digit e2 = true).
    { rewrite E', all_in_app in Hd2. apply andb_true_iff in Hd2. tauto. }
    apply (alt2_tail_fails e2 p' He2).
Qed.

Lemma alt3_matches (c : ascii) (d : string) :
  Js.is_digit c = true ->
  all_in Js.is_digit d = true ->
  run (Seq number Boundary) None (String c (d ++ tail)) (fun _ r => Some r)
  = Some (if is_word r0 then String r0 rest' else tail).
Proof.
  intros Hc Hdig.
  destruct (last_from_digits c d Hc Hdig) as (l & Hl & Hld).
  destruct (digit_facts l Hld) as (Hlword & _).
  rewrite run_seq. unfold number. rewrite run_seq, run_unit, Hc, run_seq.
  apply run_star_all.
  - apply all_digits_or_comma. assumption.
  - reflexivity.
  - rewrite Hl. unfold tail.
    rewrite run_seq, run_opt_stop by reflexivity. cbv beta.
    rewrite run_seq, run_star_stop by reflexivity. cbv beta.
    rewrite run_seq, run_star_cons. change (Chat.is_space " ") with true. cbv iota.
    rewrite run_star_stop by (simpl; rewrite Hspace; reflexivity).
    cbv beta.
    rewrite run_opt_stop by (simpl; rewrite Hk; reflexivity).
    rewrite run_boundary. cbn [word_before word_after].
    change (is_word " ") with false. cbn [xorb].
    destruct (is_word r0); [reflexivity|].
    rewrite run_opt_stop by reflexivity.
    rewrite run_boundary. cbn [word_before word_after].
    rewrite Hlword. reflexivity.
Qed.

Lemma first_number_match (c : ascii) (d : string) :
  Js.is_digit c = true ->
  all_in Js.is_digit d = true ->
  run amountRegex None (String c (d ++ tail)) (fun _ r => Some r)
  = Some (if is_word r0 then String r0 rest' else tail).
Proof.
  intros Hc Hdig.
  destruct (digit_facts c Hc) as (_ & _ & _ & _ & Hdollar & _).
  unfold amountRegex. rewrite run_alt.
  rewrite run_seq at 1. rewrite run_unit, Hdollar.
  rewrite run_alt.
  fold REST2. rewrite (alt2_fails c d Hc Hdig).
  apply alt3_matches; assumption.
Qed.

End FirstNumber.

(** X17.  The first number wins.  When the message starts with digits
    [d] and a space, and what follows starts neither with white space nor
    with [k] or [d] in either case, the text handed to [parseFloat] is
    [d], whatever comes later in the message, a dollar amount included. *)
Theorem amount_text_first_number (d : string) (r0 : ascii) (rest' : string) :
  d <> "" ->
  all_in Js.is_digit d = true ->
  Chat.is_space r0 = false ->
  letter "k" r0 = false ->
  letter "d" r0 = false ->
  amount_text (d ++ " " ++ String r0 rest') = Some d.
Proof.
  intros Hne Hdig Hs Hk Hd. destruct d as [|c d]; [contradiction|].
  pose proof Hdig as Hdig'.
  simpl in Hdig. apply andb_true_iff in Hdig. destruct Hdig as [Hc Hdig].
  unfold amount_text.
  change ((String c d ++ " " ++ String r0 rest')%string)
    with (String c (d ++ String " " (String r0 rest'))).
  rewrite (first_match_here _ _ _ _
             (first_number_match r0 rest' Hs Hk Hd c d Hc Hdig)).
  destruct (is_word r0).
  - replace (String c (d ++ String " " (String r0 rest')))
      with ((String c d ++ " ") ++ String r0 rest')%string
      by (rewrite append_assoc; reflexivity).
    rewrite take_prefix.
    rewrite (tidy_digits_space (String c d) " " Hne Hdig' eq_refl).
    reflexivity.
  - change (String c (d ++ String " " (String r0 rest')))
      with (String c d ++ String " " (String r0 rest'))%string.
    rewrite take_prefix.
    rewrite <- (append_empty_r (String c d)) at 1.
    rewrite (tidy_digits_space (String c d) "" Hne Hdig' eq_refl).
    reflexivity.
Qed.

Lemma amount_text_first_number_witness :
  amount_text ("3" ++ " " ++ String "o" "f us share $80,000") = Some "3".
Proof.
  apply (amount_text_first_number "3" "o" "f us share $80,000");
    [discriminate | reflexivity | reflexivity | reflexivity | reflexivity].
Defined.

Lemma number_head prev s k out :
  (forall p s' o, k p s' = Some o -> String.length o <= String.length s') ->
  run number prev s k = Some out ->
  exists c s1,
    s = String c s1 /\ Js.is_digit c = true /\
    String.length out <= String.length s1.
Proof.
  intros Hk. unfold number. rewrite run_seq. intros H.
  destruct s as [|c s1]; [discriminate|]. rewrite run_unit in H.
  destruct (Js.is_digit c) eqn:Hc; [|discriminate].
  apply run_shrinks in H. destruct H as (p1 & s2 & H & L1).
  apply Hk in H. exists c, s1. repeat split; [assumption | lia].
Qed.

Lemma then_shrinks (R : Re) p s' o :
  run R p s' (fun _ r => Some r) = Some o ->
  String.length o <= String.length s'.
Proof.
  intros H. apply run_shrinks in H. destruct H as (p1 & s1 & H & L).
  injection H as <-. assumption.
Qed.

Lemma amountRegex_head prev s out :
  run amountRegex prev s (fun _ r => Some r) = Some out ->
  exists c s1,
    Js.is_digit c = true /\
    (s = String "$" (String c s1) \/ s = String c s1) /\
    String.length out <= String.length s1.
Proof.
  unfold amountRegex. rewrite !run_alt. intros H.
  destruct (run (Seq (Unit (lit "$")) number) prev s (fun _ r => Some r))
    as [o|] eqn:E1.
  - injection H as ->. rewrite run_seq in E1.
    destruct s as [|x s0]; [discriminate|]. rewrite run_unit in E1.
    destruct (lit "$" x) eqn:Hx; [|discriminate].
    apply Ascii.eqb_eq in Hx. subst x.
    apply number_head in E1.
    + destruct E1 as (c & s1 & -> & Hc & L). exists c, s1. auto.
    + intros p s' o H. injection H as <-. lia.
  - match type of H with
    | match ?a with _ => _ end = _ => destruct a as [o|] eqn:E2
    end.
    + injection H as ->. rewrite run_seq, run_boundary in E2.
      destruct (xorb (word_before prev) (word_after s)); [|discriminate].
      rewrite run_seq in E2. apply number_head in E2.
      * destruct E2 as (c & s1 & -> & Hc & L). exists c, s1. auto.
      * intros p s' o. apply then_shrinks.
    + rewrite run_seq in H. apply number_head in H.
      * destruct H as (c & s1 & -> & Hc & L). exists c, s1. auto.
      * intros p s' o. apply then_shrinks.
Qed.

Lemma first_match_cons (re : Re) prev c r :
  first_match re prev (String c r)
  = match run re prev (String c r) (fun _ rest => Some rest) with
    | Some rest =>
        Some (take (String.length (String c r) - String.length rest)
                   (String c r))
    | None => first_match re (Some c) r
    end.
Proof. reflexivity. Qed.

Lemma take_head1 (c : ascii) (s rest : string) :
  String.length rest <= String.length s ->
  take (String.length (String c s) - String.length rest) (String c s)
  = String c (take (String.length s - String.length rest) s).
Proof.
  intros L.
  replace (String.length (String c s) - String.length rest)
    with (S (String.length s - String.length rest))
    by (cbn [String.length]; lia).
  reflexivity.
Qed.

Lemma take_head2 (a c : ascii) (s rest : string) :
  String.length rest <= String.length s ->
  take (String.length (String a (String c s)) - String.length rest)
       (String a (String c s))
  = String a (String c (take (String.length s - String.length rest) s)).
Proof.
  intros L.
  replace (String.length (String a (String c s)) - String.length rest)
    with (S (S (String.length s - String.length rest)))
    by (cbn [String.length]; lia).
  reflexivity.
Qed.

Lemma first_match_head (input : string) :
  forall prev match0,
    first_match amountRegex prev input = Some match0 ->
    exists c m,
      Js.is_digit c = true /\
      (match0 = String "$" (String c m) \/ match0 = String c m).
Proof.
  induction input as [|x input IH]; intros prev match0 H.
  - cbn [first_match] in H.
    destruct (run amountRegex prev "" (fun _ r => Some r)) as [rest|] eqn:E;
      [|discriminate].
    destruct (amountRegex_head _ _ _ E) as (c & s1 & _ & [Es|Es] & _);
      discriminate Es.
  - rewrite first_match_cons in H.
    destruct (run amountRegex prev (String x input) (fun _ r => Some r))
      as [rest|] eqn:E; [|eauto].
    destruct (amountRegex_head _ _ _ E) as (c & s1 & Hc & [Es|Es] & L);
      rewrite Es in H; injection H as <-;
      exists c, (take (String.length s1 - String.length rest) s1);
      (split; [assumption|]).
    + left. apply take_head2. assumption.
    + right. apply take_head1. assumption.
Qed.

Lemma strip_marks_clean (s : string) :
  all_in (fun c => negb (is_mark c)) (strip_marks s) = true.
Proof.
  induction s as [|c s IH]; [reflexivity|]. cbn [strip_marks].
  fold (is_mark c). destruct (is_mark c) eqn:E; [assumption|].
  cbn [all_in]. rewrite E, IH. reflexivity.
Qed.

Lemma lower_unit_clean (c : ascii) :
  is_mark c = false -> is_mark (lower_unit c) = false.
Proof. destruct c as [[] [] [] [] [] [] [] []]; intros H; exact H || reflexivity. Qed.

Lemma toLowerCase_clean (s : string) :
  all_in (fun c => negb (is_mark c)) s = true ->
  all_in (fun c => negb (is_mark c)) (toLowerCase s) = true.
Proof.
  induction s as [|c s IH]; [reflexivity|]. cbn [all_in toLowerCase].
  intros H. apply andb_true_iff in H. destruct H as [Hc Hs].
  apply negb_true_iff in Hc. rewrite (lower_unit_clean c Hc), (IH Hs).
  reflexivity.
Qed.

Lemma remove_first_k_all_in (cls : ascii -> bool) (s : string) :
  all_in cls s = true -> all_in cls (remove_first "k" s) = true.
Proof.
  induction s as [|c s IH]; [reflexivity|]. cbn [all_in]. intros H.
  apply andb_true_iff in H. destruct H as [Hc Hs].
  cbn [remove_first starts_with].
  destruct (("k" =? c)%char); cbn [andb].
  - destruct s; exact Hs.
  - cbn [all_in]. rewrite Hc, (IH Hs). reflexivity.
Qed.

(** X18.  Whenever the pattern matches, the text handed to [parseFloat]
    starts with a digit and holds no dollar sign, comma or white space. *)
Theorem amount_text_is_clean (input text : string) :
  amount_text input = Some text ->
  (exists c rest, text = String c rest /\ Js.is_digit c = true) /\
  all_in (fun c => negb (is_mark c)) text = true.
Proof.
  unfold amount_text.
  destruct (first_match amountRegex None input) as [match0|] eqn:E;
    [|discriminate].
  intros H. injection H as <-.
  destruct (first_match_head _ _ _ E) as (c & m & Hc & Hm).
  destruct (digit_facts c Hc)
    as (_ & _ & _ & _ & _ & _ & _ & Hmark & Hlow & Hk).
  assert (Es : strip_marks match0 = String c (strip_marks m)).
  { destruct Hm as [->| ->].
    - cbn [strip_marks]. rewrite Ascii.eqb_refl. cbn [orb].
      fold (is_mark c). rewrite Hmark. reflexivity.
    - cbn [strip_marks]. fold (is_mark c). rewrite Hmark. reflexivity. }
  pose proof (strip_marks_clean match0) as Hclean.
  unfold tidy. cbv zeta.
  destruct (ends_with_k (toLowerCase (strip_marks match0))).
  - split.
    + rewrite Es. cbn [toLowerCase]. rewrite Hlow.
      cbn [remove_first starts_with]. rewrite Hk. cbn [andb append].
      eauto.
    + rewrite all_in_app. apply andb_true_iff. split; [|reflexivity].
      apply remove_first_k_all_in, toLowerCase_clean. assumption.
  - split; [rewrite Es; eauto | assumption].
Qed.

Lemma amount_text_is_clean_witness :
  (exists c rest, "50000" = String c rest /\ Js.is_digit c = true) /\
  all_in (fun c => negb (is_mark c)) "50000" = true.
Proof.
  apply (amount_text_is_clean "allocate my $ 50k plan, or 50,000" "50000").
  vm_compute. reflexivity.
Defined.

End BudgetFacts.
